(** * SpeedyDb: the ordered index, the record codec and the flush driver

    A shallow embedding of the Go sources
      - [structuredDB/rowSize.go], package [btree]: the in-memory B-tree;
        package [structuredDB]: the storage sizes of fractional seconds
        and of decimals, the count of the members of an enum or set, and
        the sum of the column sizes;
      - [btreeWriting/btreeWriter.go]: the length-prefixed record writer;
      - [main.go]: the ingestion loop, the two-segment flush and the
        seek points of the columns;
    followed by the properties proved about them.

    Conventions of the embedding.
      - A Go [int] is a [Z].  Primary keys are only ever compared, so no
        wrap-around arises for them; the one place where [int] arithmetic
        can overflow on a value the caller chooses, [2*tr.t-1], is written
        with [wrap64].  The item counter [tr.n] counts items that are
        resident in memory and cannot reach [2^63].
      - A [uint64] is a [Z] kept below [2^64] by [wrapU64].
      - Nodes are mutated through pointers in Go; no node is ever reachable
        from two parents (split copies the moved items and children), so a
        mutation is modelled by rebuilding the path from the root.
      - A run-time panic (index out of range) is the result [Panic].
        Functions whose Go recursion or loop is not structural take a fuel
        argument and answer [OutOfFuel] when it is used up; the theorems
        show that the fuel their callers pass is never used up.
      - Opening a segment file can fail.  [createNewWriter],
        [writeMapToFile] and [importDataFromFile] are the code when every
        [os.OpenFile] succeeds; [createNewWriterOn], [writeMapToFileOn]
        and [importDataFromFileOn] take the outcome of each open as an
        argument and have the nil writer and its panic.
      - The library calls ([sort.Search], [strconv.ParseInt],
        [bufio.Writer], [os.File], [os.Rename]) are modelled after the Go
        standard library; [json.Marshal] and the JSON decoder are kept
        abstract: a value carries what they return for it. *)

From Stdlib Require Import String Ascii Init.Byte Strings.Byte.
From Stdlib Require Import ZArith List Lia Bool Sorted Permutation.
Import ListNotations.
Set Warnings "-register-all".
Open Scope Z_scope.

(** ** Results of partial computations *)

Inductive res (A : Type) : Type :=
| Ok (a : A)
| Panic
| OutOfFuel.

Arguments Ok {A} a.
Arguments Panic {A}.
Arguments OutOfFuel {A}.

Definition bind {A B : Type} (r : res A) (k : A -> res B) : res B :=
  match r with
  | Ok a => k a
  | Panic => Panic
  | OutOfFuel => OutOfFuel
  end.

Notation "'do' x <- r ; k" := (bind r (fun x => k))
  (at level 10, x pattern, r at level 100, k at level 200).

(** ** Machine integers *)

Definition wrap64 (z : Z) : Z := (z + 2 ^ 63) mod 2 ^ 64 - 2 ^ 63.
Definition wrapU64 (z : Z) : Z := z mod 2 ^ 64.
Definition wrapU32 (z : Z) : Z := z mod 2 ^ 32.
Definition MaxInt64 : Z := 2 ^ 63 - 1.
Definition MinInt64 : Z := - 2 ^ 63.
Definition MaxUint16 : Z := 65535.

(** A value of Go type [int] (64 bits). *)
Definition is_int (z : Z) : Prop := MinInt64 <= z <= MaxInt64.

(** ** Package btree: data *)

(** The dynamic types [appendAny] distinguishes in a [Row] value. *)
Inductive any : Type :=
| ANil
| ABool (b : bool)
| AInt (x : Z)            (* int, int8, int16, int32, int64 *)
| AUint (x : Z)           (* uint, uint8, uint16, uint32 *)
| AUint64 (x : Z)         (* uint64 *)
| AFloat (bits : Z)       (* float32 (widened) or float64: the binary64 bit pattern *)
| ANumber (s : string)    (* json.Number: the literal's text *)
| AString (s : string)
| ABytes (b : list byte)
| AOther (marshal : option (list byte)).
                          (* any other type: what json.Marshal returns for it,
                             [None] when it returns an error *)

(** [type Row map[string]any]: the entries, in the order a [range] loop
    happens to visit them.  A nil map and an empty map are both [[]]. *)
Definition Row : Type := list (string * any).

Record Item : Type := mkItem { PK : Z; row : Row }.

(** [Item{}] *)
Definition zeroItem : Item := mkItem 0 [].

Inductive node : Type :=
| Node (leaf : bool) (items : list Item) (children : list node).

Definition leaf (n : node) : bool := let (l, _, _) := n in l.
Definition items (n : node) : list Item := let (_, i, _) := n in i.
Definition children (n : node) : list node := let (_, _, c) := n in c.

Record BTree : Type := mkBTree { t : Z; root : node; n : Z }.

Definition New (t : Z) : BTree :=
  let t := if t <? 2 then 2 else t in
  mkBTree t (Node true [] []) 0.

(** ** Package btree: slices *)

(** [s = append(s, zero); copy(s[i+1:], s[i:]); s[i] = x] *)
Definition insert_at {A : Type} (i : nat) (x : A) (s : list A) : list A :=
  firstn i s ++ x :: skipn i s.

(** [s[i] = x], for [i] in range *)
Definition set_at {A : Type} (i : nat) (x : A) (s : list A) : list A :=
  firstn i s ++ x :: skipn (S i) s.

(** [sort.Search(n, f)]: the binary search of the Go standard library,
    [for i < j { h := int(uint(i+j) >> 1); if !f(h) { i = h+1 } else { j = h } }].
    The interval [[i, j)] shrinks at every step, so [n] steps end the loop
    whatever [f] is. *)
Fixpoint search_loop (fuel : nat) (i j : nat) (f : nat -> bool) : nat :=
  match fuel with
  | O => i
  | S fuel' =>
      if (i <? j)%nat then
        let h := ((i + j) / 2)%nat in
        if f h then search_loop fuel' i h f else search_loop fuel' (h + 1)%nat j f
      else i
  end.

Definition Search (n : nat) (f : nat -> bool) : nat := search_loop n 0 n f.

(** [sort.Search(len(n.items), func(i int) bool { return n.items[i].PK >= pk })] *)
Definition searchPK (its : list Item) (pk : Z) : nat :=
  Search (length its) (fun j => pk <=? PK (nth j its zeroItem)).

(** [i < len(n.items) && n.items[i].PK == pk], with the item found *)
Definition hit (its : list Item) (i : nat) (pk : Z) : option Item :=
  match nth_error its i with
  | Some old => if PK old =? pk then Some old else None
  | None => None
  end.

(** ** Package btree: insertion *)

(** [len(x.items) == 2*tr.t-1] *)
Definition full (t : Z) (x : node) : bool :=
  Z.of_nat (length (items x)) =? wrap64 (2 * t - 1).

(** [splitChild]: [n.children[i]] is split around its item [t-1], which
    moves up into [n.items[i]]; the new sibling goes to [n.children[i+1]]. *)
Definition splitChild (t : Z) (n : node) (i : nat) : res node :=
  let (nleaf, nitems, nchildren) := n in
  match nth_error nchildren i with
  | None => Panic
  | Some (Node yleaf yitems ychildren) =>
      let k := Z.to_nat t in
      match nth_error yitems (k - 1) with
      | None => Panic
      | Some median =>
          if (t <? 1) || (length yitems <? k)%nat then Panic else
          if negb yleaf && (length ychildren <? k)%nat then Panic else
          if (length nitems <? i)%nat then Panic else
          let z := Node yleaf (skipn k yitems)
                        (if yleaf then [] else skipn k ychildren) in
          let y := Node yleaf (firstn (k - 1) yitems)
                        (if yleaf then ychildren else firstn k ychildren) in
          Ok (Node nleaf (insert_at i median nitems)
                   (insert_at (S i) z (set_at i y nchildren)))
      end
  end.

Fixpoint insertNonFull (fuel : nat) (t : Z) (n : node) (it : Item)
  : res (node * Item * bool) :=
  match fuel with
  | O => OutOfFuel
  | S fuel' =>
      let (nleaf, nitems, nchildren) := n in
      let i := searchPK nitems (PK it) in
      match hit nitems i (PK it) with
      | Some old => Ok (Node nleaf (set_at i it nitems) nchildren, old, true)
      | None =>
          if nleaf then
            Ok (Node nleaf (insert_at i it nitems) nchildren, zeroItem, false)
          else
            match nth_error nchildren i with
            | None => Panic
            | Some c =>
                if full t c then
                  do n1 <- splitChild t n i;
                  match nth_error (items n1) i with
                  | None => Panic
                  | Some m =>
                      if PK m <? PK it then
                        match nth_error (children n1) (S i) with
                        | None => Panic
                        | Some c1 =>
                            do (c2, old, replaced) <- insertNonFull fuel' t c1 it;
                            Ok (Node (leaf n1) (items n1)
                                     (set_at (S i) c2 (children n1)), old, replaced)
                        end
                      else if PK it =? PK m then
                        Ok (Node (leaf n1) (set_at i it (items n1)) (children n1),
                            m, true)
                      else
                        match nth_error (children n1) i with
                        | None => Panic
                        | Some c1 =>
                            do (c2, old, replaced) <- insertNonFull fuel' t c1 it;
                            Ok (Node (leaf n1) (items n1)
                                     (set_at i c2 (children n1)), old, replaced)
                        end
                  end
                else
                  do (c2, old, replaced) <- insertNonFull fuel' t c it;
                  Ok (Node nleaf nitems (set_at i c2 nchildren), old, replaced)
            end
      end
  end.

(** The longest path from a node down to a leaf. *)
Fixpoint height (n : node) : nat :=
  let (nleaf, _, nchildren) := n in
  if nleaf then O else S (fold_right Nat.max O (map height nchildren)).

(** [Upsert].  [insertNonFull] descends one level per call, so the height
    of the node it starts from, plus one, is fuel enough. *)
Definition Upsert (tr : BTree) (it : Item) : res (BTree * Item * bool) :=
  let r := root tr in
  if full (t tr) r then
    do s <- splitChild (t tr) (Node false [] [r]) 0;
    do (s', old, replaced) <- insertNonFull (S (height s)) (t tr) s it;
    Ok (mkBTree (t tr) s' (if replaced then n tr else n tr + 1), old, replaced)
  else
    do (r', old, replaced) <- insertNonFull (S (height r)) (t tr) r it;
    Ok (mkBTree (t tr) r' (if replaced then n tr else n tr + 1), old, replaced).

Definition Len (tr : BTree) : Z := n tr.
Definition IsEmpty (tr : BTree) : bool := n tr =? 0.

(** A sequence of [Upsert] calls, results dropped. *)
Fixpoint upserts (tr : BTree) (its : list Item) : res BTree :=
  match its with
  | [] => Ok tr
  | it :: rest => do (tr', _, _) <- Upsert tr it; upserts tr' rest
  end.

(** ** Package btree: lookup *)

(** [Get]: the loop follows [n.children[i]]; the inner [fix] is that
    indexing, written so that the descent is structural. *)
Fixpoint getNode (n : node) (pk : Z) : res (option Row) :=
  let (nleaf, nitems, nchildren) := n in
  let i := searchPK nitems pk in
  match hit nitems i pk with
  | Some found => Ok (Some (row found))
  | None =>
      if nleaf then Ok None
      else
        (fix index (cs : list node) (i : nat) {struct cs} : res (option Row) :=
           match cs, i with
           | [], _ => Panic
           | c :: _, O => getNode c pk
           | _ :: cs', S i' => index cs' i'
           end) nchildren i
  end.

Definition Get (tr : BTree) (pk : Z) : res (option Row) := getNode (root tr) pk.

(** ** Package btree: the ascending cursor *)

Definition iterFrame : Type := (node * nat)%type.

(** [Iter.stack], the top of the stack first. *)
Definition Iter : Type := list iterFrame.

Fixpoint pushLeft (n : node) (stack : Iter) : res Iter :=
  match n with
  | Node nleaf _ nchildren =>
      let stack' := (n, O) :: stack in
      if nleaf then Ok stack'
      else match nchildren with
           | c :: _ => pushLeft c stack'
           | [] => Panic
           end
  end.

Definition IterAscend (tr : BTree) : res Iter := pushLeft (root tr) [].

(** [Next]: [Some item] for [(item, true)], [None] for [(Item{}, false)]. *)
Fixpoint Next (stack : Iter) : res (option Item * Iter) :=
  match stack with
  | [] => Ok (None, [])
  | (x, i) :: rest =>
      match nth_error (items x) i with
      | Some item =>
          if leaf x then Ok (Some item, (x, S i) :: rest)
          else match nth_error (children x) (S i) with
               | Some c =>
                   do stack' <- pushLeft c ((x, S i) :: rest);
                   Ok (Some item, stack')
               | None => Panic
               end
      | None => Next rest
      end
  end.

(** Calling [Next] until it reports no more items. *)
Fixpoint drain (fuel : nat) (it : Iter) : res (list Item) :=
  match fuel with
  | O => OutOfFuel
  | S fuel' =>
      do (r, it') <- Next it;
      match r with
      | None => Ok []
      | Some item => do rest <- drain fuel' it'; Ok (item :: rest)
      end
  end.

(** ** Package btree: range scan *)

Section AscendRange.
(** The visitor [fn] is a closure: it reads and updates a state [S] and
    answers whether to go on. *)
Context {S : Type}.
Variable lo hi : Z.
Variable fn : S -> Item -> S * bool.

(** The loop body at one item, after the child before it was scanned:
    [fn] is called when the key is in range; the answer [false] stands
    for [return false], [true] for going on to [i+1]. *)
Definition visitItem (s : S) (it : Item) : S * bool :=
  let '(s1, go) :=
    if (lo <=? PK it) && (PK it <? hi) then fn s it else (s, true) in
  if negb go then (s1, false)
  else if hi <=? PK it then (s1, false)
  else (s1, true).

(** The loop of a leaf. *)
Fixpoint ascendLeaf (its : list Item) (s : S) : S * bool :=
  match its with
  | [] => (s, true)
  | it :: its' =>
      let '(s1, go) := visitItem s it in
      if go then ascendLeaf its' s1 else (s1, false)
  end.

Fixpoint ascendRangeNode (x : node) (s : S) : res (S * bool) :=
  let (xleaf, xitems, xchildren) := x in
  if xleaf then Ok (ascendLeaf xitems s)
  else
    (fix loop (cs : list node) (its : list Item) (s : S) {struct cs}
       : res (S * bool) :=
       match cs with
       | [] => Panic
       | c :: cs' =>
           match its with
           | [] => ascendRangeNode c s
           | it :: its' =>
               do (s1, go) <- ascendRangeNode c s;
               if go then
                 let '(s2, go2) := visitItem s1 it in
                 if go2 then loop cs' its' s2 else Ok (s2, false)
               else Ok (s1, false)
           end
       end) xchildren xitems s.

Definition AscendRange (tr : BTree) (s : S) : res S :=
  do (s', _) <- ascendRangeNode (root tr) s; Ok s'.
End AscendRange.

(** The visitor that records every item it is shown and never stops. *)
Definition collect (acc : list Item) (it : Item) : list Item * bool :=
  (acc ++ [it], true).

(** ** Package btreeWriting: the record codec *)

Definition tagNil : Z := 0.
Definition tagBool : Z := 1.
Definition tagInt64 : Z := 2.
Definition tagFloat : Z := 3.
Definition tagString : Z := 4.
Definition tagBytes : Z := 5.
Definition tagJSON : Z := 6.

(** The byte [z mod 256]. *)
Definition byteZ (z : Z) : byte :=
  match Byte.of_N (Z.to_N (z mod 256)) with
  | Some b => b
  | None => x00
  end.

(** [binary.LittleEndian.PutUintN]: the [k] low bytes of [z], lowest first. *)
Fixpoint le_bytes (k : nat) (z : Z) : list byte :=
  match k with
  | O => []
  | S k' => byteZ z :: le_bytes k' (z / 256)
  end.

Definition appendU16 (dst : list byte) (v : Z) : list byte := dst ++ le_bytes 2 v.
Definition appendU32 (dst : list byte) (v : Z) : list byte := dst ++ le_bytes 4 v.
(** [appendI64(dst, v)] writes [uint64(v)]. *)
Definition appendI64 (dst : list byte) (v : Z) : list byte := dst ++ le_bytes 8 (wrapU64 v).
(** [appendF64(dst, v)] writes [math.Float64bits(v)]. *)
Definition appendF64 (dst : list byte) (bits : Z) : list byte := dst ++ le_bytes 8 bits.

Definition len {A : Type} (s : list A) : Z := Z.of_nat (length s).
Definition slen (s : string) : Z := Z.of_nat (String.length s).

(** [strconv.ParseInt(s, 10, 64)], which [json.Number.Int64] and (on a
    64-bit platform) [strconv.Atoi] compute: an optional sign, then one or
    more decimal digits, the value within the [int64] range. *)
Definition digit (c : ascii) : option Z :=
  let d := Z.of_N (N_of_ascii c) in
  if (48 <=? d) && (d <=? 57) then Some (d - 48) else None.

Fixpoint parseDigits (s : string) (acc : Z) : option Z :=
  match s with
  | EmptyString => Some acc
  | String c s' =>
      match digit c with
      | Some d => parseDigits s' (10 * acc + d)
      | None => None
      end
  end.

Definition ParseInt (s : string) : option Z :=
  match s with
  | EmptyString => None
  | String c s' =>
      let '(neg, body) :=
        if Ascii.eqb c "+" then (false, s')
        else if Ascii.eqb c "-" then (true, s')
        else (false, s) in
      match body with
      | EmptyString => None
      | _ =>
          match parseDigits body 0 with
          | None => None
          | Some u =>
              let v := if neg then - u else u in
              if (MinInt64 <=? v) && (v <=? MaxInt64) then Some v else None
          end
      end
  end.

Inductive encodeError : Type :=
| TooManyFields
| FieldNameTooLong
| Uint64TooLarge
| MarshalFailed.

(** [appendAny].  With an error Go also returns the buffer filled so far;
    [WriteItem] only hands that buffer back to the pool, where its next
    user truncates it, so the error alone is kept. *)
Definition appendAny (dst : list byte) (v : any) : list byte + encodeError :=
  match v with
  | ANil => inl (dst ++ [byteZ tagNil])
  | ABool x => inl (dst ++ [byteZ tagBool] ++ [byteZ (if x then 1 else 0)])
  | AInt x => inl (appendI64 (dst ++ [byteZ tagInt64]) x)
  | AUint x => inl (appendI64 (dst ++ [byteZ tagInt64]) x)
  | AUint64 x =>
      if MaxInt64 <? x then inr Uint64TooLarge
      else inl (appendI64 (dst ++ [byteZ tagInt64]) x)
  | AFloat bits => inl (appendF64 (dst ++ [byteZ tagFloat]) bits)
  | ANumber s =>
      match ParseInt s with
      | Some i64 => inl (appendI64 (dst ++ [byteZ tagInt64]) i64)
      | None =>
          inl (appendU32 (dst ++ [byteZ tagString]) (wrapU32 (slen s))
                 ++ list_byte_of_string s)
      end
  | AString x =>
      inl (appendU32 (dst ++ [byteZ tagString]) (wrapU32 (slen x))
             ++ list_byte_of_string x)
  | ABytes x => inl (appendU32 (dst ++ [byteZ tagBytes]) (wrapU32 (len x)) ++ x)
  | AOther (Some b) => inl (appendU32 (dst ++ [byteZ tagJSON]) (wrapU32 (len b)) ++ b)
  | AOther None => inr MarshalFailed
  end.

(** The [range it.Row] loop of [encodeItemInto]. *)
Fixpoint encodeFields (dst : list byte) (fields : Row) : list byte + encodeError :=
  match fields with
  | [] => inl dst
  | (k, v) :: rest =>
      if 255 <? slen k then inr FieldNameTooLong
      else
        match appendAny (dst ++ [byteZ (slen k)] ++ list_byte_of_string k) v with
        | inl dst' => encodeFields dst' rest
        | inr e => inr e
        end
  end.

Definition encodeItemInto (dst : list byte) (it : Item) : list byte + encodeError :=
  let dst := appendU32 dst (wrapU32 (PK it)) in
  if MaxUint16 <? len (row it) then inr TooManyFields
  else encodeFields (appendU16 dst (len (row it))) (row it).

(** ** Package btreeWriting: the sink *)

(** An [*os.File] opened for writing: a write fails once it is closed.
    The files of this program are created or truncated by
    [createNewWriter] and written only through the one writer made for
    them, so the offset of the handle is the end of [content] and a write
    appends.  A handle opened at offset 0 over earlier bytes would
    overwrite them; such a file is outside this model, and the theorems
    on what a file holds are stated for files that were opened empty. *)
Record File : Type := mkFile { content : list byte; closed : bool }.

(** [f.Write(p)]: the file and whether an error is returned. *)
Definition fileWrite (f : File) (p : list byte) : File * bool :=
  if closed f then (f, true) else (mkFile (content f ++ p) false, false).

Definition fileClose (f : File) : File * bool :=
  (mkFile (content f) true, closed f).

(** [bufio.Writer] of the Go standard library over that file: the bytes
    buffered and its sticky error. *)
Record bufWriter : Type := mkBuf { wr : File; pending : list byte; failed : bool }.

(** [bufio.NewWriterSize(f, 16<<20)] *)
Definition bufSize : Z := 16 * 2 ^ 20.
Definition available (b : bufWriter) : Z := bufSize - len (pending b).

(** [bw.Flush()] *)
Definition bufFlush (b : bufWriter) : bufWriter * bool :=
  if failed b then (b, true)
  else match pending b with
       | [] => (b, false)
       | _ =>
           let '(f, e) := fileWrite (wr b) (pending b) in
           if e then (mkBuf f (pending b) true, true) else (mkBuf f [] false, false)
       end.

(** The loop of [bw.Write(p)],
    [for len(p) > b.Available() && b.err == nil]: a full buffer is flushed,
    and a large write into an empty buffer goes to the file directly. *)
Fixpoint bufWriteLoop (fuel : nat) (b : bufWriter) (p : list byte)
  : bufWriter * list byte :=
  match fuel with
  | O => (b, p)
  | S fuel' =>
      if (available b <? len p) && negb (failed b) then
        match pending b with
        | [] =>
            let '(f, e) := fileWrite (wr b) p in
            if e then (mkBuf f [] true, p)
            else bufWriteLoop fuel' (mkBuf f [] false) []
        | _ =>
            let k := Z.to_nat (available b) in
            let b1 := mkBuf (wr b) (pending b ++ firstn k p) (failed b) in
            bufWriteLoop fuel' (fst (bufFlush b1)) (skipn k p)
        end
      else (b, p)
  end.

(** [bw.Write(p)]: the loop body runs at most twice (flush, then a
    direct write). *)
Definition bufWrite (b : bufWriter) (p : list byte) : bufWriter * bool :=
  let '(b1, p1) := bufWriteLoop 2 b p in
  if failed b1 then (b1, true)
  else (mkBuf (wr b1) (pending b1 ++ p1) false, false).

(** ** Package btreeWriting: the writer *)

(** The buffer pool is left out: a pooled buffer is truncated to length 0
    when it is taken, so its contents never reach a record. *)
Record Writer : Type := mkWriter { bw : bufWriter; BytesWritten : Z; Records : Z }.

Definition NewWriter (f : File) : Writer := mkWriter (mkBuf f [] false) 0 0.

Inductive writeError : Type :=
| EncodeFailed (e : encodeError)
| SinkFailed.

Definition WriteItem (w : Writer) (it : Item) : Writer * option writeError :=
  match encodeItemInto [] it with
  | inr e => (w, Some (EncodeFailed e))
  | inl buf =>
      let recBytes := wrapU64 (4 + len buf) in
      let '(b1, e1) := bufWrite (bw w) (le_bytes 4 (wrapU32 (len buf))) in
      if e1 then (mkWriter b1 (BytesWritten w) (Records w), Some SinkFailed)
      else
        let '(b2, e2) := bufWrite b1 buf in
        if e2 then (mkWriter b2 (BytesWritten w) (Records w), Some SinkFailed)
        else (mkWriter b2 (wrapU64 (BytesWritten w + recBytes))
                       (wrapU64 (Records w + 1)), None)
  end.

(** [w.Flush()] *)
Definition Flush (w : Writer) : Writer * bool :=
  let '(b, e) := bufFlush (bw w) in
  (mkWriter b (BytesWritten w) (Records w), e).

(** [w.Close()]: flush, then close the file whether or not the flush failed. *)
Definition Close (w : Writer) : Writer * bool :=
  let '(b, e) := bufFlush (bw w) in
  let '(f, e') := fileClose (wr b) in
  (mkWriter (mkBuf f (pending b) (failed b)) (BytesWritten w) (Records w),
   if e then true else e').

(** ** Package main: the session state *)

(** What [json.Decoder] with [UseNumber] yields for a value: [nil], [bool],
    [json.Number], [string], or a slice or map, which [appendAny] can only
    hand to [json.Marshal]. *)
Inductive jval : Type :=
| JNull
| JBool (b : bool)
| JNumber (s : string)
| JString (s : string)
| JComposite (marshal : option (list byte)).

Definition anyOf (v : jval) : any :=
  match v with
  | JNull => ANil
  | JBool b => ABool b
  | JNumber s => ANumber s
  | JString s => AString s
  | JComposite m => AOther m
  end.

(** [ToInt] on those dynamic types; its [int] and [float64] cases cannot
    be reached from [readOrderedObject]. *)
Definition ToInt (v : jval) : option Z :=
  match v with
  | JNumber s => ParseInt s
  | JString s => ParseInt s
  | _ => None
  end.

(** A segment file name inside the storage directory:
    ["%d_lower.spdb"] and ["%d_%d.spdb"]. *)
Inductive fileName : Type :=
| LowerName (minPK : Z)
| SegName (minPK maxPK : Z).

Definition fileName_eqb (a b : fileName) : bool :=
  match a, b with
  | LowerName x, LowerName y => x =? y
  | SegName x1 x2, SegName y1 y2 => (x1 =? y1) && (x2 =? y2)
  | _, _ => false
  end.

(** The storage directory: the bytes each finished file holds. *)
Definition Dir : Type := list (fileName * list byte).

Definition dirRemove (name : fileName) (d : Dir) : Dir :=
  filter (fun e => negb (fileName_eqb (fst e) name)) d.

Definition dirLookup (name : fileName) (d : Dir) : option (list byte) :=
  match find (fun e => fileName_eqb (fst e) name) d with
  | Some e => Some (snd e)
  | None => None
  end.

(** The file [name] now holds [c] (created or truncated, then written). *)
Definition dirStore (name : fileName) (c : list byte) (d : Dir) : Dir :=
  (name, c) :: dirRemove name d.

(** [os.Rename]: the destination is replaced; the error of a missing
    source is dropped by the caller. *)
Definition renameFile (oldPath newPath : fileName) (d : Dir) : Dir :=
  match dirLookup oldPath d with
  | Some c => (newPath, c) :: dirRemove newPath (dirRemove oldPath d)
  | None => d
  end.

(** The package-level variables of [main.go], and the directory. *)
Record State : Type := mkState {
  tr : BTree;
  currentMapSize : Z;
  minKey : Z;
  maxKey : Z;
  setMinMaxKey : bool;
  dir : Dir
}.

Definition initState : State := mkState (New 32) 0 0 0 false [].

(** [createNewWriter] when [os.OpenFile] succeeds: the file is created
    empty (or truncated) and wrapped in a writer.  [createNewWriterOn]
    below has the error path as well. *)
Definition createNewWriter : Writer := NewWriter (mkFile [] false).

(** ** Package main: the flush *)

Fixpoint iteratorWriter (fuel : nat) (it : Iter) (spw : Writer) (breakAtBytes : Z)
  : res (Z * Iter * Writer) :=
  match fuel with
  | O => OutOfFuel
  | S fuel' =>
      do (r, it') <- Next it;
      match r with
      | None => Ok (0, it', fst (Close spw))
      | Some item =>
          let '(spw1, werr) := WriteItem spw item in
          let spw2 := match werr with
                      | Some _ => fst (Close spw1)
                      | None => spw1
                      end in
          if (breakAtBytes <=? BytesWritten spw2) && negb (breakAtBytes =? 0)
          then Ok (PK item, it', fst (Close spw2))
          else iteratorWriter fuel' it' spw2 breakAtBytes
      end
  end.

Definition resetInMemoryState (st : State) : State :=
  mkState (New 32) 0 0 0 false (dir st).

(** The bytes that reached the file behind a writer. *)
Definition written (w : Writer) : list byte := content (wr (bw w)).

(** [writeMapToFile].  The cursor yields each buffered item once, so one
    more than [Len] calls of [Next] is fuel enough for either loop. *)
Definition writeMapToFile (st : State) (MaxMemorySize : Z) : res State :=
  let HalfMemorySize := MaxMemorySize / 2 in
  let fuel := S (Z.to_nat (Len (tr st))) in
  let lowerFile := LowerName (minKey st) in
  let spw := createNewWriter in
  do it <- IterAscend (tr st);
  do (minSplitMax, it1, spw1) <- iteratorWriter fuel it spw HalfMemorySize;
  let finalLower := SegName (minKey st) minSplitMax in
  let d1 := renameFile lowerFile finalLower (dirStore lowerFile (written spw1) (dir st)) in
  do (r, it2) <- Next it1;
  match r with
  | None => Ok (resetInMemoryState (mkState (tr st) (currentMapSize st)
                  (minKey st) (maxKey st) (setMinMaxKey st) d1))
  | Some item =>
      let maxSplitMin := PK item in
      let upperFile := SegName maxSplitMin (maxKey st) in
      let spw := createNewWriter in
      let '(spw2, werr) := WriteItem spw item in
      let spw3 := match werr with
                  | Some _ => fst (Close spw2)
                  | None => spw2
                  end in
      do (_, _, spw4) <- iteratorWriter fuel it2 spw3 0;
      Ok (resetInMemoryState (mkState (tr st) (currentMapSize st)
            (minKey st) (maxKey st) (setMinMaxKey st)
            (dirStore upperFile (written spw4) d1)))
  end.

(** ** Package main: ingestion *)

(** [tempMap[k] = v] *)
Fixpoint rowSet (k : string) (v : any) (r : Row) : Row :=
  match r with
  | [] => [(k, v)]
  | (k', v') :: r' =>
      if String.eqb k' k then (k, v) :: r' else (k', v') :: rowSet k v r'
  end.

(** One scanned line: its length in bytes and what [readOrderedObject]
    makes of it ([None]: an error, after which the process exits). *)
Record Line : Type := mkLine { lineLen : Z; parsed : option (list (string * jval)) }.

(** The first pair of a record: the primary key and the min/max trackers. *)
Definition trackKey (st : State) (v : jval) : Z * State :=
  let PrimaryKey := match ToInt v with Some i => i | None => 0 end in
  let '(mn, mx) :=
    if setMinMaxKey st then (minKey st, maxKey st) else (PrimaryKey, PrimaryKey) in
  let mn := if PrimaryKey <? mn then PrimaryKey else mn in
  let mx := if mx <? PrimaryKey then PrimaryKey else mx in
  (PrimaryKey, mkState (tr st) (currentMapSize st) mn mx true (dir st)).

(** The [for index, pair := range pairs] loop. *)
Definition readPairs (st : State) (pairs : list (string * jval)) : Z * Row * State :=
  match pairs with
  | [] => (0, [], st)
  | (_, v) :: rest =>
      let '(PrimaryKey, st') := trackKey st v in
      (PrimaryKey,
       fold_left (fun m p => rowSet (fst p) (anyOf (snd p)) m) rest [],
       st')
  end.

(** How a pass ends: at the end of the input, or in [os.Exit(1)]. *)
Inductive pass : Type :=
| Completed (st : State)
| Exited (st : State).

(** One iteration of the [scanner.Scan()] loop. *)
Definition ingestLine (writeToDisk : bool) (MaxMemorySize : Z) (st : State) (ln : Line)
  : res pass :=
  do st1 <-
    (if writeToDisk && (MaxMemorySize <? wrapU64 (lineLen ln + currentMapSize st))
     then writeMapToFile st MaxMemorySize else Ok st);
  match parsed ln with
  | None => Ok (Exited st1)
  | Some pairs =>
      let '(PrimaryKey, tempMap, st2) := readPairs st1 pairs in
      do (tr', _, _) <- Upsert (tr st2) (mkItem PrimaryKey tempMap);
      Ok (Completed
            (mkState tr'
               (if writeToDisk then wrapU64 (currentMapSize st2 + lineLen ln)
                else currentMapSize st2)
               (minKey st2) (maxKey st2) (setMinMaxKey st2) (dir st2)))
  end.

Fixpoint ingestLines (writeToDisk : bool) (MaxMemorySize : Z) (st : State)
  (lines : list Line) : res pass :=
  match lines with
  | [] => Ok (Completed st)
  | ln :: rest =>
      do p <- ingestLine writeToDisk MaxMemorySize st ln;
      match p with
      | Completed st' => ingestLines writeToDisk MaxMemorySize st' rest
      | Exited st' => Ok (Exited st')
      end
  end.

(** [importDataFromFile], on a file of [sizeBytes] bytes that the scanner
    cuts into [lines]. *)
Definition importDataFromFile (st : State) (sizeBytes MaxMemorySize : Z)
  (lines : list Line) : res pass :=
  let writeToDisk := MaxMemorySize <? sizeBytes in
  do p <- ingestLines writeToDisk MaxMemorySize st lines;
  match p with
  | Exited st' => Ok (Exited st')
  | Completed st' =>
      if writeToDisk && (0 <? Len (tr st')) then
        do st'' <- writeMapToFile st' MaxMemorySize; Ok (Completed st'')
      else Ok (Completed st')
  end.

(** ** Package main: when a file cannot be opened *)

(** [createNewWriter] returns [nil] and the error when [os.OpenFile]
    fails; [writeMapToFile] logs the error and goes on with the nil
    writer, and the first [WriteItem] or [Close] on it is a nil-pointer
    panic.  [opens path] tells whether [os.OpenFile] succeeds on [path]. *)
Section Opens.
Variable opens : fileName -> bool.

Definition createNewWriterOn (path : fileName) : option Writer :=
  if opens path then Some createNewWriter else None.

(** [iteratorWriter] on what [createNewWriter] returned: with a nil
    writer the loop calls [Next] and then panics, in [spw.Close()] when
    the cursor is exhausted and in [spw.WriteItem(item)] otherwise. *)
Definition iteratorWriterOn (fuel : nat) (it : Iter) (spw : option Writer)
  (breakAtBytes : Z) : res (Z * Iter * Writer) :=
  match spw with
  | Some w => iteratorWriter fuel it w breakAtBytes
  | None => do _ <- Next it; Panic
  end.

Definition writeMapToFileOn (st : State) (MaxMemorySize : Z) : res State :=
  let HalfMemorySize := MaxMemorySize / 2 in
  let fuel := S (Z.to_nat (Len (tr st))) in
  let lowerFile := LowerName (minKey st) in
  let spw := createNewWriterOn lowerFile in
  do it <- IterAscend (tr st);
  do (minSplitMax, it1, spw1) <- iteratorWriterOn fuel it spw HalfMemorySize;
  let finalLower := SegName (minKey st) minSplitMax in
  let d1 := renameFile lowerFile finalLower (dirStore lowerFile (written spw1) (dir st)) in
  do (r, it2) <- Next it1;
  match r with
  | None => Ok (resetInMemoryState (mkState (tr st) (currentMapSize st)
                  (minKey st) (maxKey st) (setMinMaxKey st) d1))
  | Some item =>
      let maxSplitMin := PK item in
      let upperFile := SegName maxSplitMin (maxKey st) in
      match createNewWriterOn upperFile with
      | None => Panic
      | Some spw =>
          let '(spw2, werr) := WriteItem spw item in
          let spw3 := match werr with
                      | Some _ => fst (Close spw2)
                      | None => spw2
                      end in
          do (_, _, spw4) <- iteratorWriter fuel it2 spw3 0;
          Ok (resetInMemoryState (mkState (tr st) (currentMapSize st)
                (minKey st) (maxKey st) (setMinMaxKey st)
                (dirStore upperFile (written spw4) d1)))
      end
  end.

Definition ingestLineOn (writeToDisk : bool) (MaxMemorySize : Z) (st : State) (ln : Line)
  : res pass :=
  do st1 <-
    (if writeToDisk && (MaxMemorySize <? wrapU64 (lineLen ln + currentMapSize st))
     then writeMapToFileOn st MaxMemorySize else Ok st);
  match parsed ln with
  | None => Ok (Exited st1)
  | Some pairs =>
      let '(PrimaryKey, tempMap, st2) := readPairs st1 pairs in
      do (tr', _, _) <- Upsert (tr st2) (mkItem PrimaryKey tempMap);
      Ok (Completed
            (mkState tr'
               (if writeToDisk then wrapU64 (currentMapSize st2 + lineLen ln)
                else currentMapSize st2)
               (minKey st2) (maxKey st2) (setMinMaxKey st2) (dir st2)))
  end.

Fixpoint ingestLinesOn (writeToDisk : bool) (MaxMemorySize : Z) (st : State)
  (lines : list Line) : res pass :=
  match lines with
  | [] => Ok (Completed st)
  | ln :: rest =>
      do p <- ingestLineOn writeToDisk MaxMemorySize st ln;
      match p with
      | Completed st' => ingestLinesOn writeToDisk MaxMemorySize st' rest
      | Exited st' => Ok (Exited st')
      end
  end.

Definition importDataFromFileOn (st : State) (sizeBytes MaxMemorySize : Z)
  (lines : list Line) : res pass :=
  let writeToDisk := MaxMemorySize <? sizeBytes in
  do p <- ingestLinesOn writeToDisk MaxMemorySize st lines;
  match p with
  | Exited st' => Ok (Exited st')
  | Completed st' =>
      if writeToDisk && (0 <? Len (tr st')) then
        do st'' <- writeMapToFileOn st' MaxMemorySize; Ok (Completed st'')
      else Ok (Completed st')
  end.

End Opens.

(** ** Package structuredDB: storage sizes *)

(** [fracBytes]: the bytes of the fractional seconds of a temporal column. *)
Definition fracBytes (fsp : Z) : Z :=
  if fsp <=? 0 then 0
  else if fsp <=? 2 then 1
  else if fsp <=? 4 then 2
  else 3.

(** The closure [bytesForDigits] of [decimalBytes]; [/] and [%] of Go
    truncate towards zero. *)
Definition bytesForDigits (d : Z) : Z :=
  let full := Z.quot d 9 in
  let rem := Z.rem d 9 in
  let b := wrap64 (full * 4) in
  if rem =? 0 then b
  else if rem <=? 2 then wrap64 (b + 1)
  else if rem <=? 4 then wrap64 (b + 2)
  else if rem <=? 6 then wrap64 (b + 3)
  else wrap64 (b + 4).

Definition decimalBytes (precision scale : Z) : Z :=
  let intDigits := wrap64 (precision - scale) in
  let intDigits := if intDigits <? 0 then 0 else intDigits in
  wrap64 (bytesForDigits intDigits + bytesForDigits scale).

(** [countEnumOrSetMembers], on a column type given as its bytes.
    [strings.ToLower] and [strings.TrimSpace] are taken as they act on
    ASCII text (upper-case letters mapped to lower case; tab, line feed,
    vertical tab, form feed, carriage return and space trimmed), which is
    what Go computes for a string of ASCII bytes; the theorems about the
    function are stated for ASCII column types. *)
Definition toLower (r : ascii) : ascii :=
  let n := nat_of_ascii r in
  if (65 <=? n)%nat && (n <=? 90)%nat then ascii_of_nat (n + 32) else r.

Definition ToLower (s : list ascii) : list ascii := map toLower s.

Definition isTrimSpace (r : ascii) : bool :=
  Ascii.eqb r "009" || Ascii.eqb r "010" || Ascii.eqb r "011"
  || Ascii.eqb r "012" || Ascii.eqb r "013" || Ascii.eqb r " ".

Fixpoint TrimLeft (s : list ascii) : list ascii :=
  match s with
  | [] => []
  | r :: s' => if isTrimSpace r then TrimLeft s' else s
  end.

Definition TrimSpace (s : list ascii) : list ascii :=
  rev (TrimLeft (rev (TrimLeft s))).

Fixpoint stripPrefix (prefix s : list ascii) : option (list ascii) :=
  match prefix, s with
  | [], _ => Some s
  | p :: prefix', r :: s' => if Ascii.eqb p r then stripPrefix prefix' s' else None
  | _ :: _, [] => None
  end.

(** The second group of the regular expression [reEnumSet] on [ct], when
    it matches: [ct] starts with enum or set and an opening parenthesis
    and ends with a closing parenthesis, and the group is what stands
    between the two, which the dot of the expression lets hold no line
    feed. *)
Definition reEnumSet (ct : list ascii) : option (list ascii) :=
  let afterParen :=
    match stripPrefix (list_ascii_of_string "enum(") ct with
    | Some rest => Some rest
    | None => stripPrefix (list_ascii_of_string "set(") ct
    end in
  match afterParen with
  | None => None
  | Some rest =>
      match rev rest with
      | ")"%char :: inside =>
          if existsb (Ascii.eqb "010") inside then None else Some (rev inside)
      | _ => None
      end
  end.

(** The state of the loop over [inside].  The loop ranges over runes and
    only compares them with ASCII characters, which no byte of a longer
    UTF-8 sequence equals, so it is run on the bytes.  [count] stays below
    the length of the text. *)
Record enumScan : Type := mkScan {
  inQuote : bool;
  escape : bool;
  count : Z;
  tokenHasContent : bool
}.

Definition isSpace (r : ascii) : bool :=
  Ascii.eqb r " " || Ascii.eqb r "009" || Ascii.eqb r "013" || Ascii.eqb r "010".

Definition scanRune (s : enumScan) (r : ascii) : enumScan :=
  if escape s then mkScan (inQuote s) false (count s) true
  else if Ascii.eqb r "\" && inQuote s then mkScan (inQuote s) true (count s) true
  else if Ascii.eqb r "'" then mkScan (negb (inQuote s)) (escape s) (count s) true
  else if Ascii.eqb r "," && negb (inQuote s) then
    mkScan (inQuote s) (escape s)
      (if tokenHasContent s then count s + 1 else count s) false
  else if negb (isSpace r) then mkScan (inQuote s) (escape s) (count s) true
  else s.

Definition countMembers (inside : list ascii) : Z :=
  let s := fold_left scanRune inside (mkScan false false 0 false) in
  if tokenHasContent s then count s + 1 else count s.

Definition countEnumOrSetMembers (colType : list ascii) : Z * bool :=
  let ct := ToLower (TrimSpace colType) in
  match reEnumSet ct with
  | None => (0, false)
  | Some inside => (countMembers inside, true)
  end.

(** A Go map with string keys: its entries, each key once.  [mapGet] is
    the lookup that tells a missing key, [mapSet] the assignment
    [m[k] = v]. *)
Definition mapGet {V : Type} (k : string) (m : list (string * V)) : option V :=
  match find (fun e => String.eqb (fst e) k) m with
  | Some e => Some (snd e)
  | None => None
  end.

Fixpoint mapSet {V : Type} (k : string) (v : V) (m : list (string * V))
  : list (string * V) :=
  match m with
  | [] => [(k, v)]
  | (k', v') :: m' =>
      if String.eqb k' k then (k, v) :: m' else (k', v') :: mapSet k v m'
  end.

(** The loop of [GetRowSizeSQL], [for _, sz := range m { total += uint64(sz) }],
    the entries taken in the order [m] lists them. *)
Definition rowSizeBytes (m : list (string * Z)) : Z :=
  fold_left (fun total e => wrapU64 (total + wrapU64 (snd e))) m 0.

(** ** Package main: seek points *)

Record SeekPoints : Type := mkSeekPoints { Start : Z; End : Z }.

(** The loop of [determineSeekPoints] over what [GetRowSizeSQL] returned;
    a column missing from the map has size 0. *)
Fixpoint seekLoop (columnSizeMap : list (string * Z)) (orderSlice : list string)
  (previousEndPoint : Z) (seekMap : list (string * SeekPoints))
  : list (string * SeekPoints) :=
  match orderSlice with
  | [] => seekMap
  | column :: rest =>
      let size := wrapU32 match mapGet column columnSizeMap with
                          | Some sz => sz
                          | None => 0
                          end in
      let seekMap' :=
        mapSet column
          (mkSeekPoints previousEndPoint
             (wrapU32 (wrapU32 (previousEndPoint + size) - 1))) seekMap in
      seekLoop columnSizeMap rest (wrapU32 (previousEndPoint + size)) seekMap'
  end.

Definition determineSeekPoints (columnSizeMap : list (string * Z))
  (orderSlice : list string) : list (string * SeekPoints) :=
  seekLoop columnSizeMap orderSlice 0 [].

(** * Specification vocabulary *)

(** ** The contents of a tree, in order *)

(** [c0 i0 c1 i1 ... ck]: the children's listings with the node's items
    between them. *)
Fixpoint interleave (cs : list (list Item)) (its : list Item) : list Item :=
  match cs with
  | [] => []
  | c :: cs' =>
      c ++ match its with
           | [] => []
           | it :: its' => it :: interleave cs' its'
           end
  end.

(** The in-order listing of a subtree. *)
Fixpoint flat (x : node) : list Item :=
  let (xleaf, xitems, xchildren) := x in
  if xleaf then xitems else interleave (map flat xchildren) xitems.

(** [c0 i0 ... c(j-1) i(j-1)]: what precedes child [j], given the first
    [j] items. *)
Fixpoint pairs (cs : list (list Item)) (its : list Item) : list Item :=
  match cs, its with
  | c :: cs', it :: its' => c ++ it :: pairs cs' its'
  | _, _ => []
  end.

(** [ij c(j+1) ... ck]: what follows child [j]. *)
Definition rightPart (j : nat) (cs : list (list Item)) (its : list Item) : list Item :=
  match skipn j its with
  | [] => []
  | it :: r => it :: interleave (skipn (S j) cs) r
  end.

(** Strictly ascending primary keys. *)
Definition ascending (l : list Item) : Prop := StronglySorted Z.lt (map PK l).

(** ** The shape of a B-tree of minimum degree [t] *)

(** A subtree of height [h]: all leaves [h] levels down, one more child
    than items in an internal node, and every node below the top one
    (and the top one too when [bounded]) holding [t-1] to [2t-1] items. *)
Fixpoint shape (bounded : bool) (t : Z) (h : nat) (x : node) : Prop :=
  let (xleaf, xitems, xchildren) := x in
  (bounded = true -> t - 1 <= len xitems <= 2 * t - 1) /\
  match h with
  | O => xleaf = true /\ xchildren = []
  | S h' =>
      xleaf = false /\
      length xchildren = S (length xitems) /\
      Forall (shape true t h') xchildren
  end.

(** The invariant of a tree built by [New] and [Upsert].  When [2*t-1]
    overflows, no node ever counts as full and the root stays a leaf. *)
Definition Inv (tr : BTree) : Prop :=
  2 <= t tr <= MaxInt64 /\
  ascending (flat (root tr)) /\
  n tr = len (flat (root tr)) /\
  exists h,
    shape false (t tr) h (root tr) /\
    ((wrap64 (2 * t tr - 1) = 2 * t tr - 1 /\ len (items (root tr)) <= 2 * t tr - 1)
     \/ (wrap64 (2 * t tr - 1) < 0 /\ h = O)).

(** ** The nodes of a tree *)

(** Every node strictly below [x]. *)
Fixpoint descendants (x : node) : list node :=
  let (_, _, xchildren) := x in
  flat_map (fun c => c :: descendants c) xchildren.

(** The depth of every leaf under [x], [x] itself being at depth [d]. *)
Fixpoint leafDepths (d : nat) (x : node) : list nat :=
  let (xleaf, _, xchildren) := x in
  if xleaf then [d] else flat_map (leafDepths (S d)) xchildren.

(** ** Cursors *)

(** What a frame still has to emit: the items from [i] on and, in an
    internal node, the children after child [i]. *)
Definition frameRest (f : iterFrame) : list Item :=
  let '(x, i) := f in
  if leaf x then skipn i (items x)
  else rightPart i (map flat (children x)) (items x).

(** What a cursor still has to emit. *)
Definition remaining (st : Iter) : list Item := flat_map frameRest st.

Definition framesOk (t : Z) (st : Iter) : Prop :=
  Forall (fun f => exists b h, shape b t h (fst f)) st.

(** ** Visitors *)

(** Showing the items of [l] to [fn], in order, until it answers [false]. *)
Fixpoint visitUntil {S : Type} (fn : S -> Item -> S * bool) (s : S) (l : list Item) : S :=
  match l with
  | [] => s
  | it :: l' =>
      let '(s1, go) := fn s it in
      if go then visitUntil fn s1 l' else s1
  end.

Definition inRange (lo hi : Z) (it : Item) : bool := (lo <=? PK it) && (PK it <? hi).

(** [it] is what the index holds under its key. *)
Definition stored (tr : BTree) (it : Item) : Prop :=
  Get tr (PK it) = Ok (Some (row it)).

(** ** Segment files *)

(** One record as [WriteItem] lays it out: the length, then the encoding. *)
Definition frameOf (it : Item) : option (list byte) :=
  match encodeItemInto [] it with
  | inl buf => Some (le_bytes 4 (wrapU32 (len buf)) ++ buf)
  | inr _ => None
  end.

(** The bytes of a segment holding the records of [l]. *)
Fixpoint segment (l : list Item) : option (list byte) :=
  match l with
  | [] => Some []
  | it :: l' =>
      match frameOf it, segment l' with
      | Some f, Some r => Some (f ++ r)
      | _, _ => None
      end
  end.

(** ** What an upsert does to the listing *)

(** [l'] is [l] with [it] put at its place: over the item [old] of the
    same key when there is one ([rep]), and otherwise between the smaller
    and the larger keys. *)
Definition upserted (it old : Item) (rep : bool) (l l' : list Item) : Prop :=
  exists l1 l2,
    l' = l1 ++ it :: l2 /\
    if rep then l = l1 ++ old :: l2 /\ PK old = PK it
    else l = l1 ++ l2 /\ old = zeroItem /\
         (forall a, In a l1 -> PK a < PK it) /\
         (forall a, In a l2 -> PK it < PK a).

(** The first item of [l] with key [pk]. *)
Definition findPK (pk : Z) (l : list Item) : option Item :=
  find (fun a => PK a =? pk) l.

(** ** Encoding errors, field by field *)

(** A value [appendAny] rejects: a [uint64] above the [int64] range, or a
    value of no tagged type whose JSON serialization fails. *)
Definition badValue (v : any) : Prop :=
  (exists x, v = AUint64 x /\ MaxInt64 < x) \/ v = AOther None.

(** A field [encodeItemInto] rejects. *)
Definition badField (f : string * any) : Prop :=
  255 < slen (fst f) \/ badValue (snd f).

(** ** The flush, without write errors *)

Definition encodable (it : Item) : bool :=
  match frameOf it with
  | Some _ => true
  | None => false
  end.

(** What one record adds to [BytesWritten]. *)
Definition recBytes (it : Item) : Z :=
  match encodeItemInto [] it with
  | inl buf => wrapU64 (4 + len buf)
  | inr _ => 0
  end.

(** The bytes of the records of [l], those that encode. *)
Fixpoint segmentBytes (l : list Item) : list byte :=
  match l with
  | [] => []
  | it :: l' =>
      match frameOf it with
      | Some f => f ++ segmentBytes l'
      | None => segmentBytes l'
      end
  end.

(** Where [iteratorWriter] stops in the listing [l], its writer having
    counted [written] bytes so far: the items it writes, the items it
    leaves in the cursor, and the key it returns. *)
Fixpoint cut (breakAtBytes written : Z) (l : list Item) : list Item * list Item * Z :=
  match l with
  | [] => ([], [], 0)
  | it :: l' =>
      let written' := wrapU64 (written + recBytes it) in
      if (breakAtBytes <=? written') && negb (breakAtBytes =? 0)
      then ([it], l', PK it)
      else let '(lo, up, ret) := cut breakAtBytes written' l' in (it :: lo, up, ret)
  end.

(** A writer that has met no error: its file is open and its buffer sound. *)
Definition sound (w : Writer) : Prop :=
  closed (wr (bw w)) = false /\ failed (bw w) = false.

(** The bytes a sound writer has accepted, flushed or not. *)
Definition accepted (w : Writer) : list byte :=
  content (wr (bw w)) ++ pending (bw w).

(** ** The min/max trackers *)

(** The key of the record a line adds to the Index. *)
Definition lineKey (ln : Line) : list Z :=
  match parsed ln with
  | Some ((_, v) :: _) => [match ToInt v with Some i => i | None => 0 end]
  | Some [] => [0]
  | None => []
  end.

(** The trackers hold the least and the greatest of [keys], and are unset
    (flag down, both zero) when there is none. *)
Definition trackersReflect (st : State) (keys : list Z) : Prop :=
  match keys with
  | [] => setMinMaxKey st = false /\ minKey st = 0 /\ maxKey st = 0
  | k :: ks =>
      setMinMaxKey st = true /\
      minKey st = fold_left Z.min ks k /\
      maxKey st = fold_left Z.max ks k
  end.

(** The keys read since the last flush, after [lines]: [keys] are those
    read since the last flush before [lines], [size] the value of
    [currentMapSize]. *)
Fixpoint batchKeys (writeToDisk : bool) (MaxMemorySize size : Z) (keys : list Z)
  (lines : list Line) : list Z :=
  match lines with
  | [] => keys
  | ln :: rest =>
      let flush := writeToDisk && (MaxMemorySize <? wrapU64 (lineLen ln + size)) in
      let size1 := if flush then 0 else size in
      let keys1 := if flush then [] else keys in
      batchKeys writeToDisk MaxMemorySize
        (if writeToDisk then wrapU64 (size1 + lineLen ln) else size1)
        (keys1 ++ lineKey ln) rest
  end.

(** Every key of the pass, flushed or not. *)
Definition passKeys (lines : list Line) : list Z := flat_map lineKey lines.

(** ** The index as a map *)

(** The row of the last item of [its] with key [k]. *)
Fixpoint lastRow (k : Z) (its : list Item) : option Row :=
  match its with
  | [] => None
  | it :: rest =>
      match lastRow k rest with
      | Some r => Some r
      | None => if PK it =? k then Some (row it) else None
      end
  end.

(** Every item held in the subtree of [x], node by node. *)
Fixpoint subtreeItems (x : node) : list Item :=
  let (_, xitems, xchildren) := x in
  xitems ++ flat_map subtreeItems xchildren.

(** An internal root holds at least one item. *)
Definition rootHasItem (tr : BTree) : Prop :=
  leaf (root tr) = false -> 1 <= len (items (root tr)).

(** A record below 4 GiB: its length fits the [u32] prefix. *)
Definition smallRecord (it : Item) : bool :=
  match encodeItemInto [] it with
  | inl buf => len buf <? 2 ^ 32
  | inr _ => false
  end.

(** ** Lines and rows *)

(** A line that [readOrderedObject] accepts. *)
Definition parses (ln : Line) : bool :=
  match parsed ln with
  | Some _ => true
  | None => false
  end.

(** A line that is not the empty object: it parses to at least one pair,
    or does not parse at all. *)
Definition keyed (ln : Line) : bool :=
  match parsed ln with
  | Some [] => false
  | _ => true
  end.

(** The state a pass ends in. *)
Definition passState (p : pass) : State :=
  match p with
  | Completed st => st
  | Exited st => st
  end.

(** The value a row holds under the name [k]. *)
Definition rowGet (k : string) (r : Row) : option any :=
  match find (fun e => String.eqb (fst e) k) r with
  | Some e => Some (snd e)
  | None => None
  end.

(** The value of the last pair of [pairs] named [k]. *)
Fixpoint lastVal (k : string) (pairs : list (string * jval)) : option jval :=
  match pairs with
  | [] => None
  | (k', v) :: rest =>
      match lastVal k rest with
      | Some v' => Some v'
      | None => if String.eqb k' k then Some v else None
      end
  end.

(** The trackers reflect exactly the keys the Index holds. *)
Definition tracked (st : State) : Prop :=
  Inv (tr st) /\
  exists keys, trackersReflect st keys /\
    forall k, In k keys <-> exists r, Get (tr st) k = Ok (Some r).

(** ** Column sizes *)

(** The bytes of the last, incomplete group of [r] decimal digits. *)
Definition tailBytes (r : Z) : Z :=
  if r =? 0 then 0
  else if r <=? 2 then 1
  else if r <=? 4 then 2
  else if r <=? 6 then 3
  else 4.

(** The size the map gives a column, 0 for a column it does not list. *)
Definition colSize (m : list (string * Z)) (c : string) : Z :=
  match mapGet c m with
  | Some sz => sz
  | None => 0
  end.

(** The bytes the columns of [l] take together. *)
Definition sumSizes (m : list (string * Z)) (l : list string) : Z :=
  fold_right (fun c a => colSize m c + a) 0 l.

(** ** Enum and set members *)

(** A member as MySQL lists it: between single quotes. *)
Definition quoted (m : list ascii) : list ascii := "'"%char :: m ++ ["'"%char].

(** The members of a column type, separated by commas. *)
Fixpoint memberList (ms : list (list ascii)) : list ascii :=
  match ms with
  | [] => []
  | [m] => quoted m
  | m :: rest => quoted m ++ ","%char :: memberList rest
  end.

(** A member's text: ASCII, with no quote, backslash or line feed in it. *)
Definition plainChar (r : ascii) : bool :=
  negb (Ascii.eqb r "'") && negb (Ascii.eqb r "\") && negb (Ascii.eqb r "010")
  && (nat_of_ascii r <? 128)%nat.

Definition plain (m : list ascii) : bool := forallb plainChar m.

(** ** Reading a segment back *)

(** The number a little-endian field holds. *)
Fixpoint le_value (bs : list byte) : Z :=
  match bs with
  | [] => 0
  | b :: bs' => Z.of_N (Byte.to_N b) + 256 * le_value bs'
  end.

(** The records of a segment file as a reader finds them: a [u32] length,
    then that many bytes, again and again to the end of the file. *)
Fixpoint readRecords (fuel : nat) (bs : list byte) : option (list (list byte)) :=
  match fuel with
  | O => None
  | S fuel' =>
      match bs with
      | [] => Some []
      | _ :: _ =>
          let n := Z.to_nat (le_value (firstn 4 bs)) in
          let rest := skipn 4 bs in
          if (length bs <? 4)%nat || (length rest <? n)%nat then None
          else match readRecords fuel' (skipn n rest) with
               | Some rs => Some (firstn n rest :: rs)
               | None => None
               end
      end
  end.

(** The key field of a record: its first four bytes. *)
Definition keyField (record : list byte) : Z := le_value (firstn 4 record).

(** The key fields of the records a file holds, in the order of the file. *)
Definition diskKeys (bs : list byte) : option (list Z) :=
  option_map (map keyField) (readRecords (S (length bs)) bs).

(** The record of an item, empty when it does not encode. *)
Definition recordOf (it : Item) : list byte :=
  match encodeItemInto [] it with
  | inl buf => buf
  | inr _ => []
  end.

(** A key that fits the [u32] key field. *)
Definition inU32 (it : Item) : bool := (0 <=? PK it) && (PK it <? 2 ^ 32).

(** * Proofs *)

(** ** Slices *)

Section ListFacts.
Context {A : Type}.
Implicit Types (l : list A) (i j : nat) (a : A).

Lemma set_at_cons_S l i a b : set_at (S i) a (b :: l) = b :: set_at i a l.
Proof. reflexivity. Qed.

Lemma insert_at_cons_S l i a b : insert_at (S i) a (b :: l) = b :: insert_at i a l.
Proof. reflexivity. Qed.

Lemma nth_error_lt l i a : nth_error l i = Some a -> (i < length l)%nat.
Proof. intros H. apply nth_error_Some. congruence. Qed.

Lemma nth_error_split l i a :
  nth_error l i = Some a -> l = firstn i l ++ a :: skipn (S i) l.
Proof.
  revert i; induction l as [|b l IH]; intros [|i] H; simpl in *; try discriminate.
  - now inversion H.
  - f_equal. now apply IH.
Qed.

Lemma skipn_nth_error l i a :
  nth_error l i = Some a -> skipn i l = a :: skipn (S i) l.
Proof.
  revert i; induction l as [|b l IH]; intros [|i] H; simpl in *; try discriminate.
  - now inversion H.
  - now apply IH.
Qed.

Lemma skipn_nth_error_none l i : nth_error l i = None -> skipn i l = [].
Proof. intros H. apply skipn_all2. now apply nth_error_None. Qed.

Lemma length_set_at l i a : (i < length l)%nat -> length (set_at i a l) = length l.
Proof.
  revert i; induction l as [|b l IH]; intros [|i] H; simpl in H; try lia.
  - reflexivity.
  - rewrite set_at_cons_S. simpl. rewrite IH; lia.
Qed.

Lemma length_insert_at l i a :
  (i <= length l)%nat -> length (insert_at i a l) = S (length l).
Proof.
  revert i; induction l as [|b l IH]; intros [|i] H; simpl in H; try lia; try reflexivity.
  rewrite insert_at_cons_S. simpl. rewrite IH; lia.
Qed.

Lemma nth_error_set_at_eq l i a :
  (i < length l)%nat -> nth_error (set_at i a l) i = Some a.
Proof.
  revert i; induction l as [|b l IH]; intros [|i] H; simpl in H; try lia.
  - reflexivity.
  - rewrite set_at_cons_S. simpl. apply IH; lia.
Qed.

Lemma nth_error_set_at_ne l i j a :
  j <> i -> (i < length l)%nat -> nth_error (set_at i a l) j = nth_error l j.
Proof.
  revert i j; induction l as [|b l IH]; intros i j Hne H; simpl in H; [lia|].
  destruct i as [|i]; destruct j as [|j]; try reflexivity; try lia.
  rewrite set_at_cons_S. simpl. apply IH; lia.
Qed.

Lemma firstn_set_at l i a :
  (i <= length l)%nat -> firstn i (set_at i a l) = firstn i l.
Proof.
  revert i; induction l as [|b l IH]; intros [|i] H; simpl in H;
    try reflexivity; try lia.
  rewrite set_at_cons_S. simpl. rewrite IH; [reflexivity|lia].
Qed.

Lemma skipn_set_at l i a : skipn (S i) (set_at i a l) = skipn (S i) l.
Proof.
  revert i; induction l as [|b l IH]; intros [|i]; try reflexivity.
  rewrite set_at_cons_S. change (skipn (S i) (set_at i a l) = skipn (S i) l).
  apply IH.
Qed.

Lemma nth_error_insert_at_eq l i a :
  (i <= length l)%nat -> nth_error (insert_at i a l) i = Some a.
Proof.
  revert i; induction l as [|b l IH]; intros [|i] H; simpl in H; try lia;
    try reflexivity.
  rewrite insert_at_cons_S. simpl. apply IH; lia.
Qed.

Lemma nth_error_insert_at_lt l i j a :
  (j < i)%nat -> (i <= length l)%nat ->
  nth_error (insert_at i a l) j = nth_error l j.
Proof.
  revert i j; induction l as [|b l IH]; intros i j Hlt H; simpl in H.
  - lia.
  - destruct i as [|i]; [lia|]. destruct j as [|j]; [reflexivity|].
    rewrite insert_at_cons_S. simpl. apply IH; lia.
Qed.

Lemma nth_error_insert_at_gt l i j a :
  (i <= j)%nat -> nth_error (insert_at i a l) (S j) = nth_error l j.
Proof.
  revert i j; induction l as [|b l IH]; intros i j Hle.
  - destruct i; destruct j; reflexivity.
  - destruct i as [|i]; [reflexivity|]. destruct j as [|j]; [lia|].
    rewrite insert_at_cons_S. simpl. apply IH; lia.
Qed.

Lemma firstn_insert_at l i a :
  (i <= length l)%nat -> firstn i (insert_at i a l) = firstn i l.
Proof.
  revert i; induction l as [|b l IH]; intros [|i] H; simpl in H;
    try reflexivity; try lia.
  rewrite insert_at_cons_S. simpl. rewrite IH; [reflexivity|lia].
Qed.

Lemma skipn_insert_at l i a :
  (i <= length l)%nat -> skipn i (insert_at i a l) = a :: skipn i l.
Proof.
  revert i; induction l as [|b l IH]; intros [|i] H; simpl in H;
    try reflexivity; try lia.
  rewrite insert_at_cons_S. simpl. rewrite IH; [reflexivity|lia].
Qed.

Lemma Forall_take (P : A -> Prop) l i : Forall P l -> Forall P (firstn i l).
Proof.
  intros H. rewrite <- (firstn_skipn i l) in H.
  apply Forall_app in H. tauto.
Qed.

Lemma Forall_drop (P : A -> Prop) l i : Forall P l -> Forall P (skipn i l).
Proof.
  intros H. rewrite <- (firstn_skipn i l) in H.
  apply Forall_app in H. tauto.
Qed.

Lemma Forall_set_at (P : A -> Prop) l i a :
  Forall P l -> P a -> Forall P (set_at i a l).
Proof.
  intros Hl Ha. unfold set_at. apply Forall_app; split.
  - now apply Forall_take.
  - constructor; [assumption|]. now apply Forall_drop.
Qed.

Lemma Forall_insert_at (P : A -> Prop) l i a :
  Forall P l -> P a -> Forall P (insert_at i a l).
Proof.
  intros Hl Ha. unfold insert_at. apply Forall_app; split.
  - now apply Forall_take.
  - constructor; [assumption|]. now apply Forall_drop.
Qed.

Lemma Forall_nth_error (P : A -> Prop) l i a :
  Forall P l -> nth_error l i = Some a -> P a.
Proof.
  intros Hl H. rewrite Forall_forall in Hl. apply Hl.
  eapply nth_error_In; eassumption.
Qed.

End ListFacts.

Lemma map_set_at {A B : Type} (f : A -> B) (l : list A) (i : nat) (a : A) :
  map f (set_at i a l) = set_at i (f a) (map f l).
Proof.
  unfold set_at. now rewrite map_app, firstn_map, skipn_map.
Qed.

Lemma map_insert_at {A B : Type} (f : A -> B) (l : list A) (i : nat) (a : A) :
  map f (insert_at i a l) = insert_at i (f a) (map f l).
Proof.
  unfold insert_at. now rewrite map_app, firstn_map, skipn_map.
Qed.

(** ** Binary search *)

Lemma search_loop_threshold (f : nat -> bool) (n k : nat) :
  (forall j, (j < k)%nat -> f j = false) ->
  (forall j, (k <= j < n)%nat -> f j = true) ->
  forall fuel i j,
    (i <= k <= j)%nat -> (j <= n)%nat -> (j - i <= fuel)%nat ->
    search_loop fuel i j f = k.
Proof.
  intros Hlo Hhi. induction fuel as [|fuel IH]; intros i j Hk Hj Hf; cbn [search_loop].
  - lia.
  - destruct (Nat.ltb_spec i j) as [Hij|Hij]; [|lia].
    assert (Hh : (i <= (i + j) / 2 < j)%nat).
    { split.
      - apply Nat.div_le_lower_bound; lia.
      - apply Nat.Div0.div_lt_upper_bound; lia. }
    destruct (f ((i + j) / 2)%nat) eqn:Hfh.
    + apply IH; try lia.
      destruct (Nat.le_gt_cases k ((i + j) / 2)) as [?|Hgt]; [lia|].
      rewrite Hlo in Hfh by exact Hgt. discriminate.
    + apply IH; try lia.
      destruct (Nat.le_gt_cases k ((i + j) / 2)) as [Hle|?]; [|lia].
      rewrite Hhi in Hfh by lia. discriminate.
Qed.

Lemma Search_threshold (f : nat -> bool) (n k : nat) :
  (k <= n)%nat ->
  (forall j, (j < k)%nat -> f j = false) ->
  (forall j, (k <= j < n)%nat -> f j = true) ->
  Search n f = k.
Proof.
  intros Hk Hlo Hhi. unfold Search.
  apply (search_loop_threshold f n k Hlo Hhi); lia.
Qed.

(** ** Ascending lists *)

Lemma ascending_app l1 l2 :
  ascending (l1 ++ l2) <->
  ascending l1 /\ ascending l2 /\
  (forall a b, In a l1 -> In b l2 -> PK a < PK b).
Proof.
  unfold ascending. induction l1 as [|x l1 IH]; simpl.
  - split.
    + intros H. repeat split; [constructor|assumption|intros a b []].
    + intros (_ & H & _). exact H.
  - split.
    + intros H. inversion H as [|? ? Hs Hf]; subst.
      apply IH in Hs. destruct Hs as (H1 & H2 & H3).
      rewrite map_app, Forall_app in Hf. destruct Hf as [Hf1 Hf2].
      repeat split.
      * constructor; assumption.
      * assumption.
      * intros a b [<-|Ha] Hb.
        -- rewrite Forall_forall in Hf2. apply Hf2. now apply in_map.
        -- now apply H3.
    + intros (H1 & H2 & H3). inversion H1 as [|? ? Hs Hf]; subst.
      constructor.
      * apply IH. repeat split; try assumption.
        intros a b Ha Hb. apply H3; [now right|assumption].
      * rewrite map_app, Forall_app. split; [assumption|].
        rewrite Forall_forall. intros z Hz.
        apply in_map_iff in Hz. destruct Hz as (b & <- & Hb).
        apply H3; [now left|assumption].
Qed.

Lemma ascending_cons x l :
  ascending (x :: l) <-> ascending l /\ (forall b, In b l -> PK x < PK b).
Proof.
  change (x :: l) with ([x] ++ l). rewrite ascending_app. split.
  - intros (_ & H & H3). split; [assumption|]. intros b Hb. apply H3; [now left|assumption].
  - intros (H & H3). repeat split.
    + unfold ascending. simpl. repeat constructor.
    + assumption.
    + intros a b [<-|[]] Hb. now apply H3.
Qed.

Lemma ascending_nth l i j a b :
  ascending l -> (i < j)%nat ->
  nth_error l i = Some a -> nth_error l j = Some b -> PK a < PK b.
Proof.
  revert i j; induction l as [|x l IH]; intros i j Hs Hij Ha Hb.
  - destruct i; discriminate.
  - apply ascending_cons in Hs. destruct Hs as [Hs Hx].
    destruct j as [|j]; [lia|]. simpl in Hb.
    destruct i as [|i]; simpl in Ha.
    + inversion Ha; subst. apply Hx. eapply nth_error_In; eassumption.
    + apply (IH i j); [assumption|lia|assumption|assumption].
Qed.

(** On ascending items the search finds where the key belongs. *)
Lemma searchPK_spec its pk :
  ascending its ->
  let i := searchPK its pk in
  (i <= length its)%nat /\
  (forall j m, (j < i)%nat -> nth_error its j = Some m -> PK m < pk) /\
  (forall j m, (i <= j)%nat -> nth_error its j = Some m -> pk <= PK m).
Proof.
  intros Hs.
  assert (Hex : exists k, (k <= length its)%nat /\
            (forall j m, (j < k)%nat -> nth_error its j = Some m -> PK m < pk) /\
            (forall j m, (k <= j)%nat -> nth_error its j = Some m -> pk <= PK m)).
  { clear -Hs. induction its as [|x its IH].
    - exists O. repeat split; [simpl; lia| |]; intros [|j] m ? H; discriminate.
    - apply ascending_cons in Hs. destruct Hs as [Hs Hx].
      destruct (Z_lt_le_dec (PK x) pk) as [Hlt|Hge].
      + destruct (IH Hs) as (k & Hk & Hlo & Hhi).
        exists (S k). repeat split; [simpl; lia| |].
        * intros [|j] m Hj H; simpl in H.
          -- now inversion H; subst.
          -- eapply Hlo; [|eassumption]. lia.
        * intros [|j] m Hj H; [lia|]. simpl in H.
          eapply Hhi; [|eassumption]. lia.
      + exists O. repeat split; [simpl; lia| |].
        * intros j m Hj; lia.
        * intros [|j] m _ H; simpl in H.
          -- inversion H; subst. lia.
          -- apply nth_error_In in H. apply Hx in H. lia. }
  destruct Hex as (k & Hk & Hlo & Hhi).
  assert (E : searchPK its pk = k).
  { unfold searchPK. apply Search_threshold; [assumption| |].
    - intros j Hj.
      destruct (nth_error its j) as [m|] eqn:Hm.
      + rewrite (nth_error_nth its j zeroItem Hm).
        apply Z.leb_gt. eapply Hlo; eassumption.
      + apply nth_error_None in Hm. lia.
    - intros j Hj.
      destruct (nth_error its j) as [m|] eqn:Hm.
      + rewrite (nth_error_nth its j zeroItem Hm).
        apply Z.leb_le. eapply Hhi; [|eassumption]. lia.
      + apply nth_error_None in Hm. lia. }
  simpl. rewrite E. auto.
Qed.

(** ** In-order listings *)

Lemma pairs_nil_r cs : pairs cs [] = [].
Proof. now destruct cs. Qed.

Lemma interleave_app A B I1 I2 :
  length A = length I1 ->
  interleave (A ++ B) (I1 ++ I2) = pairs A I1 ++ interleave B I2.
Proof.
  revert I1; induction A as [|c A IH]; intros [|it I1] H; simpl in H;
    try discriminate.
  - reflexivity.
  - simpl. rewrite IH by lia. now rewrite <- app_assoc.
Qed.

Lemma pairs_snoc A I1 c m :
  length A = length I1 ->
  pairs (A ++ [c]) (I1 ++ [m]) = pairs A I1 ++ c ++ [m].
Proof.
  revert I1; induction A as [|c0 A IH]; intros [|it I1] H; simpl in H;
    try discriminate.
  - reflexivity.
  - simpl. rewrite IH by lia. now rewrite <- app_assoc.
Qed.

Lemma interleave_snoc A I1 c :
  length A = length I1 ->
  interleave (A ++ [c]) I1 = pairs A I1 ++ c.
Proof.
  intros H. rewrite <- (app_nil_r I1) at 1.
  rewrite interleave_app by assumption. simpl. now rewrite app_nil_r.
Qed.

(** The listing of an internal node around child [j]. *)
Lemma interleave_at cs its j c :
  nth_error cs j = Some c -> (j <= length its)%nat ->
  interleave cs its =
  pairs (firstn j cs) (firstn j its) ++ c ++ rightPart j cs its.
Proof.
  intros Hc Hj.
  rewrite (nth_error_split cs j c Hc) at 1.
  rewrite <- (firstn_skipn j its) at 1.
  rewrite interleave_app.
  - reflexivity.
  - rewrite !length_firstn. apply nth_error_lt in Hc. lia.
Qed.

(** The listing of an internal node around item [k]. *)
Lemma interleave_cut cs its k m :
  nth_error its k = Some m -> (k < length cs)%nat ->
  interleave cs its =
  interleave (firstn (S k) cs) (firstn k its)
    ++ m :: interleave (skipn (S k) cs) (skipn (S k) its).
Proof.
  intros Hm Hk.
  destruct (nth_error cs k) as [c|] eqn:Hc;
    [|apply nth_error_None in Hc; lia].
  rewrite (interleave_at cs its k c Hc).
  2:{ apply nth_error_lt in Hm. lia. }
  unfold rightPart. rewrite (skipn_nth_error its k m Hm).
  replace (firstn (S k) cs) with (firstn k cs ++ [c]).
  - rewrite interleave_snoc.
    + now rewrite <- app_assoc.
    + rewrite !length_firstn. apply nth_error_lt in Hm. lia.
  - rewrite (nth_error_split cs k c Hc) at 2.
    rewrite firstn_app, length_firstn.
    apply nth_error_lt in Hc.
    replace (S k - Nat.min k (length cs))%nat with 1%nat by lia.
    rewrite firstn_firstn. replace (Nat.min (S k) k) with k by lia.
    reflexivity.
Qed.

Lemma In_interleave_item cs its a :
  (length its < length cs)%nat -> In a its -> In a (interleave cs its).
Proof.
  revert its; induction cs as [|c cs IH]; intros [|it its] H Ha; simpl in *;
    try lia; try contradiction.
  apply in_or_app. right. destruct Ha as [->|Ha]; [now left|].
  right. apply IH; [lia|assumption].
Qed.

Lemma In_interleave_child cs its c a :
  (length cs <= S (length its))%nat ->
  In c cs -> In a c -> In a (interleave cs its).
Proof.
  revert its; induction cs as [|c0 cs IH]; intros its H Hc Ha; simpl in *;
    [contradiction|].
  apply in_or_app. destruct Hc as [->|Hc]; [now left|]. right.
  destruct its as [|it its]; simpl in H.
  - destruct cs; simpl in *; [contradiction|lia].
  - right. apply IH; [lia|assumption|assumption].
Qed.

Lemma ascending_interleave_items cs its :
  (length its < length cs)%nat ->
  ascending (interleave cs its) -> ascending its.
Proof.
  revert its; induction cs as [|c cs IH]; intros [|it its] H Hs; simpl in *;
    try lia; try (unfold ascending; simpl; constructor; fail).
  apply ascending_app in Hs. destruct Hs as (_ & Hs & _).
  apply ascending_cons in Hs. destruct Hs as [Hs Hit].
  apply ascending_cons. split.
  - apply IH; [lia|assumption].
  - intros b Hb. apply Hit. apply In_interleave_item; [lia|assumption].
Qed.

Lemma ascending_interleave_child cs its c :
  (length cs <= S (length its))%nat ->
  In c cs -> ascending (interleave cs its) -> ascending c.
Proof.
  revert its; induction cs as [|c0 cs IH]; intros its H Hc Hs; simpl in *;
    [contradiction|].
  apply ascending_app in Hs. destruct Hs as (H0 & Hs & _).
  destruct Hc as [->|Hc]; [assumption|].
  destruct its as [|it its]; simpl in H.
  - destruct cs; simpl in *; [contradiction|lia].
  - apply ascending_cons in Hs. destruct Hs as [Hs _].
    apply (IH its); [lia|assumption|assumption].
Qed.

Lemma skipn_cons_nth {A : Type} (l : list A) (j : nat) (a : A) (r : list A) :
  skipn j l = a :: r -> nth_error l j = Some a.
Proof.
  revert j; induction l as [|b l IH]; intros [|j] H; simpl in *;
    try discriminate.
  - now inversion H.
  - now apply IH.
Qed.

Lemma In_firstn_nth {A : Type} (l : list A) (j : nat) (a : A) :
  In a (firstn j l) -> exists k, (k < j)%nat /\ nth_error l k = Some a.
Proof.
  revert j; induction l as [|b l IH]; intros [|j] H; simpl in *;
    try contradiction.
  destruct H as [->|H].
  - exists O. split; [lia|reflexivity].
  - destruct (IH j H) as (k & Hk & Hn). exists (S k). split; [lia|assumption].
Qed.

Lemma In_skipn_nth {A : Type} (l : list A) (j : nat) (a : A) :
  In a (skipn j l) -> exists k, (j <= k)%nat /\ nth_error l k = Some a.
Proof.
  revert j; induction l as [|b l IH]; intros [|j] H;
    try (simpl in H; contradiction).
  - apply In_nth_error in H. destruct H as (k & Hk). exists k. split; [lia|assumption].
  - simpl in H. destruct (IH j H) as (k & Hk & Hn). exists (S k). split; [lia|assumption].
Qed.

(** Everything listed before child [j] is below a key that the items
    before [j] are below. *)
Lemma left_bound cs its j pk :
  (j <= length its)%nat -> (j <= length cs)%nat ->
  ascending (pairs (firstn j cs) (firstn j its)) ->
  (forall k m, (k < j)%nat -> nth_error its k = Some m -> PK m < pk) ->
  forall a, In a (pairs (firstn j cs) (firstn j its)) -> PK a < pk.
Proof.
  intros Hi Hc Hs Hlo a Ha.
  destruct j as [|j]; [simpl in Ha; contradiction|].
  destruct (nth_error its j) as [m|] eqn:Hm;
    [|apply nth_error_None in Hm; lia].
  destruct (nth_error cs j) as [c|] eqn:Hcj;
    [|apply nth_error_None in Hcj; lia].
  assert (E : pairs (firstn (S j) cs) (firstn (S j) its)
              = pairs (firstn j cs) (firstn j its) ++ c ++ [m]).
  { rewrite <- pairs_snoc by (rewrite !length_firstn; lia).
    f_equal.
    - rewrite (nth_error_split cs j c Hcj) at 1.
      rewrite firstn_app, length_firstn.
      replace (S j - Nat.min j (length cs))%nat with 1%nat by lia.
      rewrite firstn_firstn. replace (Nat.min (S j) j) with j by lia. reflexivity.
    - rewrite (nth_error_split its j m Hm) at 1.
      rewrite firstn_app, length_firstn.
      replace (S j - Nat.min j (length its))%nat with 1%nat by lia.
      rewrite firstn_firstn. replace (Nat.min (S j) j) with j by lia. reflexivity. }
  rewrite E in Hs, Ha. rewrite app_assoc in Hs, Ha.
  apply ascending_app in Hs. destruct Hs as (_ & _ & Hlt).
  assert (Hmpk : PK m < pk) by (apply (Hlo j); [lia|assumption]).
  apply in_app_or in Ha. destruct Ha as [Ha|[<-|[]]]; [|assumption].
  specialize (Hlt a m Ha (or_introl eq_refl)). lia.
Qed.

Lemma right_bound cs its j pk :
  ascending (rightPart j cs its) ->
  (forall k m, (j <= k)%nat -> nth_error its k = Some m -> pk < PK m) ->
  forall a, In a (rightPart j cs its) -> pk < PK a.
Proof.
  unfold rightPart. intros Hs Hhi a Ha.
  destruct (skipn j its) as [|m r] eqn:E; [contradiction|].
  apply skipn_cons_nth in E.
  assert (Hm : pk < PK m) by (apply (Hhi j); [lia|assumption]).
  apply ascending_cons in Hs. destruct Hs as [_ Hlt].
  destruct Ha as [<-|Ha]; [assumption|].
  specialize (Hlt a Ha). lia.
Qed.

(** ** Listings before and after an upsert *)

Lemma upserted_frame it old rep M M' L R :
  upserted it old rep M M' ->
  (forall a, In a L -> PK a < PK it) ->
  (forall a, In a R -> PK it < PK a) ->
  upserted it old rep (L ++ M ++ R) (L ++ M' ++ R).
Proof.
  intros (l1 & l2 & E' & H) HL HR.
  exists (L ++ l1), (l2 ++ R). split.
  - rewrite E'. now rewrite <- !app_assoc.
  - destruct rep.
    + destruct H as [E Hpk]. split; [|assumption].
      rewrite E. now rewrite <- !app_assoc.
    + destruct H as (E & Hz & H1 & H2). repeat split.
      * rewrite E. now rewrite <- !app_assoc.
      * assumption.
      * intros a Ha. apply in_app_or in Ha. destruct Ha; auto.
      * intros a Ha. apply in_app_or in Ha. destruct Ha; auto.
Qed.

Lemma upserted_ascending it old rep l l' :
  upserted it old rep l l' -> ascending l -> ascending l'.
Proof.
  intros (l1 & l2 & -> & H) Hs. destruct rep.
  - destruct H as [-> Hpk]. unfold ascending in *.
    rewrite map_app in *. simpl in *. now rewrite <- Hpk.
  - destruct H as (-> & _ & H1 & H2).
    apply ascending_app in Hs. destruct Hs as (Hs1 & Hs2 & H12).
    apply ascending_app. repeat split.
    + assumption.
    + apply ascending_cons. split; assumption.
    + intros a b Ha [<-|Hb]; [now apply H1|now apply H12].
Qed.

Lemma upserted_length it old rep l l' :
  upserted it old rep l l' ->
  len l' = len l + (if rep then 0 else 1).
Proof.
  intros (l1 & l2 & -> & H). unfold len. destruct rep.
  - destruct H as [-> _]. rewrite !length_app. simpl. lia.
  - destruct H as (-> & _). rewrite !length_app. simpl. lia.
Qed.

(** ** Shapes *)

Lemma shape_weaken b t h x : shape b t h x -> shape false t h x.
Proof.
  destruct x as [l its cs]. destruct h; simpl; intros [_ H];
    (split; [discriminate|exact H]).
Qed.

Lemma shape_bound t h x :
  shape false t h x -> t - 1 <= len (items x) <= 2 * t - 1 -> shape true t h x.
Proof.
  destruct x as [l its cs]. destruct h; simpl; intros [_ H] Hb;
    (split; [intros _; exact Hb|exact H]).
Qed.

Lemma shape_items b t h x :
  shape b t h x -> b = true -> t - 1 <= len (items x) <= 2 * t - 1.
Proof. destruct x as [l its cs]. destruct h; simpl; intros [H _]; exact H. Qed.

(** ** Splitting a full child *)

Lemma split_lists {A : Type} (cs : list A) (i : nat) (y y' z : A) :
  nth_error cs i = Some y ->
  insert_at (S i) z (set_at i y' cs) = firstn i cs ++ y' :: z :: skipn (S i) cs.
Proof.
  revert i; induction cs as [|c cs IH]; intros [|i] Hy; simpl in Hy;
    try discriminate.
  - reflexivity.
  - rewrite set_at_cons_S, insert_at_cons_S, (IH i Hy). reflexivity.
Qed.

Lemma flat_after_split its cs i y y' m z :
  (i <= length its)%nat -> nth_error cs i = Some y ->
  flat y = flat y' ++ m :: flat z ->
  flat (Node false (insert_at i m its) (insert_at (S i) z (set_at i y' cs)))
  = flat (Node false its cs).
Proof.
  intros Hi Hy E. pose proof (nth_error_lt _ _ _ Hy) as Hc.
  rewrite (split_lists cs i y y' z Hy). unfold insert_at.
  pose proof (nth_error_split cs i y Hy) as Ecs.
  pose proof (eq_sym (firstn_skipn i its)) as Eits.
  assert (HA : length (firstn i cs) = length (firstn i its))
    by (rewrite !length_firstn; lia).
  revert Ecs Eits HA.
  generalize (firstn i cs) (skipn (S i) cs) (firstn i its) (skipn i its).
  intros A B I1 I2 -> -> HA. simpl.
  rewrite !map_app. simpl map.
  rewrite !interleave_app by (rewrite length_map; exact HA).
  f_equal. simpl. rewrite E. rewrite <- !app_assoc. reflexivity.
Qed.

Lemma splitChild_ok t h its cs i y :
  2 <= t -> nth_error cs i = Some y -> (i <= length its)%nat ->
  shape true t h y -> len (items y) = 2 * t - 1 ->
  exists y' m z,
    splitChild t (Node false its cs) i
    = Ok (Node false (insert_at i m its) (insert_at (S i) z (set_at i y' cs))) /\
    shape true t h y' /\ shape true t h z /\
    len (items y') = t - 1 /\ len (items z) = t - 1 /\
    flat y = flat y' ++ m :: flat z.
Proof.
  intros Ht Hy Hi Hsh Hfull. destruct y as [yl yits ycs].
  unfold len in *. cbn [items] in Hfull.
  set (k := Z.to_nat t).
  assert (Hk : (2 <= k)%nat) by (subst k; lia).
  assert (Hlen : length yits = (2 * k - 1)%nat) by (subst k; lia).
  destruct (nth_error yits (k - 1)) as [m|] eqn:Hm;
    [|apply nth_error_None in Hm; lia].
  assert (Hsplit : splitChild t (Node false its cs) i =
    Ok (Node false (insert_at i m its)
          (insert_at (S i)
             (Node yl (skipn k yits) (if yl then [] else skipn k ycs))
             (set_at i (Node yl (firstn (k - 1) yits)
                          (if yl then ycs else firstn k ycs)) cs)))).
  { unfold splitChild. rewrite Hy. fold k. rewrite Hm.
    replace (t <? 1) with false by (symmetry; apply Z.ltb_ge; lia).
    replace (length yits <? k)%nat with false
      by (symmetry; apply Nat.ltb_ge; lia).
    replace (length its <? i)%nat with false
      by (symmetry; apply Nat.ltb_ge; lia).
    simpl orb.
    destruct h; simpl in Hsh; destruct Hsh as (_ & Hl & Hrest); subst yl.
    - reflexivity.
    - destruct Hrest as [Hcs _].
      replace (length ycs <? k)%nat with false
        by (symmetry; apply Nat.ltb_ge; lia).
      reflexivity. }
  eexists _, m, _. split; [exact Hsplit|].
  assert (Hy1 : length (firstn (k - 1) yits) = (k - 1)%nat)
    by (rewrite length_firstn; lia).
  assert (Hz1 : length (skipn k yits) = (k - 1)%nat)
    by (rewrite length_skipn; lia).
  assert (Hkt : Z.of_nat (k - 1) = t - 1) by (subst k; lia).
  destruct h; simpl in Hsh; destruct Hsh as (_ & Hl & Hrest); subst yl.
  - subst ycs. cbn [shape flat items]. unfold len. rewrite Hy1, Hz1, Hkt.
    split; [split; [intros _; lia|split; reflexivity]|].
    split; [split; [intros _; lia|split; reflexivity]|].
    split; [reflexivity|]. split; [reflexivity|].
    pose proof (nth_error_split yits (k - 1) m Hm) as E.
    replace (S (k - 1)) with k in E by lia. exact E.
  - destruct Hrest as [Hcs Hall]. cbn [shape flat items]. unfold len.
    rewrite Hy1, Hz1, Hkt.
    split; [split; [intros _; lia|split; [reflexivity|split]]|].
    { rewrite length_firstn. lia. }
    { now apply Forall_take. }
    split; [split; [intros _; lia|split; [reflexivity|split]]|].
    { rewrite length_skipn. lia. }
    { now apply Forall_drop. }
    split; [reflexivity|]. split; [reflexivity|].
    rewrite (interleave_cut (map flat ycs) yits (k - 1) m Hm)
      by (rewrite length_map; lia).
    replace (S (k - 1)) with k by lia.
    now rewrite firstn_map, skipn_map.
Qed.

(** ** Descending into a child *)

Lemma replace_item_upserted l its cs i it old :
  (l = false -> (length its < length cs)%nat) ->
  nth_error its i = Some old -> PK old = PK it ->
  upserted it old true (flat (Node l its cs)) (flat (Node l (set_at i it its) cs)).
Proof.
  intros Hcs Hold Hpk. pose proof (nth_error_lt _ _ _ Hold) as Hi.
  destruct l; cbn [flat].
  - exists (firstn i its), (skipn (S i) its). split; [reflexivity|].
    split; [now apply nth_error_split|assumption].
  - specialize (Hcs eq_refl).
    exists (interleave (firstn (S i) (map flat cs)) (firstn i its)),
           (interleave (skipn (S i) (map flat cs)) (skipn (S i) its)).
    split; [|split; [|assumption]].
    + rewrite (interleave_cut (map flat cs) (set_at i it its) i it).
      * rewrite firstn_set_at, skipn_set_at by lia. reflexivity.
      * now apply nth_error_set_at_eq.
      * rewrite length_map. lia.
    + apply interleave_cut; [assumption|rewrite length_map; lia].
Qed.

Lemma descend t h its cs j c1 c2 it old rep :
  length cs = S (length its) -> Forall (shape true t h) cs ->
  nth_error cs j = Some c1 -> (j <= length its)%nat ->
  ascending (flat (Node false its cs)) ->
  (forall k m, (k < j)%nat -> nth_error its k = Some m -> PK m < PK it) ->
  (forall k m, (j <= k)%nat -> nth_error its k = Some m -> PK it < PK m) ->
  shape false t h c2 -> t - 1 <= len (items c2) <= 2 * t - 1 ->
  upserted it old rep (flat c1) (flat c2) ->
  shape false t (S h) (Node false its (set_at j c2 cs)) /\
  upserted it old rep (flat (Node false its cs))
    (flat (Node false its (set_at j c2 cs))).
Proof.
  intros Hlen Hall Hc1 Hj Hs Hlo Hhi Hsh Hb Hup.
  pose proof (nth_error_lt _ _ _ Hc1) as Hjc.
  split.
  - cbn [shape]. split; [discriminate|]. split; [reflexivity|]. split.
    + rewrite length_set_at by lia. assumption.
    + apply Forall_set_at; [assumption|]. now apply shape_bound.
  - cbn [flat] in *.
    assert (E1 : nth_error (map flat cs) j = Some (flat c1))
      by (now apply map_nth_error).
    assert (E2 : nth_error (map flat (set_at j c2 cs)) j = Some (flat c2)).
    { apply map_nth_error. apply nth_error_set_at_eq. lia. }
    rewrite (interleave_at _ its j _ E2) by lia.
    rewrite (interleave_at _ its j _ E1) in Hs |- * by lia.
    rewrite map_set_at.
    rewrite firstn_set_at by (rewrite length_map; lia).
    unfold rightPart at 2. rewrite skipn_set_at.
    change (match skipn j its with
            | [] => []
            | it0 :: r => it0 :: interleave (skipn (S j) (map flat cs)) r
            end) with (rightPart j (map flat cs) its).
    apply ascending_app in Hs. destruct Hs as (HL & Hs & _).
    apply ascending_app in Hs. destruct Hs as (_ & HR & _).
    apply upserted_frame; [assumption| |].
    + apply left_bound; try assumption. rewrite length_map. lia.
    + apply right_bound; assumption.
Qed.

Lemma ascending_child its cs j c :
  length cs = S (length its) -> nth_error cs j = Some c ->
  ascending (flat (Node false its cs)) -> ascending (flat c).
Proof.
  intros Hlen Hc Hs. cbn [flat] in Hs.
  apply (ascending_interleave_child (map flat cs) its).
  - rewrite length_map. lia.
  - apply in_map. eapply nth_error_In; eassumption.
  - assumption.
Qed.

(** ** Overflow of [2*t-1] *)

Lemma wrap64_cases t :
  2 <= t <= MaxInt64 ->
  wrap64 (2 * t - 1) = 2 * t - 1 \/ wrap64 (2 * t - 1) < 0.
Proof.
  unfold MaxInt64, wrap64. intros Ht.
  change (2 ^ 63) with 9223372036854775808 in *.
  change (2 ^ 64) with 18446744073709551616.
  destruct (Z_le_gt_dec t 4611686018427387904) as [Hle|Hgt].
  - left. rewrite Z.mod_small; lia.
  - right.
    assert (E : (2 * t - 1 + 9223372036854775808) mod 18446744073709551616
                = 2 * t - 1 + 9223372036854775808 - 18446744073709551616)
      by (symmetry; apply Z.mod_unique with (q := 1); lia).
    rewrite E. lia.
Qed.

(** ** [insertNonFull] *)

Section Insert.
Variable t : Z.
Hypothesis Ht : 2 <= t.

Lemma search_miss its pk :
  ascending its ->
  hit its (searchPK its pk) pk = None ->
  forall k m, (searchPK its pk <= k)%nat -> nth_error its k = Some m -> pk < PK m.
Proof.
  intros Hs Hhit k m Hk Hm.
  destruct (searchPK_spec its pk Hs) as (Hi & Hlo & Hhi).
  pose proof (Hhi k m Hk Hm) as Hge.
  unfold hit in Hhit.
  destruct (nth_error its (searchPK its pk)) as [m0|] eqn:Hm0.
  - destruct (PK m0 =? pk) eqn:Heq; [discriminate|].
    apply Z.eqb_neq in Heq.
    pose proof (Hhi _ m0 (Nat.le_refl _) Hm0) as Hge0.
    destruct (Nat.eq_dec k (searchPK its pk)) as [->|Hne].
    + rewrite Hm0 in Hm. inversion Hm; subst. lia.
    + assert (PK m0 < PK m)
        by (apply (ascending_nth its (searchPK its pk) k); try assumption; lia).
      lia.
  - apply nth_error_None in Hm0. apply nth_error_lt in Hm. lia.
Qed.

Lemma insertNonFull_spec :
  forall fuel h b x it,
    (h < fuel)%nat ->
    (h = O \/ wrap64 (2 * t - 1) = 2 * t - 1) ->
    shape b t h x -> ascending (flat x) ->
    exists x' old rep,
      insertNonFull fuel t x it = Ok (x', old, rep) /\
      shape false t h x' /\
      len (items x) <= len (items x') <= len (items x) + 1 /\
      upserted it old rep (flat x) (flat x').
Proof.
  induction fuel as [|fuel IH]; intros h b x it Hfuel Hreg Hsh Hs; [lia|].
  destruct x as [l its cs]. cbn [insertNonFull].
  assert (Hcs : l = false -> length cs = S (length its)).
  { intros ->. destruct h; cbn [shape] in Hsh; [|tauto].
    destruct Hsh as (_ & Hl & _). discriminate. }
  assert (Hits : ascending its).
  { destruct l; [exact Hs|]. cbn [flat] in Hs.
    apply (ascending_interleave_items (map flat cs)); [|assumption].
    rewrite length_map, Hcs; [lia|reflexivity]. }
  destruct (searchPK_spec its (PK it) Hits) as (Hi & Hlo & _).
  set (i := searchPK its (PK it)) in *.
  destruct (hit its i (PK it)) as [old|] eqn:Hhit.
  - (* the key is in this node *)
    unfold hit in Hhit.
    destruct (nth_error its i) as [m|] eqn:Hm; [|discriminate].
    destruct (PK m =? PK it) eqn:Heq; [|discriminate].
    inversion Hhit; subst m. apply Z.eqb_eq in Heq.
    pose proof (nth_error_lt _ _ _ Hm) as Hil.
    exists (Node l (set_at i it its) cs), old, true.
    split; [reflexivity|]. split; [|split].
    + destruct h; cbn [shape] in *.
      * split; [discriminate|tauto].
      * rewrite length_set_at by lia. split; [discriminate|tauto].
    + cbn [items]. unfold len. rewrite length_set_at by lia. lia.
    + apply replace_item_upserted; try assumption.
      intros Hl. rewrite (Hcs Hl). lia.
  - pose proof (search_miss its (PK it) Hits Hhit) as Hhi. fold i in Hhi.
    destruct h as [|h].
    + (* a leaf *)
      cbn [shape] in Hsh. destruct Hsh as (_ & -> & ->).
      exists (Node true (insert_at i it its) []), zeroItem, false.
      split; [reflexivity|]. split; [|split].
      * cbn [shape]. split; [discriminate|split; reflexivity].
      * cbn [items]. unfold len. rewrite length_insert_at by lia. lia.
      * cbn [flat]. exists (firstn i its), (skipn i its).
        split; [reflexivity|]. split; [now rewrite firstn_skipn|].
        split; [reflexivity|]. split.
        -- intros a Ha. apply In_firstn_nth in Ha.
           destruct Ha as (k & Hk & Hn). now apply (Hlo k).
        -- intros a Ha. apply In_skipn_nth in Ha.
           destruct Ha as (k & Hk & Hn). now apply (Hhi k).
    + (* an internal node *)
      destruct Hreg as [Hreg|Hwrap]; [discriminate|].
      cbn [shape] in Hsh. destruct Hsh as (_ & -> & Hlen & Hall).
      destruct (nth_error cs i) as [c|] eqn:Hc;
        [|apply nth_error_None in Hc; lia].
      pose proof (Forall_nth_error _ _ _ _ Hall Hc) as Hshc.
      pose proof (shape_items _ _ _ _ Hshc eq_refl) as Hbc.
      destruct (full t c) eqn:Hfull; unfold full in Hfull; rewrite Hwrap in Hfull.
      * (* the child is full: split it first *)
        apply Z.eqb_eq in Hfull. fold (len (items c)) in Hfull.
        destruct (splitChild_ok t h its cs i c Ht Hc Hi Hshc Hfull)
          as (y' & m & z & Hsplit & Hy' & Hz & Hly & Hlz & Hflat).
        rewrite Hsplit. cbn [bind items children leaf].
        set (its1 := insert_at i m its).
        set (cs1 := insert_at (S i) z (set_at i y' cs)).
        pose proof (nth_error_lt _ _ _ Hc) as Hic.
        assert (Hm : nth_error its1 i = Some m)
          by (apply nth_error_insert_at_eq; lia).
        assert (Hlen1 : length cs1 = S (length its1)).
        { unfold cs1, its1. rewrite !length_insert_at, length_set_at; try lia.
          rewrite length_set_at; lia. }
        assert (Hall1 : Forall (shape true t h) cs1).
        { apply Forall_insert_at; [|assumption].
          apply Forall_set_at; assumption. }
        assert (Hil1 : length its1 = S (length its))
          by (apply length_insert_at; lia).
        assert (Hflat1 : flat (Node false its1 cs1) = flat (Node false its cs))
          by (now apply (flat_after_split its cs i c y' m z)).
        assert (Hs1 : ascending (flat (Node false its1 cs1)))
          by (now rewrite Hflat1).
        assert (Hbefore : forall k m0, (k < i)%nat ->
                  nth_error its1 k = Some m0 -> PK m0 < PK it).
        { intros k m0 Hk Hn. apply (Hlo k); [assumption|].
          unfold its1 in Hn. rewrite nth_error_insert_at_lt in Hn by lia.
          assumption. }
        assert (Hafter : forall k m0, (S i <= k)%nat ->
                  nth_error its1 k = Some m0 -> PK it < PK m0).
        { intros [|k] m0 Hk Hn; [lia|].
          unfold its1 in Hn. rewrite nth_error_insert_at_gt in Hn by lia.
          apply (Hhi k); [lia|assumption]. }
        rewrite Hm. rewrite <- Hflat1.
        destruct (PK m <? PK it) eqn:Hlt; [|destruct (PK it =? PK m) eqn:Heq].
        -- (* right of the median *)
           apply Z.ltb_lt in Hlt.
           assert (Hz1 : nth_error cs1 (S i) = Some z).
           { apply nth_error_insert_at_eq. rewrite length_set_at; lia. }
           rewrite Hz1.
           destruct (IH h true z it) as (z' & old & rep & Hins & Hz' & Hlz' & Hup);
             [lia|now right|assumption| |].
           { apply (ascending_child its1 cs1 (S i)); assumption. }
           rewrite Hins. cbn [bind].
           destruct (descend t h its1 cs1 (S i) z z' it old rep) as [Hshape Hupd];
             try assumption; try lia.
           { intros k m0 Hk Hn. destruct (Nat.eq_dec k i) as [->|Hne].
             - rewrite Hm in Hn. inversion Hn; subst. assumption.
             - apply (Hbefore k); [lia|assumption]. }
           exists (Node false its1 (set_at (S i) z' cs1)), old, rep.
           split; [reflexivity|]. split; [assumption|]. split; [|assumption].
           cbn [items]. unfold len. lia.
        -- (* the median has the key *)
           apply Z.eqb_eq in Heq.
           exists (Node false (set_at i it its1) cs1), m, true.
           split; [reflexivity|]. split; [|split].
           ++ cbn [shape]. split; [discriminate|]. split; [reflexivity|].
              rewrite length_set_at by lia. split; assumption.
           ++ cbn [items]. unfold len. rewrite length_set_at by lia. lia.
           ++ apply replace_item_upserted; [intros _; lia|assumption|lia].
        -- (* left of the median *)
           apply Z.ltb_ge in Hlt. apply Z.eqb_neq in Heq.
           assert (Hy1 : nth_error cs1 i = Some y').
           { unfold cs1. rewrite nth_error_insert_at_lt;
               [|lia|rewrite length_set_at; lia].
             apply nth_error_set_at_eq. lia. }
           rewrite Hy1.
           destruct (IH h true y' it) as (c' & old & rep & Hins & Hc' & Hlc' & Hup);
             [lia|now right|assumption| |].
           { apply (ascending_child its1 cs1 i); assumption. }
           rewrite Hins. cbn [bind].
           destruct (descend t h its1 cs1 i y' c' it old rep) as [Hshape Hupd];
             try assumption; try lia.
           { intros k m0 Hk Hn. destruct (Nat.eq_dec k i) as [->|Hne].
             - rewrite Hm in Hn. inversion Hn; subst. lia.
             - apply (Hafter k); [lia|assumption]. }
           exists (Node false its1 (set_at i c' cs1)), old, rep.
           split; [reflexivity|]. split; [assumption|]. split; [|assumption].
           cbn [items]. unfold len. lia.
      * (* the child has room *)
        apply Z.eqb_neq in Hfull. fold (len (items c)) in Hfull.
        destruct (IH h true c it) as (c' & old & rep & Hins & Hc' & Hlc' & Hup);
          [lia|now right|assumption| |].
        { apply (ascending_child its cs i); assumption. }
        rewrite Hins. cbn [bind].
        destruct (descend t h its cs i c c' it old rep) as [Hshape Hupd];
          try assumption; try lia.
        exists (Node false its (set_at i c' cs)), old, rep.
        split; [reflexivity|]. split; [assumption|]. split; [|assumption].
        cbn [items]. lia.
Qed.
End Insert.

(** ** [Upsert] keeps the invariant *)

Lemma max_all_equal (hs : list nat) (h : nat) :
  hs <> [] -> Forall (fun k => k = h) hs -> fold_right Nat.max O hs = h.
Proof.
  induction hs as [|k hs IH]; intros Hne Hall; [congruence|].
  inversion Hall as [|? ? Hk Hall']; subst. simpl.
  destruct hs as [|k' hs]; [apply Nat.max_0_r|].
  rewrite IH; [apply Nat.max_id|discriminate|assumption].
Qed.

Lemma height_shape b t h x : shape b t h x -> height x = h.
Proof.
  revert b x; induction h as [|h IH]; intros b [l its cs] Hsh;
    cbn [shape] in Hsh; cbn [height].
  - destruct Hsh as (_ & -> & _). reflexivity.
  - destruct Hsh as (_ & -> & Hlen & Hall). f_equal.
    apply max_all_equal.
    + destruct cs; [discriminate|]. discriminate.
    + rewrite Forall_map. eapply Forall_impl; [|exact Hall].
      intros c Hc. exact (IH _ _ Hc).
Qed.

Lemma New_Inv t0 : is_int t0 -> Inv (New t0).
Proof.
  intros [Hlo Hhi]. unfold Inv, New. cbn [t root n].
  set (t1 := if t0 <? 2 then 2 else t0).
  assert (Ht1 : 2 <= t1 <= MaxInt64).
  { subst t1. unfold MaxInt64, MinInt64 in *.
    change (2 ^ 63) with 9223372036854775808 in *.
    destruct (Z.ltb_spec t0 2); lia. }
  split; [exact Ht1|]. split; [constructor|]. split; [reflexivity|].
  exists O. split.
  - cbn [shape]. split; [discriminate|split; reflexivity].
  - destruct (wrap64_cases t1 Ht1) as [E|E].
    + left. split; [assumption|]. change (0 <= 2 * t1 - 1). lia.
    + right. split; [assumption|reflexivity].
Qed.

Lemma Upsert_spec tr it :
  Inv tr ->
  exists tr' old rep,
    Upsert tr it = Ok (tr', old, rep) /\
    Inv tr' /\ t tr' = t tr /\
    upserted it old rep (flat (root tr)) (flat (root tr')) /\
    n tr' = n tr + (if rep then 0 else 1).
Proof.
  destruct tr as [d r cnt]. unfold Inv. cbn [t root n].
  intros (Ht & Hs & Hn & h & Hsh & Hreg).
  assert (Ht2 : 2 <= d) by lia.
  unfold Upsert. cbn [t root n].
  assert (Finish : forall x h' x' old rep,
    flat x = flat r ->
    insertNonFull (S (height x)) d x it = Ok (x', old, rep) ->
    shape false d h' x' ->
    upserted it old rep (flat x) (flat x') ->
    ((wrap64 (2 * d - 1) = 2 * d - 1 /\ len (items x') <= 2 * d - 1)
     \/ (wrap64 (2 * d - 1) < 0 /\ h' = O)) ->
    exists tr' old0 rep0,
      (do (x'0, old1, replaced) <- insertNonFull (S (height x)) d x it;
       Ok (mkBTree d x'0 (if replaced then cnt else cnt + 1), old1, replaced))
      = Ok (tr', old0, rep0) /\
      (2 <= t tr' <= MaxInt64 /\
       ascending (flat (root tr')) /\
       n tr' = len (flat (root tr')) /\
       exists h0, shape false (t tr') h0 (root tr') /\
         ((wrap64 (2 * t tr' - 1) = 2 * t tr' - 1 /\
           len (items (root tr')) <= 2 * t tr' - 1)
          \/ (wrap64 (2 * t tr' - 1) < 0 /\ h0 = O))) /\
      t tr' = d /\
      upserted it old0 rep0 (flat r) (flat (root tr')) /\
      n tr' = cnt + (if rep0 then 0 else 1)).
  { intros x h' x' old rep Ex Hins Hsh' Hup Hreg'.
    rewrite Hins. cbn [bind].
    exists (mkBTree d x' (if rep then cnt else cnt + 1)), old, rep.
    cbn [t root n]. rewrite Ex in Hup.
    split; [reflexivity|]. split; [|split; [reflexivity|split; [assumption|]]].
    - split; [assumption|]. split; [|split].
      + eapply upserted_ascending; eassumption.
      + rewrite (upserted_length _ _ _ _ _ Hup), <- Hn. destruct rep; lia.
      + exists h'. split; assumption.
    - destruct rep; lia. }
  destruct Hreg as [[Hwrap Hroot]|[Hwrap ->]].
  - destruct (full d r) eqn:Hfull; unfold full in Hfull; rewrite Hwrap in Hfull.
    + (* the root is full: the tree grows by one level *)
      apply Z.eqb_eq in Hfull. fold (len (items r)) in Hfull.
      assert (Hshr : shape true d h r) by (apply shape_bound; [assumption|lia]).
      destruct (splitChild_ok d h [] [r] O r Ht2 eq_refl (Nat.le_refl _) Hshr Hfull)
        as (y' & m & z & Hsplit & Hy' & Hz & Hly & Hlz & Hflat).
      rewrite Hsplit. cbn [bind].
      change (insert_at 0 m []) with [m] in *.
      change (insert_at 1 z (set_at 0 y' [r])) with [y'; z] in *.
      assert (Hsh1 : shape false d (S h) (Node false [m] [y'; z])).
      { cbn [shape]. split; [discriminate|]. split; [reflexivity|].
        split; [reflexivity|]. repeat constructor; assumption. }
      assert (Hfl1 : flat (Node false [m] [y'; z]) = flat r).
      { cbn [flat map interleave]. rewrite Hflat, app_nil_r. reflexivity. }
      destruct (insertNonFull_spec d Ht2 (S (height (Node false [m] [y'; z])))
                  (S h) false (Node false [m] [y'; z]) it)
        as (x' & old & rep & Hins & Hshx & Hlx & Hup).
      { rewrite (height_shape _ _ _ _ Hsh1). lia. }
      { now right. }
      { assumption. }
      { now rewrite Hfl1. }
      apply (Finish _ (S h) x' old rep Hfl1 Hins Hshx Hup).
      left. split; [assumption|].
      change (len (items (Node false [m] [y'; z]))) with 1 in Hlx. lia.
    + apply Z.eqb_neq in Hfull. fold (len (items r)) in Hfull.
      destruct (insertNonFull_spec d Ht2 (S (height r)) h false r it)
        as (x' & old & rep & Hins & Hshx & Hlx & Hup).
      { rewrite (height_shape _ _ _ _ Hsh). lia. }
      { now right. }
      { assumption. }
      { assumption. }
      apply (Finish _ h x' old rep eq_refl Hins Hshx Hup).
      left. split; [assumption|lia].
  - (* [2*t-1] overflows: nothing is ever full *)
    assert (Hfull : full d r = false).
    { unfold full. apply Z.eqb_neq. lia. }
    rewrite Hfull.
    destruct (insertNonFull_spec d Ht2 (S (height r)) O false r it)
      as (x' & old & rep & Hins & Hshx & Hlx & Hup).
    { lia. }
    { now left. }
    { assumption. }
    { assumption. }
    apply (Finish _ O x' old rep eq_refl Hins Hshx Hup).
    right. split; [assumption|reflexivity].
Qed.

Lemma upserts_Inv its : forall tr,
  Inv tr -> exists tr', upserts tr its = Ok tr' /\ Inv tr' /\ t tr' = t tr.
Proof.
  induction its as [|it its IH]; intros tr Hinv.
  - exists tr. split; [reflexivity|split; [assumption|reflexivity]].
  - destruct (Upsert_spec tr it Hinv) as (tr1 & old & rep & Hup & Hinv1 & Ht1 & _).
    destruct (IH tr1 Hinv1) as (tr' & Hups & Hinv' & Ht').
    exists tr'. cbn [upserts]. rewrite Hup. cbn [bind].
    split; [assumption|]. split; [assumption|congruence].
Qed.

(** Every tree a program can hold: [New], then any number of [Upsert]s. *)
Lemma built_Inv t0 its :
  is_int t0 ->
  exists tr, upserts (New t0) its = Ok tr /\ Inv tr /\ t tr = t (New t0).
Proof. intros Ht. apply upserts_Inv. now apply New_Inv. Qed.

(** ** The cursor *)

Lemma remaining_cons f st : remaining (f :: st) = frameRest f ++ remaining st.
Proof. reflexivity. Qed.

Lemma framesOk_cons t x i st :
  framesOk t ((x, i) :: st) <-> (exists b h, shape b t h x) /\ framesOk t st.
Proof.
  unfold framesOk. split.
  - intros H. inversion H; subst. split; assumption.
  - intros [H1 H2]. constructor; assumption.
Qed.

Lemma pushLeft_spec t : forall h b x st,
  shape b t h x ->
  exists st',
    pushLeft x st = Ok st' /\
    remaining st' = flat x ++ remaining st /\
    (framesOk t st -> framesOk t st').
Proof.
  induction h as [|h IH]; intros b [l its cs] st Hsh; pose proof Hsh as Hsh0;
    cbn [shape] in Hsh; cbn [pushLeft].
  - destruct Hsh as (_ & -> & ->).
    exists ((Node true its [], O) :: st). split; [reflexivity|]. split.
    + reflexivity.
    + intros Hok. apply framesOk_cons. split; [|assumption]. now exists b, O.
  - destruct Hsh as (_ & -> & Hlen & Hall).
    destruct cs as [|c cs]; [discriminate|].
    inversion Hall as [|? ? Hc Hall']; subst.
    destruct (IH true c ((Node false its (c :: cs), O) :: st) Hc)
      as (st' & Hpush & Hrem & Hok).
    exists st'. split; [assumption|]. split.
    + rewrite Hrem, remaining_cons, app_assoc. reflexivity.
    + intros Hst. apply Hok. apply framesOk_cons. split; [|assumption].
      now exists b, (S h).
Qed.

Lemma Next_spec t : forall st,
  framesOk t st ->
  exists r st',
    Next st = Ok (r, st') /\ framesOk t st' /\
    match r with
    | Some it => remaining st = it :: remaining st'
    | None => remaining st = []
    end.
Proof.
  induction st as [|[x i] rest IH]; intros Hok.
  - exists None, []. split; [reflexivity|]. split; [constructor|reflexivity].
  - apply framesOk_cons in Hok. destruct Hok as [(b & h & Hsh) Hrest].
    cbn [Next]. destruct (nth_error (items x) i) as [item|] eqn:Hitem.
    + destruct x as [l its cs]. cbn [items leaf children] in *.
      pose proof (nth_error_lt _ _ _ Hitem) as Hi.
      destruct l.
      * exists (Some item), ((Node true its cs, S i) :: rest).
        split; [reflexivity|]. split.
        -- apply framesOk_cons. split; [now exists b, h|assumption].
        -- rewrite !remaining_cons. cbn [frameRest leaf items].
           now rewrite (skipn_nth_error its i item Hitem).
      * destruct h as [|h]; cbn [shape] in Hsh;
          [destruct Hsh as (_ & Hl & _); discriminate|].
        pose proof Hsh as (_ & _ & Hlen & Hall).
        destruct (nth_error cs (S i)) as [c|] eqn:Hc;
          [|apply nth_error_None in Hc; lia].
        pose proof (Forall_nth_error _ _ _ _ Hall Hc) as Hshc.
        destruct (pushLeft_spec t h true c ((Node false its cs, S i) :: rest) Hshc)
          as (st' & Hpush & Hrem & Hok').
        rewrite Hpush. cbn [bind].
        exists (Some item), st'. split; [reflexivity|]. split.
        -- apply Hok'. apply framesOk_cons. split; [|assumption].
           exists b, (S h). exact Hsh.
        -- rewrite Hrem, !remaining_cons. cbn [frameRest leaf items children].
           unfold rightPart. rewrite (skipn_nth_error its i item Hitem).
           rewrite (skipn_nth_error (map flat cs) (S i) (flat c))
             by (now apply map_nth_error).
           cbn [interleave]. rewrite <- app_comm_cons, <- app_assoc. reflexivity.
    + destruct (IH Hrest) as (r & st' & Hnext & Hok' & Hrem).
      exists r, st'. split; [assumption|]. split; [assumption|].
      assert (E : frameRest (x, i) = []).
      { unfold frameRest. destruct (leaf x).
        - now apply skipn_nth_error_none.
        - unfold rightPart. now rewrite (skipn_nth_error_none _ _ Hitem). }
      rewrite remaining_cons, E. exact Hrem.
Qed.

Lemma drain_spec t : forall fuel st,
  framesOk t st -> (length (remaining st) < fuel)%nat ->
  drain fuel st = Ok (remaining st).
Proof.
  induction fuel as [|fuel IH]; intros st Hok Hfuel; [lia|].
  cbn [drain].
  destruct (Next_spec t st Hok) as (r & st' & Hnext & Hok' & Hrem).
  rewrite Hnext. cbn [bind]. destruct r as [item|].
  - rewrite Hrem in Hfuel |- *. simpl in Hfuel.
    rewrite (IH st' Hok') by lia. reflexivity.
  - now rewrite Hrem.
Qed.

Lemma IterAscend_spec tr :
  Inv tr ->
  exists it,
    IterAscend tr = Ok it /\ framesOk (t tr) it /\ remaining it = flat (root tr).
Proof.
  intros (_ & _ & _ & h & Hsh & _).
  destruct (pushLeft_spec (t tr) h false (root tr) [] Hsh) as (st & Hp & Hrem & Hok).
  exists st. split; [exact Hp|]. split.
  - apply Hok. constructor.
  - rewrite Hrem. apply app_nil_r.
Qed.

Lemma ascending_NoDup l : ascending l -> NoDup (map PK l).
Proof.
  unfold ascending. induction (map PK l) as [|k ks IH]; intros Hs.
  - constructor.
  - inversion Hs as [|? ? Hs' Hall]; subst. constructor.
    + intros Hin. rewrite Forall_forall in Hall. specialize (Hall k Hin). lia.
    + now apply IH.
Qed.

(** C1. After any sequence of [Upsert] calls, a cursor from [IterAscend],
    driven by [Next] until it reports no more items, emits items whose
    primary keys are strictly increasing, hence without duplicates, and
    emits [Len()] of them. *)
Theorem iter_ascend_ordered (t0 : Z) (its : list Item) :
  is_int t0 ->
  exists tr it out,
    upserts (New t0) its = Ok tr /\
    IterAscend tr = Ok it /\
    (forall fuel, (length out < fuel)%nat -> drain fuel it = Ok out) /\
    StronglySorted Z.lt (map PK out) /\
    NoDup (map PK out) /\
    len out = Len tr.
Proof.
  intros Ht.
  destruct (built_Inv t0 its Ht) as (tr & Hup & Hinv & _).
  destruct (IterAscend_spec tr Hinv) as (it & Hit & Hok & Hrem).
  exists tr, it, (flat (root tr)). split; [assumption|]. split; [assumption|].
  destruct Hinv as (_ & Hs & Hn & _).
  split; [|split; [exact Hs|split; [now apply ascending_NoDup|exact (eq_sym Hn)]]].
  intros fuel Hfuel. rewrite <- Hrem. apply (drain_spec (t tr)); [assumption|].
  now rewrite Hrem.
Qed.

Lemma iter_ascend_ordered_witness :
  is_int 2 /\
  exists tr it out,
    upserts (New 2) (map (fun k => mkItem k []) [10; 20; 5; 6; 12; 30; 7; 17]) = Ok tr /\
    IterAscend tr = Ok it /\
    (forall fuel, (length out < fuel)%nat -> drain fuel it = Ok out) /\
    StronglySorted Z.lt (map PK out) /\
    NoDup (map PK out) /\
    len out = Len tr.
Proof.
  assert (H : is_int 2) by (unfold is_int, MinInt64, MaxInt64; lia).
  split; [exact H|].
  exact (iter_ascend_ordered 2 _ H).
Defined.

(** ** Node occupancy and balance *)

Lemma items_ascending b t h x :
  shape b t h x -> ascending (flat x) -> ascending (items x).
Proof.
  destruct x as [l its cs]. destruct h; cbn [shape flat items].
  - intros (_ & -> & _) Hs. exact Hs.
  - intros (_ & -> & Hlen & _) Hs.
    apply (ascending_interleave_items (map flat cs)); [|assumption].
    rewrite length_map. lia.
Qed.

Lemma shape_descendants t : forall h b x,
  shape b t h x -> ascending (flat x) ->
  forall y, In y (descendants x) ->
    t - 1 <= len (items y) <= 2 * t - 1 /\ ascending (items y).
Proof.
  induction h as [|h IH]; intros b [l its cs] Hsh Hs y Hy;
    cbn [shape] in Hsh; cbn [descendants] in Hy.
  - destruct Hsh as (_ & _ & ->). contradiction.
  - destruct Hsh as (_ & -> & Hlen & Hall).
    apply in_flat_map in Hy. destruct Hy as (c & Hc & Hy).
    rewrite Forall_forall in Hall. pose proof (Hall c Hc) as Hshc.
    assert (Hsc : ascending (flat c)).
    { destruct (In_nth_error _ _ Hc) as (j & Hj).
      apply (ascending_child its cs j c); assumption. }
    destruct Hy as [<-|Hy].
    + split.
      * apply (shape_items _ _ _ _ Hshc eq_refl).
      * apply (items_ascending _ _ _ _ Hshc Hsc).
    + apply (IH true c Hshc Hsc y Hy).
Qed.

Lemma shape_children_count t : forall h b x,
  shape b t h x ->
  forall y, In y (x :: descendants x) -> leaf y = false ->
    length (children y) = S (length (items y)).
Proof.
  induction h as [|h IH]; intros b [l its cs] Hsh y Hy Hleaf;
    pose proof Hsh as Hsh0; cbn [shape] in Hsh.
  - destruct Hsh as (_ & -> & ->). destruct Hy as [<-|Hy].
    + discriminate.
    + cbn [descendants flat_map] in Hy. contradiction.
  - destruct Hsh as (_ & -> & Hlen & Hall). destruct Hy as [<-|Hy].
    + exact Hlen.
    + cbn [descendants] in Hy.
      apply in_flat_map in Hy. destruct Hy as (c & Hc & Hy).
      rewrite Forall_forall in Hall.
      apply (IH true c (Hall c Hc) y Hy Hleaf).
Qed.

Lemma shape_leafDepths t : forall h b x d k,
  shape b t h x -> In k (leafDepths d x) -> k = (d + h)%nat.
Proof.
  induction h as [|h IH]; intros b [l its cs] d k Hsh Hk;
    cbn [shape] in Hsh; cbn [leafDepths] in Hk.
  - destruct Hsh as (_ & -> & _). destruct Hk as [<-|[]]. lia.
  - destruct Hsh as (_ & -> & _ & Hall).
    apply in_flat_map in Hk. destruct Hk as (c & Hc & Hk).
    rewrite Forall_forall in Hall.
    rewrite (IH true c (S d) k (Hall c Hc) Hk). lia.
Qed.

(** C2. After any sequence of [Upsert]s on a tree of minimum degree [t],
    every node except the root holds between [t-1] and [2t-1] items in
    ascending key order, every internal node with [k] items has [k+1]
    children, and all leaves are at the same depth. *)
Theorem btree_node_invariants (t0 : Z) (its : list Item) :
  is_int t0 ->
  exists tr,
    upserts (New t0) its = Ok tr /\
    t tr = Z.max 2 t0 /\
    (forall x, In x (descendants (root tr)) ->
       t tr - 1 <= len (items x) <= 2 * t tr - 1 /\
       StronglySorted Z.lt (map PK (items x))) /\
    (forall x, In x (root tr :: descendants (root tr)) -> leaf x = false ->
       length (children x) = S (length (items x))) /\
    (forall d1 d2, In d1 (leafDepths O (root tr)) ->
       In d2 (leafDepths O (root tr)) -> d1 = d2).
Proof.
  intros Ht.
  destruct (built_Inv t0 its Ht) as (tr & Hup & Hinv & Htt).
  exists tr. split; [assumption|].
  destruct Hinv as (_ & Hs & _ & h & Hsh & _).
  split; [|split; [|split]].
  - rewrite Htt. unfold New. cbn [t]. destruct (Z.ltb_spec t0 2); lia.
  - apply (shape_descendants (t tr) h false); assumption.
  - apply (shape_children_count (t tr) h false); assumption.
  - intros d1 d2 H1 H2.
    rewrite (shape_leafDepths _ _ _ _ _ _ Hsh H1).
    rewrite (shape_leafDepths _ _ _ _ _ _ Hsh H2). reflexivity.
Qed.

Lemma btree_node_invariants_witness :
  is_int 2 /\
  exists tr,
    upserts (New 2) (map (fun k => mkItem k []) [10; 20; 5; 6; 12; 30; 7; 17]) = Ok tr /\
    t tr = Z.max 2 2 /\
    (forall x, In x (descendants (root tr)) ->
       t tr - 1 <= len (items x) <= 2 * t tr - 1 /\
       StronglySorted Z.lt (map PK (items x))) /\
    (forall x, In x (root tr :: descendants (root tr)) -> leaf x = false ->
       length (children x) = S (length (items x))) /\
    (forall d1 d2, In d1 (leafDepths O (root tr)) ->
       In d2 (leafDepths O (root tr)) -> d1 = d2).
Proof.
  assert (H : is_int 2) by (unfold is_int, MinInt64, MaxInt64; lia).
  split; [exact H|].
  exact (btree_node_invariants 2 _ H).
Defined.

(** ** [Get] *)

Lemma getNode_unfold l its cs pk :
  getNode (Node l its cs) pk =
  match hit its (searchPK its pk) pk with
  | Some found => Ok (Some (row found))
  | None =>
      if l then Ok None
      else match nth_error cs (searchPK its pk) with
           | Some c => getNode c pk
           | None => Panic
           end
  end.
Proof.
  cbn [getNode]. destruct (hit its (searchPK its pk) pk); [reflexivity|].
  destruct l; [reflexivity|].
  generalize (searchPK its pk). induction cs as [|c cs IH]; intros [|i];
    try reflexivity.
  cbn [nth_error]. apply IH.
Qed.

Lemma findPK_hit l1 a l2 pk :
  ascending (l1 ++ a :: l2) -> PK a = pk -> findPK pk (l1 ++ a :: l2) = Some a.
Proof.
  intros Hs Hpk. apply ascending_app in Hs. destruct Hs as (_ & _ & Hlt).
  unfold findPK. induction l1 as [|b l1 IH]; cbn [app find].
  - rewrite (proj2 (Z.eqb_eq _ _) Hpk). reflexivity.
  - assert (Hb : PK b < PK a) by (apply Hlt; [now left|now left]).
    replace (PK b =? pk) with false by (symmetry; apply Z.eqb_neq; lia).
    apply IH. intros x y Hx Hy. apply Hlt; [now right|assumption].
Qed.

Lemma findPK_miss l pk :
  (forall a, In a l -> PK a <> pk) -> findPK pk l = None.
Proof.
  intros H. unfold findPK. induction l as [|b l IH]; cbn [find]; [reflexivity|].
  replace (PK b =? pk) with false
    by (symmetry; apply Z.eqb_neq; apply H; now left).
  apply IH. intros a Ha. apply H. now right.
Qed.

Lemma findPK_app l1 l2 pk :
  (forall a, In a l1 -> PK a <> pk) -> findPK pk (l1 ++ l2) = findPK pk l2.
Proof.
  intros H. unfold findPK. induction l1 as [|b l1 IH]; cbn [app find]; [reflexivity|].
  replace (PK b =? pk) with false
    by (symmetry; apply Z.eqb_neq; apply H; now left).
  apply IH. intros a Ha. apply H. now right.
Qed.

Lemma findPK_app_l l1 l2 pk :
  (forall a, In a l2 -> PK a <> pk) -> findPK pk (l1 ++ l2) = findPK pk l1.
Proof.
  intros H. unfold findPK. induction l1 as [|b l1 IH]; cbn [app find].
  - now apply findPK_miss.
  - destruct (PK b =? pk); [reflexivity|exact IH].
Qed.

Lemma findPK_upserted it old rep l l' :
  ascending l -> upserted it old rep l l' ->
  findPK (PK it) l = if rep then Some old else None.
Proof.
  intros Hs (l1 & l2 & _ & H). destruct rep.
  - destruct H as [-> Hpk]. now apply findPK_hit.
  - destruct H as (-> & _ & H1 & H2). apply findPK_miss.
    intros a Ha. apply in_app_or in Ha. destruct Ha as [Ha|Ha].
    + specialize (H1 a Ha). lia.
    + specialize (H2 a Ha). lia.
Qed.

Lemma getNode_spec t pk : forall h b x,
  shape b t h x -> ascending (flat x) ->
  getNode x pk = Ok (option_map row (findPK pk (flat x))).
Proof.
  induction h as [|h IH]; intros b [l its cs] Hsh Hs; pose proof Hsh as Hsh0;
    cbn [shape] in Hsh; rewrite getNode_unfold.
  - destruct Hsh as (_ & -> & ->).
    pose proof (items_ascending _ _ _ _ Hsh0 Hs) as Hits. cbn [items] in Hits.
    destruct (hit its (searchPK its pk) pk) as [found|] eqn:Hhit.
    + unfold hit in Hhit.
      destruct (nth_error its (searchPK its pk)) as [m|] eqn:Hm; [|discriminate].
      destruct (PK m =? pk) eqn:Heq; [|discriminate].
      inversion Hhit; subst m. apply Z.eqb_eq in Heq. cbn [flat] in *.
      rewrite (nth_error_split its _ found Hm) in Hs |- *.
      now rewrite (findPK_hit _ _ _ pk Hs Heq).
    + cbn [flat]. rewrite findPK_miss; [reflexivity|].
      destruct (searchPK_spec its pk Hits) as (_ & Hlo & _).
      pose proof (search_miss its pk Hits Hhit) as Hhi.
      intros a Ha. destruct (In_nth_error _ _ Ha) as (k & Hk).
      destruct (Nat.lt_ge_cases k (searchPK its pk)) as [Hlt|Hge].
      * specialize (Hlo k a Hlt Hk). lia.
      * specialize (Hhi k a Hge Hk). lia.
  - destruct Hsh as (_ & -> & Hlen & Hall).
    pose proof (items_ascending _ _ _ _ Hsh0 Hs) as Hits. cbn [items] in Hits.
    destruct (searchPK_spec its pk Hits) as (Hi & Hlo & _).
    destruct (hit its (searchPK its pk) pk) as [found|] eqn:Hhit.
    + unfold hit in Hhit.
      destruct (nth_error its (searchPK its pk)) as [m|] eqn:Hm; [|discriminate].
      destruct (PK m =? pk) eqn:Heq; [|discriminate].
      inversion Hhit; subst m. apply Z.eqb_eq in Heq.
      destruct (replace_item_upserted false its cs _ found found
                  ltac:(intros _; lia) Hm eq_refl) as (l1 & l2 & _ & E & _).
      rewrite E in Hs |- *. now rewrite (findPK_hit _ _ _ pk Hs Heq).
    + pose proof (search_miss its pk Hits Hhit) as Hhi.
      set (i := searchPK its pk) in *.
      destruct (nth_error cs i) as [c|] eqn:Hc;
        [|apply nth_error_None in Hc; lia].
      pose proof (Forall_nth_error _ _ _ _ Hall Hc) as Hshc.
      rewrite (IH true c Hshc (ascending_child its cs i c Hlen Hc Hs)).
      f_equal. f_equal. cbn [flat] in *.
      assert (E1 : nth_error (map flat cs) i = Some (flat c))
        by (now apply map_nth_error).
      rewrite (interleave_at _ its i _ E1) in Hs |- * by lia.
      pose proof Hs as Hs'.
      apply ascending_app in Hs'. destruct Hs' as (HL & Hs' & _).
      apply ascending_app in Hs'. destruct Hs' as (_ & HR & _).
      rewrite findPK_app, findPK_app_l; [reflexivity| |].
      * intros a Ha.
        pose proof (right_bound (map flat cs) its i pk HR Hhi a Ha). lia.
      * intros a Ha.
        assert (PK a < pk); [|lia].
        apply (left_bound (map flat cs) its i pk); try assumption.
        rewrite length_map. lia.
Qed.

Lemma Get_spec tr pk :
  Inv tr -> Get tr pk = Ok (option_map row (findPK pk (flat (root tr)))).
Proof.
  intros (_ & Hs & _ & h & Hsh & _). unfold Get.
  now apply (getNode_spec (t tr) pk h false).
Qed.

Lemma stored_iff tr it :
  Inv tr -> (stored tr it <-> In it (flat (root tr))).
Proof.
  intros Hinv. unfold stored. rewrite (Get_spec tr (PK it) Hinv).
  destruct Hinv as (_ & Hs & _). split.
  - intros H. destruct (findPK (PK it) (flat (root tr))) as [a|] eqn:Hf;
      [|discriminate].
    unfold findPK in Hf. apply find_some in Hf. destruct Hf as [Ha Hpk].
    apply Z.eqb_eq in Hpk. cbn [option_map] in H. inversion H as [Hrow].
    destruct a as [k r], it as [k' r']. cbn [PK row] in *. subst. assumption.
  - intros Hin. apply in_split in Hin. destruct Hin as (l1 & l2 & E).
    rewrite E in Hs |- *. now rewrite (findPK_hit _ _ _ (PK it) Hs eq_refl).
Qed.

(** ** [AscendRange] *)

Section Range.
Context {S : Type}.
Variable lo hi : Z.
Variable fn : S -> Item -> S * bool.

Lemma ascendLeaf_app l1 l2 s :
  ascendLeaf lo hi fn (l1 ++ l2) s =
  let '(s1, go) := ascendLeaf lo hi fn l1 s in
  if go then ascendLeaf lo hi fn l2 s1 else (s1, false).
Proof.
  revert s; induction l1 as [|it l1 IH]; intros s; cbn [app ascendLeaf].
  - reflexivity.
  - destruct (visitItem lo hi fn s it) as [s1 go]. destruct go.
    + apply IH.
    + reflexivity.
Qed.

Lemma ascendLeaf_stops l s : snd (ascendLeaf lo hi fn l s) = false \/
                             snd (ascendLeaf lo hi fn l s) = true.
Proof. destruct (snd (ascendLeaf lo hi fn l s)); auto. Qed.

Lemma ascendRangeNode_unfold l its cs s :
  ascendRangeNode lo hi fn (Node l its cs) s =
  if l then Ok (ascendLeaf lo hi fn its s)
  else
    (fix loop (cs : list node) (its : list Item) (s : S) {struct cs}
       : res (S * bool) :=
       match cs with
       | [] => Panic
       | c :: cs' =>
           match its with
           | [] => ascendRangeNode lo hi fn c s
           | it :: its' =>
               do (s1, go) <- ascendRangeNode lo hi fn c s;
               if go then
                 let '(s2, go2) := visitItem lo hi fn s1 it in
                 if go2 then loop cs' its' s2 else Ok (s2, false)
               else Ok (s1, false)
           end
       end) cs its s.
Proof. reflexivity. Qed.

(** The scan of a subtree is the scan of its listing. *)
Lemma ascendRangeNode_spec t : forall h b x s,
  shape b t h x ->
  ascendRangeNode lo hi fn x s = Ok (ascendLeaf lo hi fn (flat x) s).
Proof.
  induction h as [|h IH]; intros b [l its cs] s Hsh; cbn [shape] in Hsh;
    rewrite ascendRangeNode_unfold.
  - destruct Hsh as (_ & -> & _). reflexivity.
  - destruct Hsh as (_ & -> & Hlen & Hall). cbn [flat].
    revert its s Hlen. induction Hall as [|c cs Hc Hall IHcs]; intros its s Hlen.
    + discriminate.
    + destruct its as [|it its].
      * destruct cs; [|discriminate]. cbn [map interleave].
        rewrite app_nil_r. apply (IH true c s Hc).
      * cbn [map interleave]. rewrite (IH true c s Hc). cbn [bind].
        rewrite ascendLeaf_app.
        destruct (ascendLeaf lo hi fn (flat c) s) as [s1 go].
        destruct go; [|reflexivity].
        cbn [ascendLeaf].
        destruct (visitItem lo hi fn s1 it) as [s2 go2].
        destruct go2; [|reflexivity].
        apply IHcs. simpl in Hlen. lia.
Qed.

(** On an ascending listing the scan shows [fn] the keys of [[lo, hi)]
    in order, until [fn] answers [false]. *)
Lemma ascendLeaf_ascending l s :
  ascending l ->
  fst (ascendLeaf lo hi fn l s) = visitUntil fn s (filter (inRange lo hi) l).
Proof.
  revert s; induction l as [|it l IH]; intros s Hs; cbn [ascendLeaf filter].
  - reflexivity.
  - apply ascending_cons in Hs. destruct Hs as [Hs Hlt].
    unfold visitItem, inRange at 1.
    destruct ((lo <=? PK it) && (PK it <? hi)) eqn:Hin.
    + cbn [visitUntil]. destruct (fn s it) as [s1 go]. destruct go; cbn [negb].
      * apply andb_prop in Hin. destruct Hin as [_ Hhi].
        apply Z.ltb_lt in Hhi.
        replace (hi <=? PK it) with false by (symmetry; apply Z.leb_gt; lia).
        now apply IH.
      * reflexivity.
    + cbn [negb]. destruct (hi <=? PK it) eqn:Hge.
      * apply Z.leb_le in Hge. cbn [fst].
        replace (filter (inRange lo hi) l) with (@nil Item); [reflexivity|].
        symmetry. clear IH Hs. induction l as [|b l IHl]; [reflexivity|].
        cbn [filter]. unfold inRange at 1.
        assert (PK it < PK b) by (apply Hlt; now left).
        replace (PK b <? hi) with false by (symmetry; apply Z.ltb_ge; lia).
        rewrite andb_false_r. apply IHl. intros c Hc. apply Hlt. now right.
      * now apply IH.
Qed.
End Range.

Lemma AscendRange_spec {S : Type} lo hi (fn : S -> Item -> S * bool) tr s :
  Inv tr ->
  AscendRange lo hi fn tr s
  = Ok (visitUntil fn s (filter (inRange lo hi) (flat (root tr)))).
Proof.
  intros (_ & Hs & _ & h & Hsh & _). unfold AscendRange.
  rewrite (ascendRangeNode_spec lo hi fn (t tr) h false _ s Hsh).
  cbn [bind].
  rewrite <- (ascendLeaf_ascending lo hi fn _ s Hs).
  destruct (ascendLeaf lo hi fn (flat (root tr)) s). reflexivity.
Qed.

Lemma ascending_filter f l : ascending l -> ascending (filter f l).
Proof.
  induction l as [|a l IH]; intros Hs; cbn [filter].
  - assumption.
  - apply ascending_cons in Hs. destruct Hs as [Hs Hlt].
    destruct (f a); [|now apply IH].
    apply ascending_cons. split; [now apply IH|].
    intros b Hb. apply filter_In in Hb. now apply Hlt.
Qed.

(** C7. [AscendRange(lo, hi, fn)] shows [fn] exactly the stored items
    with [lo <= PK < hi], in ascending key order, and stops when [fn]
    answers [false]; on the tree of minimum degree 2 built by upserting
    the keys 10, 20, 5, 6, 12, 30, 7, 17 in that order,
    [AscendRange(0, 100, ...)] visits 5, 6, 7, 10, 12, 17, 20, 30. *)
Theorem ascend_range_visits (t0 : Z) (its : list Item) (lo hi : Z) :
  is_int t0 ->
  (exists tr sel,
     upserts (New t0) its = Ok tr /\
     StronglySorted Z.lt (map PK sel) /\
     (forall it, In it sel <-> stored tr it /\ lo <= PK it < hi) /\
     (forall (S : Type) (fn : S -> Item -> S * bool) (s : S),
        AscendRange lo hi fn tr s = Ok (visitUntil fn s sel))) /\
  (forall scenario,
     map PK scenario = [10; 20; 5; 6; 12; 30; 7; 17] ->
     exists tr out,
       upserts (New 2) scenario = Ok tr /\
       AscendRange 0 100 collect tr [] = Ok out /\
       map PK out = [5; 6; 7; 10; 12; 17; 20; 30]).
Proof.
  intros Ht. split.
  - destruct (built_Inv t0 its Ht) as (tr & Hup & Hinv & _).
    exists tr, (filter (inRange lo hi) (flat (root tr))).
    split; [assumption|]. pose proof Hinv as (_ & Hs & _).
    split; [now apply ascending_filter|]. split.
    + intros it. rewrite filter_In, (stored_iff tr it Hinv).
      unfold inRange. rewrite andb_true_iff, Z.leb_le, Z.ltb_lt. tauto.
    + intros S fn s. now apply AscendRange_spec.
  - intros scenario Hpk.
    do 9 (destruct scenario as [|[?k ?r] scenario]; try discriminate).
    cbn [map PK] in Hpk. inversion Hpk; subst.
    eexists _, _. split; [vm_compute; reflexivity|].
    split; vm_compute; reflexivity.
Qed.

Lemma ascend_range_visits_witness :
  is_int 2 /\
  ((exists tr sel,
     upserts (New 2) (map (fun k => mkItem k []) [10; 20; 5; 6; 12; 30; 7; 17]) = Ok tr /\
     StronglySorted Z.lt (map PK sel) /\
     (forall it, In it sel <-> stored tr it /\ 6 <= PK it < 20) /\
     (forall (S : Type) (fn : S -> Item -> S * bool) (s : S),
        AscendRange 6 20 fn tr s = Ok (visitUntil fn s sel))) /\
  (forall scenario,
     map PK scenario = [10; 20; 5; 6; 12; 30; 7; 17] ->
     exists tr out,
       upserts (New 2) scenario = Ok tr /\
       AscendRange 0 100 collect tr [] = Ok out /\
       map PK out = [5; 6; 7; 10; 12; 17; 20; 30])).
Proof.
  assert (H : is_int 2) by (unfold is_int, MinInt64, MaxInt64; lia).
  split; [exact H|].
  exact (ascend_range_visits 2 _ 6 20 H).
Defined.

(** ** The record codec *)

Lemma appendAny_fails dst v :
  (exists e, appendAny dst v = inr e) <-> badValue v.
Proof.
  unfold badValue. split.
  - intros [e H]. destruct v; cbn [appendAny] in H; try discriminate.
    + destruct (MaxInt64 <? x) eqn:Hx; [|discriminate].
      left. exists x. split; [reflexivity|now apply Z.ltb_lt].
    + destruct (ParseInt s); discriminate.
    + destruct marshal; [discriminate|]. now right.
  - intros [(x & -> & Hx) | -> ]; cbn [appendAny].
    + apply Z.ltb_lt in Hx. rewrite Hx. eexists; reflexivity.
    + eexists; reflexivity.
Qed.

Lemma encodeFields_fails fields : forall dst,
  (exists e, encodeFields dst fields = inr e) <-> Exists badField fields.
Proof.
  induction fields as [|[k v] fields IH]; intros dst; cbn [encodeFields].
  - split; [intros [e H]; discriminate|intros H; inversion H].
  - destruct (255 <? slen k) eqn:Hk.
    + split; [|intros _; eexists; reflexivity].
      intros _. left. left. now apply Z.ltb_lt.
    + apply Z.ltb_ge in Hk.
      destruct (appendAny (dst ++ [byteZ (slen k)] ++ list_byte_of_string k) v)
        as [dst'|e] eqn:Hv.
      * rewrite IH. split; [intros H; now right|].
        intros H. inversion H as [? ? Hb|? ? Hb]; subst; [|assumption].
        destruct Hb as [Hb|Hb]; cbn [fst snd] in Hb; [lia|].
        apply (appendAny_fails
                 (dst ++ [byteZ (slen k)] ++ list_byte_of_string k)) in Hb.
        destruct Hb as [e Hb]. congruence.
      * split; [|intros _; eexists; reflexivity].
        intros _. left. right. cbn [snd].
        apply (appendAny_fails
                 (dst ++ [byteZ (slen k)] ++ list_byte_of_string k)).
        eexists; eassumption.
Qed.

Lemma encodeItemInto_fails dst it :
  (exists e, encodeItemInto dst it = inr e) <->
  MaxUint16 < len (row it) \/ Exists badField (row it).
Proof.
  unfold encodeItemInto. destruct (MaxUint16 <? len (row it)) eqn:Hn.
  - apply Z.ltb_lt in Hn. split; [intros _; now left|].
    intros _. eexists; reflexivity.
  - apply Z.ltb_ge in Hn. rewrite encodeFields_fails.
    split; [intros H; now right|]. intros [H|H]; [lia|assumption].
Qed.

(** C8, as the code has it. [WriteItem] returns an error exactly when
    encoding the item fails (more than 65535 fields, a field name over 255
    bytes, a [uint64] above the [int64] range, or a failing JSON fallback)
    or a write to the buffered sink fails.  On an encode error the writer
    is untouched: no byte reaches the sink and both counters keep their
    values.  On a sink error the counters keep their values.  On success
    [BytesWritten] grows by 4 plus the encoded length and [Records] by 1,
    in [uint64] arithmetic. *)
Theorem write_item_outcomes (w : Writer) (it : Item) :
  ((exists e, encodeItemInto [] it = inr e) <->
   MaxUint16 < len (row it) \/ Exists badField (row it)) /\
  match encodeItemInto [] it with
  | inr e => WriteItem w it = (w, Some (EncodeFailed e))
  | inl buf =>
      let p := bufWrite (bw w) (le_bytes 4 (wrapU32 (len buf))) in
      let q := bufWrite (fst p) buf in
      let w' := fst (WriteItem w it) in
      if snd p || snd q then
        snd (WriteItem w it) = Some SinkFailed /\
        BytesWritten w' = BytesWritten w /\ Records w' = Records w
      else
        snd (WriteItem w it) = None /\
        bw w' = fst q /\
        BytesWritten w' = (BytesWritten w + (4 + len buf)) mod 2 ^ 64 /\
        Records w' = (Records w + 1) mod 2 ^ 64
  end.
Proof.
  split; [apply encodeItemInto_fails|].
  unfold WriteItem. destruct (encodeItemInto [] it) as [buf|e]; [|reflexivity].
  cbv zeta.
  destruct (bufWrite (bw w) (le_bytes 4 (wrapU32 (len buf)))) as [b1 e1].
  cbn [fst snd]. destruct e1; cbn [orb fst snd].
  - repeat split.
  - destruct (bufWrite b1 buf) as [b2 e2]. cbn [fst snd].
    destruct e2; cbn [fst snd BytesWritten Records bw].
    + repeat split.
    + repeat split. unfold wrapU64. now rewrite Zplus_mod_idemp_r.
Qed.

(** C8 as the specification states it does not hold: on a writer whose
    buffered sink has recorded a failed flush (here the file under it was
    closed), [WriteItem] returns an error for an item that encodes. *)
Lemma write_item_error_without_encode_error :
  let w0 := NewWriter (mkFile [] true) in
  let w1 := fst (WriteItem w0 zeroItem) in
  let w2 := fst (Flush w1) in
  (exists buf, encodeItemInto [] zeroItem = inl buf) /\
  snd (WriteItem w2 zeroItem) = Some SinkFailed /\
  ~ (forall (w : Writer) (it : Item),
       snd (WriteItem w it) <> None <-> exists e, encodeItemInto [] it = inr e).
Proof.
  cbv zeta. split; [eexists; reflexivity|]. split; [reflexivity|].
  intros H.
  destruct (proj1 (H (fst (Flush (fst (WriteItem (NewWriter (mkFile [] true)) zeroItem))))
                     zeroItem)) as [e He].
  - discriminate.
  - discriminate.
Qed.

(** ** [json.Number] *)

Lemma rowSet_values (P : any -> Prop) k v r :
  P v -> Forall (fun f => P (snd f)) r -> Forall (fun f => P (snd f)) (rowSet k v r).
Proof.
  intros Hv. induction r as [|[k' v'] r IH]; intros Hr; cbn [rowSet].
  - repeat constructor. exact Hv.
  - inversion Hr; subst. destruct (String.eqb k' k).
    + constructor; assumption.
    + constructor; [assumption|]. now apply IH.
Qed.

Lemma readPairs_values st pairs :
  Forall (fun f => exists jv, snd f = anyOf jv) (snd (fst (readPairs st pairs))).
Proof.
  unfold readPairs. destruct pairs as [|[k0 v0] rest]; [constructor|].
  destruct (trackKey st v0) as [pk st']. cbn [fst snd].
  assert (G : forall m, Forall (fun f => exists jv, snd f = anyOf jv) m ->
    Forall (fun f => exists jv, snd f = anyOf jv)
      (fold_left (fun m p => rowSet (fst p) (anyOf (snd p)) m) rest m)).
  { induction rest as [|[k v] rest IH]; intros m Hm; cbn [fold_left].
    - assumption.
    - apply IH. cbn [fst snd].
      apply (rowSet_values (fun a => exists jv, a = anyOf jv)); [|assumption].
      now exists v. }
  apply G. constructor.
Qed.

Lemma parseDigits_nondigit s c :
  In c (list_ascii_of_string s) -> digit c = None ->
  forall acc, parseDigits s acc = None.
Proof.
  induction s as [|a s IH]; cbn [list_ascii_of_string parseDigits];
    intros Hin Hc acc; [contradiction|].
  destruct Hin as [->|Hin]; [now rewrite Hc|].
  destruct (digit a); [now apply IH|reflexivity].
Qed.

(** [Int64] fails on a literal with a fraction or an exponent. *)
Lemma ParseInt_nondigit s c :
  In c (list_ascii_of_string s) ->
  c = "."%char \/ c = "e"%char \/ c = "E"%char ->
  ParseInt s = None.
Proof.
  intros Hin Hc.
  assert (Hd : digit c = None) by (destruct Hc as [-> | [-> | ->]]; reflexivity).
  assert (Hp : c <> "+"%char) by (destruct Hc as [-> | [-> | ->]]; discriminate).
  assert (Hm : c <> "-"%char) by (destruct Hc as [-> | [-> | ->]]; discriminate).
  destruct s as [|a s]; [contradiction|]. cbn [ParseInt].
  assert (Htail : a <> c -> forall neg : bool,
    match s with
    | EmptyString => None
    | String _ _ =>
        match parseDigits s 0 with
        | None => None
        | Some u =>
            let v := if neg then - u else u in
            if (MinInt64 <=? v) && (v <=? MaxInt64) then Some v else None
        end
    end = @None Z).
  { intros Hne neg. cbn [list_ascii_of_string] in Hin.
    destruct Hin as [E|Hin]; [contradiction|].
    rewrite (parseDigits_nondigit s c Hin Hd). now destruct s. }
  destruct (Ascii.eqb a "+") eqn:Eplus.
  - apply Ascii.eqb_eq in Eplus. subst a.
    apply (Htail (fun E => Hp (eq_sym E)) false).
  - destruct (Ascii.eqb a "-") eqn:Eminus.
    + apply Ascii.eqb_eq in Eminus. subst a.
      apply (Htail (fun E => Hm (eq_sym E)) true).
    + now rewrite (parseDigits_nondigit (String a s) c Hin Hd).
Qed.

(** C10. A [json.Number] whose [Int64] conversion fails, as it does on
    every literal with a fraction or an exponent, is written with the
    string tag 4, a [u32] length and the literal's text; and no value the
    JSON pipeline puts in a row (every number being a [json.Number]) is
    written with the float tag 3. *)
Theorem json_number_never_float (s : string) (dst : list byte) :
  ParseInt s = None ->
  appendAny dst (ANumber s)
  = inl (dst ++ [byteZ tagString] ++ le_bytes 4 (slen s mod 2 ^ 32)
             ++ list_byte_of_string s) /\
  (forall (v : jval) (d out : list byte),
     appendAny d (anyOf v) = inl out ->
     exists tag payload,
       out = d ++ byteZ tag :: payload /\ tag <> tagFloat /\
       In tag [tagNil; tagBool; tagInt64; tagString; tagJSON]) /\
  (forall st pairs,
     Forall (fun f => exists jv, snd f = anyOf jv) (snd (fst (readPairs st pairs)))) /\
  (forall literal c,
     In c (list_ascii_of_string literal) ->
     c = "."%char \/ c = "e"%char \/ c = "E"%char ->
     ParseInt literal = None).
Proof.
  intros Hs. split; [|split; [|split; [|exact ParseInt_nondigit]]].
  - cbn [appendAny]. rewrite Hs. unfold appendU32, wrapU32.
    now rewrite <- !app_assoc.
  - intros v d out H. destruct v as [| b | n | x | m]; cbn [anyOf appendAny] in H.
    + inversion H. exists tagNil, []. repeat split; [discriminate|simpl; tauto].
    + inversion H. exists tagBool, [byteZ (if b then 1 else 0)].
      repeat split; [discriminate|simpl; tauto].
    + destruct (ParseInt n) as [i|]; inversion H.
      * exists tagInt64, (le_bytes 8 (wrapU64 i)). unfold appendI64.
        rewrite <- app_assoc. repeat split; [discriminate|simpl; tauto].
      * exists tagString, (le_bytes 4 (wrapU32 (slen n)) ++ list_byte_of_string n).
        unfold appendU32. rewrite <- !app_assoc.
        repeat split; [discriminate|simpl; tauto].
    + inversion H.
      exists tagString, (le_bytes 4 (wrapU32 (slen x)) ++ list_byte_of_string x).
      unfold appendU32. rewrite <- !app_assoc.
      repeat split; [discriminate|simpl; tauto].
    + destruct m as [b|]; inversion H.
      exists tagJSON, (le_bytes 4 (wrapU32 (len b)) ++ b).
      unfold appendU32. rewrite <- !app_assoc.
      repeat split; [discriminate|simpl; tauto].
  - apply readPairs_values.
Qed.

Lemma json_number_never_float_witness :
  ParseInt "3.5" = None /\
  (appendAny [] (ANumber "3.5")
   = inl ([] ++ [byteZ tagString] ++ le_bytes 4 (slen "3.5" mod 2 ^ 32)
             ++ list_byte_of_string "3.5") /\
  (forall (v : jval) (d out : list byte),
     appendAny d (anyOf v) = inl out ->
     exists tag payload,
       out = d ++ byteZ tag :: payload /\ tag <> tagFloat /\
       In tag [tagNil; tagBool; tagInt64; tagString; tagJSON]) /\
  (forall st pairs,
     Forall (fun f => exists jv, snd f = anyOf jv) (snd (fst (readPairs st pairs)))) /\
  (forall literal c,
     In c (list_ascii_of_string literal) ->
     c = "."%char \/ c = "e"%char \/ c = "E"%char ->
     ParseInt literal = None)).
Proof.
  split; [reflexivity|].
  apply (json_number_never_float "3.5" []). reflexivity.
Defined.

(** ** The buffered sink without errors *)

Lemma bufWrite_sound b p :
  closed (wr b) = false -> failed b = false ->
  exists b',
    bufWrite b p = (b', false) /\
    closed (wr b') = false /\ failed b' = false /\
    content (wr b') ++ pending b' = content (wr b) ++ pending b ++ p.
Proof.
  destruct b as [[c cl] pend fl]. cbn [wr closed failed content pending].
  intros -> ->.
  assert (Hdirect : forall c0 q,
    exists b', (let '(b1, p1) := bufWriteLoop 1 (mkBuf (mkFile c0 false) [] false) q in
                if failed b1 then (b1, true)
                else (mkBuf (wr b1) (pending b1 ++ p1) false, false)) = (b', false) /\
               closed (wr b') = false /\ failed b' = false /\
               content (wr b') ++ pending b' = c0 ++ q).
  { intros c0 q. cbn [bufWriteLoop failed negb pending wr]. rewrite andb_true_r.
    destruct (available (mkBuf (mkFile c0 false) [] false) <? len q).
    - cbn [fileWrite closed content bufWriteLoop failed pending wr].
      eexists. split; [reflexivity|]. cbn [wr closed failed content pending].
      repeat split. now rewrite !app_nil_r.
    - cbn [failed pending wr]. eexists. split; [reflexivity|].
      cbn [wr closed failed content pending]. repeat split. }
  unfold bufWrite. cbn [bufWriteLoop failed negb pending wr]. rewrite andb_true_r.
  destruct (available (mkBuf (mkFile c false) pend false) <? len p) eqn:Hav.
  - destruct pend as [|x pend].
    + cbn [fileWrite closed content].
      destruct (Hdirect (c ++ p) []) as (b' & Hb & Hc & Hf & Hcont).
      exists b'. split; [exact Hb|]. split; [assumption|]. split; [assumption|].
      rewrite Hcont. now rewrite app_nil_r.
    + set (k := Z.to_nat (available (mkBuf (mkFile c false) (x :: pend) false))).
      cbn [bufFlush failed pending wr app fileWrite closed content fst].
      destruct (Hdirect (c ++ x :: pend ++ firstn k p) (skipn k p))
        as (b' & Hb & Hc & Hf & Hcont).
      exists b'. split; [exact Hb|]. split; [assumption|]. split; [assumption|].
      rewrite Hcont. rewrite <- !app_assoc. cbn [app].
      rewrite <- !app_assoc. now rewrite firstn_skipn.
  - cbn [failed pending wr]. eexists. split; [reflexivity|].
    cbn [wr closed failed content pending]. repeat split.
Qed.

Lemma WriteItem_sound w it :
  sound w -> encodable it = true ->
  exists w' f,
    WriteItem w it = (w', None) /\ frameOf it = Some f /\
    sound w' /\ accepted w' = accepted w ++ f /\
    BytesWritten w' = wrapU64 (BytesWritten w + recBytes it).
Proof.
  unfold sound, accepted, encodable, frameOf, recBytes, WriteItem.
  intros [Hc Hf] Henc.
  destruct (encodeItemInto [] it) as [buf|e]; [|discriminate].
  destruct (bufWrite_sound (bw w) (le_bytes 4 (wrapU32 (len buf))) Hc Hf)
    as (b1 & Hw1 & Hc1 & Hf1 & Hcont1).
  rewrite Hw1.
  destruct (bufWrite_sound b1 buf Hc1 Hf1) as (b2 & Hw2 & Hc2 & Hf2 & Hcont2).
  rewrite Hw2.
  eexists _, _. split; [reflexivity|]. split; [reflexivity|].
  cbn [bw BytesWritten]. split; [split; assumption|]. split; [|reflexivity].
  rewrite Hcont2, app_assoc, Hcont1. now rewrite <- !app_assoc.
Qed.

Lemma Close_sound w : sound w -> written (fst (Close w)) = accepted w.
Proof.
  unfold sound, written, accepted, Close, bufFlush.
  destruct w as [[[c cl] pend fl] bytes recs].
  cbn [bw wr closed failed content pending]. intros [-> ->].
  destruct pend as [|x pend]; cbn [fileWrite fileClose closed content fst wr bw].
  - now rewrite app_nil_r.
  - reflexivity.
Qed.

(** ** [iteratorWriter] *)

(** Whatever the writer does, the loop ends, having taken a prefix of
    what the cursor had left. *)
Lemma iteratorWriter_total t brk : forall fuel it spw,
  framesOk t it -> (length (remaining it) < fuel)%nat ->
  exists ret it' spw' taken,
    iteratorWriter fuel it spw brk = Ok (ret, it', spw') /\
    framesOk t it' /\ remaining it = taken ++ remaining it'.
Proof.
  induction fuel as [|fuel IH]; intros it spw Hok Hfuel; [lia|].
  cbn [iteratorWriter].
  destruct (Next_spec t it Hok) as (r & it1 & Hnext & Hok1 & Hrem).
  rewrite Hnext. cbn [bind]. destruct r as [item|].
  - destruct (WriteItem spw item) as [spw1 werr].
    set (spw2 := match werr with Some _ => fst (Close spw1) | None => spw1 end).
    destruct ((brk <=? BytesWritten spw2) && negb (brk =? 0)).
    + exists (PK item), it1, (fst (Close spw2)), [item].
      split; [reflexivity|]. split; [assumption|]. now rewrite Hrem.
    + destruct (IH it1 spw2 Hok1) as (ret & it' & spw' & taken & Hrun & Hok' & Hrem').
      { rewrite Hrem in Hfuel. simpl in Hfuel. lia. }
      exists ret, it', spw', (item :: taken).
      split; [assumption|]. split; [assumption|].
      rewrite Hrem, Hrem'. reflexivity.
  - exists 0, it1, (fst (Close spw)), [].
    split; [reflexivity|]. split; [assumption|].
    destruct (Next_spec t it1 Hok1) as (r' & it2 & _ & _ & _).
    rewrite Hrem. cbn [app]. symmetry.
    (* an exhausted cursor has an empty stack *)
    clear -Hnext. revert it1 Hnext.
    induction it as [|[x i] rest IHit]; intros it1 Hnext; cbn [Next] in Hnext.
    + inversion Hnext. reflexivity.
    + destruct (nth_error (items x) i).
      * destruct (leaf x); [discriminate|].
        destruct (nth_error (children x) (S i)) as [c|]; [|discriminate].
        destruct (pushLeft c _); discriminate.
      * now apply IHit.
Qed.

(** Without write errors the loop writes the records up to the cut and
    leaves the rest in the cursor. *)
Lemma iteratorWriter_sound t brk : forall fuel it spw,
  framesOk t it -> (length (remaining it) < fuel)%nat ->
  sound spw -> forallb encodable (remaining it) = true ->
  exists it' spw',
    let '(lo, up, ret) := cut brk (BytesWritten spw) (remaining it) in
    iteratorWriter fuel it spw brk = Ok (ret, it', spw') /\
    framesOk t it' /\ remaining it' = up /\
    written spw' = accepted spw ++ segmentBytes lo.
Proof.
  induction fuel as [|fuel IH]; intros it spw Hok Hfuel Hsound Henc; [lia|].
  cbn [iteratorWriter].
  destruct (Next_spec t it Hok) as (r & it1 & Hnext & Hok1 & Hrem).
  rewrite Hnext. cbn [bind]. destruct r as [item|].
  - rewrite Hrem in Henc, Hfuel |- *. cbn [forallb] in Henc.
    apply andb_prop in Henc. destruct Henc as [Hitem Henc].
    destruct (WriteItem_sound spw item Hsound Hitem)
      as (spw1 & f & Hw & Hf & Hsound1 & Hacc & Hbytes).
    rewrite Hw. cbn [cut]. rewrite <- Hbytes.
    destruct ((brk <=? BytesWritten spw1) && negb (brk =? 0)).
    + exists it1, (fst (Close spw1)). split; [reflexivity|].
      split; [assumption|]. split; [reflexivity|].
      rewrite (Close_sound _ Hsound1), Hacc. cbn [segmentBytes].
      rewrite Hf. now rewrite app_nil_r.
    + destruct (IH it1 spw1 Hok1) as (it' & spw' & Hrun);
        [simpl in Hfuel; lia|assumption|assumption|].
      destruct (cut brk (BytesWritten spw1) (remaining it1)) as [[lo up] ret].
      destruct Hrun as (Hrun & Hok' & Hup & Hwritten).
      exists it', spw'. split; [assumption|]. split; [assumption|].
      split; [assumption|].
      rewrite Hwritten, Hacc. cbn [segmentBytes]. rewrite Hf.
      now rewrite <- app_assoc.
  - rewrite Hrem. cbn [cut].
    destruct (iteratorWriter_total t brk (S fuel) it spw Hok Hfuel)
      as (ret & it' & spw' & taken & Hrun & Hok' & Hrem').
    cbn [iteratorWriter] in Hrun. rewrite Hnext in Hrun. cbn [bind] in Hrun.
    inversion Hrun; subst.
    exists it', (fst (Close spw)). split; [reflexivity|]. split; [assumption|].
    split.
    + rewrite Hrem in Hrem'. destruct taken; [|discriminate].
      cbn [app] in Hrem'. now symmetry.
    + rewrite (Close_sound _ Hsound). cbn [segmentBytes]. now rewrite app_nil_r.
Qed.

(** ** [writeMapToFile] *)

Lemma cut_app brk w l :
  let '(lo, up, _) := cut brk w l in l = lo ++ up.
Proof.
  revert w; induction l as [|it l IH]; intros w; cbn [cut].
  - reflexivity.
  - destruct ((brk <=? wrapU64 (w + recBytes it)) && negb (brk =? 0)).
    + reflexivity.
    + specialize (IH (wrapU64 (w + recBytes it))).
      destruct (cut brk (wrapU64 (w + recBytes it)) l) as [[lo up] ret].
      cbn [app]. now rewrite <- IH.
Qed.

Lemma cut_zero w l : cut 0 w l = (l, [], 0).
Proof.
  revert w; induction l as [|it l IH]; intros w; cbn [cut].
  - reflexivity.
  - rewrite andb_false_r. now rewrite IH.
Qed.

Lemma segmentBytes_segment l :
  forallb encodable l = true -> segment l = Some (segmentBytes l).
Proof.
  induction l as [|it l IH]; intros H; cbn [segment segmentBytes].
  - reflexivity.
  - cbn [forallb] in H. apply andb_prop in H. destruct H as [Hit Hl].
    unfold encodable in Hit. destruct (frameOf it); [|discriminate].
    now rewrite (IH Hl).
Qed.

Lemma forallb_app_inv {A : Type} (f : A -> bool) l1 l2 :
  forallb f (l1 ++ l2) = true -> forallb f l1 = true /\ forallb f l2 = true.
Proof. rewrite forallb_app. apply andb_prop. Qed.

(** The flush always runs to its end, and resets the session. *)
Lemma writeMapToFile_total st B :
  Inv (tr st) ->
  exists d', writeMapToFile st B = Ok (mkState (New 32) 0 0 0 false d').
Proof.
  intros Hinv. unfold writeMapToFile.
  destruct (IterAscend_spec (tr st) Hinv) as (it & Hit & Hok & Hrem).
  rewrite Hit. cbn [bind].
  assert (Hfuel : (length (remaining it) < S (Z.to_nat (Len (tr st))))%nat).
  { rewrite Hrem. destruct Hinv as (_ & _ & Hn & _). unfold Len, len in *. lia. }
  destruct (iteratorWriter_total (t (tr st)) (B / 2) _ it createNewWriter Hok Hfuel)
    as (ret & it1 & spw1 & taken & Hrun & Hok1 & Hrem1).
  rewrite Hrun. cbn [bind].
  destruct (Next_spec (t (tr st)) it1 Hok1) as (r & it2 & Hnext & Hok2 & Hrem2).
  rewrite Hnext. cbn [bind]. destruct r as [item|].
  - destruct (WriteItem createNewWriter item) as [spw2 werr].
    assert (Hfuel2 : (length (remaining it2) < S (Z.to_nat (Len (tr st))))%nat).
    { rewrite Hrem1, Hrem2, length_app in Hfuel. simpl in Hfuel. lia. }
    destruct (iteratorWriter_total (t (tr st)) 0 _ it2
                (match werr with Some _ => fst (Close spw2) | None => spw2 end)
                Hok2 Hfuel2)
      as (ret' & it3 & spw4 & taken' & Hrun' & _ & _).
    rewrite Hrun'. cbn [bind]. eexists. reflexivity.
  - eexists. reflexivity.
Qed.

(** Without write errors: the lower file holds the records up to the cut,
    the upper file, if any record is left, the others. *)
Lemma writeMapToFile_sound st B :
  Inv (tr st) -> forallb encodable (flat (root (tr st))) = true ->
  let '(lo, up, ret) := cut (B / 2) 0 (flat (root (tr st))) in
  let d1 := renameFile (LowerName (minKey st)) (SegName (minKey st) ret)
              (dirStore (LowerName (minKey st)) (segmentBytes lo) (dir st)) in
  writeMapToFile st B
  = Ok (mkState (New 32) 0 0 0 false
          match up with
          | [] => d1
          | u :: _ => dirStore (SegName (PK u) (maxKey st)) (segmentBytes up) d1
          end).
Proof.
  intros Hinv Henc. unfold writeMapToFile.
  destruct (IterAscend_spec (tr st) Hinv) as (it & Hit & Hok & Hrem).
  rewrite Hit. cbn [bind].
  assert (Hfuel : (length (remaining it) < S (Z.to_nat (Len (tr st))))%nat).
  { rewrite Hrem. destruct Hinv as (_ & _ & Hn & _). unfold Len, len in *. lia. }
  assert (Hnew : sound createNewWriter) by (split; reflexivity).
  rewrite <- Hrem in Henc |- *.
  destruct (iteratorWriter_sound (t (tr st)) (B / 2) _ it createNewWriter
              Hok Hfuel Hnew Henc) as (it1 & spw1 & Hrun).
  change (BytesWritten createNewWriter) with 0 in Hrun.
  pose proof (cut_app (B / 2) 0 (remaining it)) as Happ.
  destruct (cut (B / 2) 0 (remaining it)) as [[lo up] ret].
  destruct Hrun as (Hrun & Hok1 & Hup & Hwritten).
  rewrite Hrun. cbn [bind]. rewrite Hwritten.
  change (accepted createNewWriter) with (@nil byte). cbn [app].
  destruct (Next_spec (t (tr st)) it1 Hok1) as (r & it2 & Hnext & Hok2 & Hrem2).
  rewrite Hnext. cbn [bind]. rewrite Hup in Hrem2.
  destruct r as [item|].
  - rewrite Hrem2. rewrite Happ, Hrem2 in Henc, Hfuel.
    apply forallb_app_inv in Henc. destruct Henc as [_ Henc].
    cbn [forallb] in Henc. apply andb_prop in Henc. destruct Henc as [Hitem Henc2].
    destruct (WriteItem_sound createNewWriter item Hnew Hitem)
      as (spw2 & f & Hw & Hf & Hsound2 & Hacc & _).
    rewrite Hw.
    assert (Hfuel2 : (length (remaining it2) < S (Z.to_nat (Len (tr st))))%nat).
    { rewrite length_app in Hfuel. simpl in Hfuel. lia. }
    destruct (iteratorWriter_sound (t (tr st)) 0 _ it2 spw2 Hok2 Hfuel2 Hsound2 Henc2)
      as (it3 & spw4 & Hrun2).
    rewrite cut_zero in Hrun2. destruct Hrun2 as (Hrun2 & _ & _ & Hwritten2).
    rewrite Hrun2. cbn [bind resetInMemoryState dir PK].
    rewrite Hwritten2, Hacc. cbn [segmentBytes app]. rewrite Hf.
    reflexivity.
  - rewrite Hrem2. reflexivity.
Qed.

Lemma cut_lower_below brk w l :
  ascending l ->
  let '(lo, up, _) := cut brk w l in
  forall a b, In a lo -> In b up -> PK a < PK b.
Proof.
  intros Hs. pose proof (cut_app brk w l) as Happ.
  destruct (cut brk w l) as [[lo up] ret]. subst l.
  apply ascending_app in Hs. tauto.
Qed.

Lemma built_unique t0 its tr :
  is_int t0 -> upserts (New t0) its = Ok tr -> Inv tr.
Proof.
  intros Ht H. destruct (built_Inv t0 its Ht) as (tr' & H' & Hinv & _).
  rewrite H in H'. inversion H'. now subst.
Qed.

Lemma is_int_32 : is_int 32.
Proof. unfold is_int, MinInt64, MaxInt64. lia. Qed.

(** ** The state across a pass *)

Lemma writeMapToFile_resets st B st' :
  writeMapToFile st B = Ok st' ->
  tr st' = New 32 /\ currentMapSize st' = 0 /\ trackersReflect st' [].
Proof.
  unfold writeMapToFile. intros H.
  destruct (IterAscend (tr st)) as [it| |]; cbn [bind] in H; try discriminate.
  destruct (iteratorWriter _ it createNewWriter (B / 2)) as [[[ret it1] spw1]| |];
    cbn [bind] in H; try discriminate.
  destruct (Next it1) as [[r it2]| |]; cbn [bind] in H; try discriminate.
  destruct r as [item|].
  - destruct (WriteItem createNewWriter item) as [spw2 werr].
    destruct (iteratorWriter _ it2 _ 0) as [[[ret' it3] spw4]| |];
      cbn [bind] in H; try discriminate.
    inversion H. cbn. repeat split.
  - inversion H. cbn. repeat split.
Qed.

Lemma readPairs_tr st pairs :
  let '(_, _, st') := readPairs st pairs in
  tr st' = tr st /\ currentMapSize st' = currentMapSize st /\ dir st' = dir st.
Proof.
  unfold readPairs. destruct pairs as [|[k v] rest]; [repeat split|].
  unfold trackKey.
  destruct (if setMinMaxKey st then (minKey st, maxKey st) else _) as [mn mx].
  cbn. repeat split.
Qed.

Lemma ingestLine_Inv wtd B st ln :
  Inv (tr st) ->
  exists p,
    ingestLine wtd B st ln = Ok p /\
    match p with
    | Completed st' => Inv (tr st')
    | Exited st' => Inv (tr st')
    end.
Proof.
  intros Hinv. unfold ingestLine.
  assert (Hflush : exists st1,
    (if wtd && (B <? wrapU64 (lineLen ln + currentMapSize st))
     then writeMapToFile st B else Ok st) = Ok st1 /\ Inv (tr st1)).
  { destruct (wtd && (B <? wrapU64 (lineLen ln + currentMapSize st))).
    - destruct (writeMapToFile_total st B Hinv) as (d' & Hw).
      eexists. split; [exact Hw|]. cbn [tr]. apply New_Inv, is_int_32.
    - exists st. split; [reflexivity|assumption]. }
  destruct Hflush as (st1 & -> & Hinv1). cbn [bind].
  destruct (parsed ln) as [pairs|].
  - pose proof (readPairs_tr st1 pairs) as Hrp.
    destruct (readPairs st1 pairs) as [[pk tempMap] st2].
    destruct Hrp as (Htr & _). rewrite Htr.
    destruct (Upsert_spec (tr st1) (mkItem pk tempMap) Hinv1)
      as (tr' & old & rep & Hup & Hinv' & _).
    rewrite Hup. cbn [bind]. eexists. split; [reflexivity|]. exact Hinv'.
  - eexists. split; [reflexivity|]. exact Hinv1.
Qed.

Lemma ingestLines_Inv wtd B lines : forall st,
  Inv (tr st) ->
  exists p,
    ingestLines wtd B st lines = Ok p /\
    match p with
    | Completed st' => Inv (tr st')
    | Exited st' => Inv (tr st')
    end.
Proof.
  induction lines as [|ln lines IH]; intros st Hinv; cbn [ingestLines].
  - exists (Completed st). split; [reflexivity|assumption].
  - destruct (ingestLine_Inv wtd B st ln Hinv) as (p & -> & Hp). cbn [bind].
    destruct p as [st'|st'].
    + apply IH. exact Hp.
    + exists (Exited st'). split; [reflexivity|assumption].
Qed.

Lemma ingestLines_no_flush B lines : forall st p,
  ingestLines false B st lines = Ok p ->
  dir match p with Completed st' => st' | Exited st' => st' end = dir st.
Proof.
  induction lines as [|ln lines IH]; intros st p H; cbn [ingestLines] in H.
  - inversion H. reflexivity.
  - unfold ingestLine in H. cbn [andb bind] in H.
    destruct (parsed ln) as [pairs|].
    + pose proof (readPairs_tr st pairs) as Hrp.
      destruct (readPairs st pairs) as [[pk tempMap] st2].
      destruct Hrp as (_ & _ & Hdir).
      destruct (Upsert (tr st2) (mkItem pk tempMap)) as [[[tr' old] rep]| |];
        cbn [bind] in H; try discriminate.
      apply IH in H. cbn [dir] in H. congruence.
    + cbn [bind] in H. inversion H. reflexivity.
Qed.

(** ** When every file can be opened, and when one cannot *)

Lemma writeMapToFileOn_opens opens st B :
  opens (LowerName (minKey st)) = true ->
  (forall lo, opens (SegName lo (maxKey st)) = true) ->
  writeMapToFileOn opens st B = writeMapToFile st B.
Proof.
  intros Hlow Hup. unfold writeMapToFileOn, writeMapToFile, createNewWriterOn.
  rewrite Hlow. cbn [iteratorWriterOn].
  destruct (IterAscend (tr st)) as [it| |]; cbn [bind]; try reflexivity.
  destruct (iteratorWriter _ it createNewWriter (B / 2)) as [[[ret it1] spw1]| |];
    cbn [bind]; try reflexivity.
  destruct (Next it1) as [[r it2]| |]; cbn [bind]; try reflexivity.
  destruct r as [item|]; [|reflexivity].
  now rewrite Hup.
Qed.

Lemma ingestLineOn_opens opens wtd B st ln :
  (forall name, opens name = true) ->
  ingestLineOn opens wtd B st ln = ingestLine wtd B st ln.
Proof.
  intros H. unfold ingestLineOn, ingestLine.
  now rewrite (writeMapToFileOn_opens opens st B (H _) (fun lo => H _)).
Qed.

Lemma ingestLinesOn_opens opens wtd B lines : forall st,
  (forall name, opens name = true) ->
  ingestLinesOn opens wtd B st lines = ingestLines wtd B st lines.
Proof.
  induction lines as [|ln lines IH]; intros st H; cbn [ingestLinesOn ingestLines];
    [reflexivity|].
  rewrite (ingestLineOn_opens opens wtd B st ln H).
  destruct (ingestLine wtd B st ln) as [[st'|st']| |]; cbn [bind]; try reflexivity.
  now apply IH.
Qed.

Lemma importDataFromFileOn_opens opens st sizeBytes B lines :
  (forall name, opens name = true) ->
  importDataFromFileOn opens st sizeBytes B lines
  = importDataFromFile st sizeBytes B lines.
Proof.
  intros H. unfold importDataFromFileOn, importDataFromFile.
  rewrite (ingestLinesOn_opens opens _ B lines st H).
  destruct (ingestLines _ B st lines) as [[st'|st']| |]; cbn [bind]; try reflexivity.
  now rewrite (writeMapToFileOn_opens opens st' B (H _) (fun lo => H _)).
Qed.

(** A flush whose lower file cannot be created panics. *)
Lemma writeMapToFileOn_panics opens st B :
  Inv (tr st) -> opens (LowerName (minKey st)) = false ->
  writeMapToFileOn opens st B = Panic.
Proof.
  intros Hinv Hlow. unfold writeMapToFileOn, createNewWriterOn. rewrite Hlow.
  destruct (IterAscend_spec (tr st) Hinv) as (it & Hit & Hok & _).
  rewrite Hit. cbn [bind iteratorWriterOn].
  destruct (Next_spec (t (tr st)) it Hok) as (r & it1 & Hnext & _).
  rewrite Hnext. reflexivity.
Qed.

(** C4, as the code has it. When the input file is larger than the memory
    budget and the Index is non-empty at the end of the input, one final
    flush is performed.  When the files of every flush can be created,
    that flush returns and leaves the Index empty, and if moreover every
    buffered record encodes, it writes every buffered item, to the lower
    or to the upper file; a final flush whose lower file cannot be
    created panics instead.  When the input is not larger than the budget
    nothing is ever flushed: the pass ends with every record still in the
    Index and the directory as it was. *)
Theorem final_flush_gated (opens : fileName -> bool) (sizeBytes B : Z)
  (lines : list Line) :
  (forall name, opens name = true) ->
  if B <? sizeBytes then
    match ingestLinesOn opens true B initState lines with
    | Ok (Completed st1) =>
        if 0 <? Len (tr st1) then
          exists d',
            writeMapToFileOn opens st1 B = Ok (mkState (New 32) 0 0 0 false d') /\
            importDataFromFileOn opens initState sizeBytes B lines
            = Ok (Completed (mkState (New 32) 0 0 0 false d')) /\
            (forallb encodable (flat (root (tr st1))) = true ->
             exists lo up ret,
               lo ++ up = flat (root (tr st1)) /\
               d' = let d1 := renameFile (LowerName (minKey st1))
                                (SegName (minKey st1) ret)
                                (dirStore (LowerName (minKey st1))
                                   (segmentBytes lo) (dir st1)) in
                    match up with
                    | [] => d1
                    | u :: _ =>
                        dirStore (SegName (PK u) (maxKey st1)) (segmentBytes up) d1
                    end) /\
            (forall blocked : fileName -> bool,
               blocked (LowerName (minKey st1)) = false ->
               writeMapToFileOn blocked st1 B = Panic)
        else importDataFromFileOn opens initState sizeBytes B lines = Ok (Completed st1)
    | Ok (Exited st1) =>
        importDataFromFileOn opens initState sizeBytes B lines = Ok (Exited st1)
    | _ => False
    end
  else
    importDataFromFileOn opens initState sizeBytes B lines
    = ingestLinesOn opens false B initState lines /\
    forall p, ingestLinesOn opens false B initState lines = Ok p ->
      dir match p with Completed st' => st' | Exited st' => st' end = [].
Proof.
  intros Hopens.
  assert (Hinit : Inv (tr initState)) by (apply New_Inv, is_int_32).
  rewrite (importDataFromFileOn_opens opens initState sizeBytes B lines Hopens).
  rewrite !(ingestLinesOn_opens opens _ B lines initState Hopens).
  unfold importDataFromFile. destruct (B <? sizeBytes) eqn:Hlarge.
  - destruct (ingestLines_Inv true B lines initState Hinit) as (p & Hp & Hinv).
    rewrite Hp. cbn [bind]. destruct p as [st1|st1]; [|reflexivity].
    cbn [andb]. destruct (0 <? Len (tr st1)); [|reflexivity].
    destruct (writeMapToFile_total st1 B Hinv) as (d' & Hw).
    exists d'.
    rewrite (writeMapToFileOn_opens opens st1 B (Hopens _) (fun lo => Hopens _)).
    split; [exact Hw|]. rewrite Hw. cbn [bind].
    split; [reflexivity|]. split.
    + intros Henc.
      pose proof (writeMapToFile_sound st1 B Hinv Henc) as Hs.
      pose proof (cut_app (B / 2) 0 (flat (root (tr st1)))) as Happ.
      destruct (cut (B / 2) 0 (flat (root (tr st1)))) as [[lo up] ret].
      exists lo, up, ret. split; [now symmetry|].
      rewrite Hw in Hs. inversion Hs. reflexivity.
    + intros blocked Hb. exact (writeMapToFileOn_panics blocked st1 B Hinv Hb).
  - split.
    + destruct (ingestLines false B initState lines) as [[st'|st']| |];
        reflexivity.
    + intros p Hp. apply (ingestLines_no_flush B lines initState p Hp).
Qed.

Lemma final_flush_gated_witness :
  let opens := fun _ : fileName => true in
  let ln (k : string) := mkLine 150 (Some [("id"%string, JNumber k)]) in
  let lines := [ln "1"; ln "2"; ln "3"]%string in
  (forall name, opens name = true) /\
  exists st1 d',
    ingestLinesOn opens true 400 initState lines = Ok (Completed st1) /\
    writeMapToFileOn opens st1 400 = Ok (mkState (New 32) 0 0 0 false d') /\
    importDataFromFileOn opens initState 452 400 lines
    = Ok (Completed (mkState (New 32) 0 0 0 false d')).
Proof.
  cbv zeta. split; [reflexivity|].
  pose proof (final_flush_gated (fun _ => true) 452 400
                [mkLine 150 (Some [("id"%string, JNumber "1"%string)]);
                 mkLine 150 (Some [("id"%string, JNumber "2"%string)]);
                 mkLine 150 (Some [("id"%string, JNumber "3"%string)])]
                (fun _ => eq_refl)) as H.
  change (400 <? 452) with true in H. cbv iota in H.
  destruct (ingestLinesOn (fun _ => true) true 400 initState
              [mkLine 150 (Some [("id"%string, JNumber "1"%string)]);
               mkLine 150 (Some [("id"%string, JNumber "2"%string)]);
               mkLine 150 (Some [("id"%string, JNumber "3"%string)])])
    as [[st1|st1]| |] eqn:Hrun; try (vm_compute in Hrun; discriminate).
  destruct (0 <? Len (tr st1)) eqn:Hlen.
  - destruct H as (d' & Hw & Himp & _). exists st1, d'. now repeat split.
  - vm_compute in Hrun. injection Hrun as <-. vm_compute in Hlen. discriminate.
Defined.

(** C4 as the specification states it does not hold: a one-line input
    that fits the budget leaves its record in the Index, and nothing is
    flushed. *)
Lemma final_flush_skipped_for_small_input :
  let lines := [mkLine 21 (Some [("id"%string, JNumber "7");
                                 ("x"%string, JString "abc")])] in
  exists st,
    importDataFromFile initState 22 1000 lines = Ok (Completed st) /\
    Len (tr st) = 1 /\ IsEmpty (tr st) = false /\ dir st = [].
Proof.
  cbv zeta. eexists. split; [vm_compute; reflexivity|].
  split; [reflexivity|]. split; reflexivity.
Qed.

(** C5. A flush should rename the lower file to the batch's minimum key
    and the key of the last item written to it, also when the cursor is
    exhausted before the threshold.  The code does not: in that case
    [iteratorWriter] returns 0, and the file is named with the maximum 0
    whatever keys it holds.  Three 150-byte lines with keys 1, 2, 3 under
    a budget of 400 bytes: the flush before the third line writes the
    keys 1 and 2 to the file named [1, 0], and the final flush writes the
    key 3 to the file named [3, 0]. *)
Lemma lower_segment_named_zero :
  let ln (k : string) := mkLine 150 (Some [("id"%string, JNumber k)]) in
  exists st b12 b3,
    importDataFromFile initState 452 400 [ln "1"; ln "2"; ln "3"]%string
    = Ok (Completed st) /\
    dir st = [(SegName 3 0, b3); (SegName 1 0, b12)] /\
    segment [mkItem 1 []; mkItem 2 []] = Some b12 /\
    segment [mkItem 3 []] = Some b3.
Proof.
  cbv zeta. eexists _, _, _. split; [vm_compute; reflexivity|].
  split; [reflexivity|]. split; reflexivity.
Qed.

(** ** The min/max trackers *)

Lemma trackKey_reflect st v keys :
  trackersReflect st keys ->
  let '(pk, st') := trackKey st v in
  pk = match ToInt v with Some i => i | None => 0 end /\
  trackersReflect st' (keys ++ [pk]).
Proof.
  unfold trackKey, trackersReflect. set (pk := match ToInt v with Some i => i | None => 0 end).
  destruct keys as [|k ks].
  - intros (-> & _ & _). cbn [app fold_left setMinMaxKey minKey maxKey].
    rewrite Z.ltb_irrefl. repeat split.
  - intros (-> & Hmn & Hmx). cbn [app setMinMaxKey minKey maxKey].
    rewrite !fold_left_app. cbn [fold_left]. rewrite <- Hmn, <- Hmx.
    split; [reflexivity|]. split; [reflexivity|]. split.
    + destruct (Z.ltb_spec pk (minKey st)); lia.
    + destruct (Z.ltb_spec (maxKey st) pk); lia.
Qed.

(** * Further properties of the index *)

(** ** Lookup after insertion *)

Lemma findPK_skip k a l1 l2 :
  PK a <> k -> findPK k (l1 ++ a :: l2) = findPK k (l1 ++ l2).
Proof.
  intros Hne. unfold findPK. induction l1 as [|b l1 IH]; cbn [app find].
  - replace (PK a =? k) with false by (symmetry; now apply Z.eqb_neq).
    reflexivity.
  - destruct (PK b =? k); [reflexivity|exact IH].
Qed.

Lemma findPK_after it old rep l l' k :
  ascending l -> upserted it old rep l l' ->
  findPK k l' = if PK it =? k then Some it else findPK k l.
Proof.
  intros Hs Hup. pose proof (upserted_ascending _ _ _ _ _ Hup Hs) as Hs'.
  destruct Hup as (l1 & l2 & -> & H).
  destruct (Z.eqb_spec (PK it) k) as [E|Hne].
  - now apply findPK_hit.
  - rewrite (findPK_skip k it l1 l2 Hne). destruct rep.
    + destruct H as [-> Hpk]. symmetry. apply findPK_skip. congruence.
    + destruct H as (-> & _). reflexivity.
Qed.

Lemma Get_after_Upsert tr it tr' old rep k :
  Inv tr -> Upsert tr it = Ok (tr', old, rep) ->
  Inv tr' /\
  Get tr' k = if PK it =? k then Ok (Some (row it)) else Get tr k.
Proof.
  intros Hinv Hup.
  destruct (Upsert_spec tr it Hinv) as (tr1 & old1 & rep1 & Hup1 & Hinv1 & _ & Hupd & _).
  rewrite Hup in Hup1. inversion Hup1; subst tr1 old1 rep1.
  split; [assumption|].
  rewrite (Get_spec tr' k Hinv1), (Get_spec tr k Hinv).
  pose proof Hinv as (_ & Hs & _).
  rewrite (findPK_after it old rep _ _ k Hs Hupd).
  now destruct (PK it =? k).
Qed.

(** X1. On any tree built by [New] and [Upsert]s, after [Upsert(it)] a
    [Get] of [it]'s key returns [it]'s row, and a [Get] of any other key
    returns what it returned before. *)
Theorem upsert_then_get (t0 : Z) (its : list Item) (it : Item) (k : Z) :
  is_int t0 ->
  exists tr tr' old replaced,
    upserts (New t0) its = Ok tr /\
    Upsert tr it = Ok (tr', old, replaced) /\
    Get tr' (PK it) = Ok (Some (row it)) /\
    (k <> PK it -> Get tr' k = Get tr k).
Proof.
  intros Ht.
  destruct (built_Inv t0 its Ht) as (tr & Hup & Hinv & _).
  destruct (Upsert_spec tr it Hinv) as (tr' & old & rep & Hu & _).
  exists tr, tr', old, rep. split; [assumption|]. split; [assumption|]. split.
  - destruct (Get_after_Upsert tr it tr' old rep (PK it) Hinv Hu) as [_ ->].
    now rewrite Z.eqb_refl.
  - intros Hne.
    destruct (Get_after_Upsert tr it tr' old rep k Hinv Hu) as [_ ->].
    replace (PK it =? k) with false by (symmetry; apply Z.eqb_neq; congruence).
    reflexivity.
Qed.

Lemma upsert_then_get_witness :
  is_int 2 /\
  exists tr tr' old replaced,
    upserts (New 2) (map (fun k => mkItem k []) [10; 20; 5; 6]) = Ok tr /\
    Upsert tr (mkItem 12 [("a"%string, ANil)]) = Ok (tr', old, replaced) /\
    Get tr' (PK (mkItem 12 [("a"%string, ANil)]))
    = Ok (Some (row (mkItem 12 [("a"%string, ANil)]))) /\
    (20 <> PK (mkItem 12 [("a"%string, ANil)]) -> Get tr' 20 = Get tr 20).
Proof.
  assert (H : is_int 2) by (unfold is_int, MinInt64, MaxInt64; lia).
  split; [exact H|].
  exact (upsert_then_get 2 _ _ 20 H).
Defined.

Lemma Get_after_upserts its : forall tr k,
  Inv tr ->
  exists tr',
    upserts tr its = Ok tr' /\ Inv tr' /\
    Get tr' k = match lastRow k its with
                | Some r => Ok (Some r)
                | None => Get tr k
                end.
Proof.
  induction its as [|it its IH]; intros tr k Hinv; cbn [upserts lastRow].
  - exists tr. split; [reflexivity|split; [assumption|reflexivity]].
  - destruct (Upsert_spec tr it Hinv) as (tr1 & old & rep & Hu & _).
    destruct (Get_after_Upsert tr it tr1 old rep k Hinv Hu) as [Hinv1 Hget1].
    destruct (IH tr1 k Hinv1) as (tr' & Hups & Hinv' & Hget).
    exists tr'. rewrite Hu. cbn [bind].
    split; [assumption|]. split; [assumption|].
    rewrite Hget. destruct (lastRow k its); [reflexivity|].
    rewrite Hget1. now destruct (PK it =? k).
Qed.

Lemma Get_New t0 k : Get (New t0) k = Ok None.
Proof. reflexivity. Qed.

(** X2. The index is a map in which the last write wins: after any
    sequence of [Upsert]s, [Get(k)] returns the row of the last item
    upserted with key [k], and reports a miss when there was none. *)
Theorem get_last_write_wins (t0 : Z) (its : list Item) (k : Z) :
  is_int t0 ->
  exists tr,
    upserts (New t0) its = Ok tr /\ Get tr k = Ok (lastRow k its).
Proof.
  intros Ht.
  destruct (Get_after_upserts its (New t0) k (New_Inv t0 Ht))
    as (tr & Hup & _ & Hget).
  exists tr. split; [assumption|]. rewrite Hget, Get_New.
  now destruct (lastRow k its).
Qed.

Lemma get_last_write_wins_witness :
  is_int 2 /\
  exists tr,
    upserts (New 2)
      [mkItem 7 [("v"%string, AInt 1)]; mkItem 3 []; mkItem 7 [("v"%string, AInt 2)]]
    = Ok tr /\
    Get tr 7
    = Ok (lastRow 7
            [mkItem 7 [("v"%string, AInt 1)]; mkItem 3 [];
             mkItem 7 [("v"%string, AInt 2)]]).
Proof.
  assert (H : is_int 2) by (unfold is_int, MinInt64, MaxInt64; lia).
  split; [exact H|].
  exact (get_last_write_wins 2 _ 7 H).
Defined.

(** ** Counting *)

Lemma lastRow_In k its : lastRow k its <> None <-> In k (map PK its).
Proof.
  induction its as [|it its IH]; cbn [lastRow map In].
  - split; [congruence|tauto].
  - destruct (lastRow k its) as [r|].
    + split; [intros _; right; apply IH; discriminate|discriminate].
    + destruct (Z.eqb_spec (PK it) k) as [E|Hne].
      * split; [intros _; now left|discriminate].
      * split; [congruence|]. intros [E|H]; [contradiction|].
        apply IH in H. congruence.
Qed.

Lemma findPK_In k l : findPK k l <> None <-> In k (map PK l).
Proof.
  unfold findPK. split.
  - intros H. destruct (find (fun a => PK a =? k) l) as [a|] eqn:Hf; [|congruence].
    apply find_some in Hf. destruct Hf as [Ha Hk]. apply Z.eqb_eq in Hk.
    subst k. now apply in_map.
  - intros H Hf. apply in_map_iff in H. destruct H as (a & <- & Ha).
    apply (find_none _ _ Hf) in Ha. rewrite Z.eqb_refl in Ha. discriminate.
Qed.

Lemma built_keys t0 its :
  is_int t0 ->
  exists tr,
    upserts (New t0) its = Ok tr /\ Inv tr /\
    forall k, In k (map PK (flat (root tr))) <-> In k (map PK its).
Proof.
  intros Ht.
  destruct (built_Inv t0 its Ht) as (tr & Hup & Hinv & _).
  exists tr. split; [assumption|]. split; [assumption|]. intros k.
  destruct (Get_after_upserts its (New t0) k (New_Inv t0 Ht))
    as (tr' & Hup' & _ & Hget).
  rewrite Hup in Hup'. inversion Hup'; subst tr'.
  rewrite Get_New, (Get_spec tr k Hinv) in Hget.
  rewrite <- findPK_In, <- lastRow_In.
  destruct (lastRow k its), (findPK k (flat (root tr)));
    cbn [option_map] in Hget; try discriminate; split; congruence.
Qed.

(** X3. [Len()] is the number of distinct keys upserted so far. *)
Theorem len_counts_distinct_keys (t0 : Z) (its : list Item) :
  is_int t0 ->
  exists tr,
    upserts (New t0) its = Ok tr /\
    Len tr = len (nodup Z.eq_dec (map PK its)).
Proof.
  intros Ht. destruct (built_keys t0 its Ht) as (tr & Hup & Hinv & Hkeys).
  exists tr. split; [assumption|].
  destruct Hinv as (_ & Hs & Hn & _). unfold Len, len in *. rewrite Hn.
  rewrite <- (length_map PK (flat (root tr))). f_equal.
  apply Nat.le_antisymm.
  - apply NoDup_incl_length; [now apply ascending_NoDup|].
    intros k Hk. apply nodup_In. now apply Hkeys.
  - apply NoDup_incl_length; [apply NoDup_nodup|].
    intros k Hk. apply nodup_In in Hk. now apply Hkeys.
Qed.

Lemma len_counts_distinct_keys_witness :
  is_int 2 /\
  exists tr,
    upserts (New 2) (map (fun k => mkItem k []) [10; 20; 10; 6; 20; 30]) = Ok tr /\
    Len tr = len (nodup Z.eq_dec
                    (map PK (map (fun k => mkItem k []) [10; 20; 10; 6; 20; 30]))).
Proof.
  assert (H : is_int 2) by (unfold is_int, MinInt64, MaxInt64; lia).
  split; [exact H|].
  exact (len_counts_distinct_keys 2 _ H).
Defined.

(** X4. [IsEmpty()] answers [true] exactly when nothing was ever
    upserted, which is exactly when [Get] misses on every key. *)
Theorem is_empty_iff_nothing_upserted (t0 : Z) (its : list Item) :
  is_int t0 ->
  exists tr,
    upserts (New t0) its = Ok tr /\
    (IsEmpty tr = true <-> its = []) /\
    (IsEmpty tr = true <-> forall k, Get tr k = Ok None).
Proof.
  intros Ht. destruct (built_keys t0 its Ht) as (tr & Hup & Hinv & Hkeys).
  exists tr. split; [assumption|].
  pose proof Hinv as (_ & _ & Hn & _).
  assert (Hflat : IsEmpty tr = true <-> flat (root tr) = []).
  { unfold IsEmpty. rewrite Z.eqb_eq, Hn. unfold len.
    destruct (flat (root tr)); simpl; split; intros H;
      try reflexivity; try discriminate; lia. }
  split.
  - rewrite Hflat. split.
    + intros E. destruct its as [|it its]; [reflexivity|].
      assert (Hin : In (PK it) (map PK (flat (root tr))))
        by (apply Hkeys; now left).
      rewrite E in Hin. contradiction.
    + intros ->. destruct (flat (root tr)) as [|a l]; [reflexivity|].
      assert (Hin : In (PK a) (map PK (@nil Item)))
        by (apply Hkeys; now left).
      contradiction.
  - rewrite Hflat. split.
    + intros E k. rewrite (Get_spec tr k Hinv), E. reflexivity.
    + intros Hget. destruct (flat (root tr)) as [|a l] eqn:E; [reflexivity|].
      specialize (Hget (PK a)). rewrite (Get_spec tr (PK a) Hinv), E in Hget.
      unfold findPK in Hget. cbn [find] in Hget. rewrite Z.eqb_refl in Hget.
      discriminate.
Qed.

Lemma is_empty_iff_nothing_upserted_witness :
  is_int 32 /\
  exists tr,
    upserts (New 32) [mkItem 4 []] = Ok tr /\
    (IsEmpty tr = true <-> [mkItem 4 []] = []) /\
    (IsEmpty tr = true <-> forall k, Get tr k = Ok None).
Proof.
  split; [exact is_int_32|].
  exact (is_empty_iff_nothing_upserted 32 _ is_int_32).
Defined.

(** ** What [Upsert] returns *)

(** C6. [Upsert] of a key that was upserted before returns the item stored
    under it, which is the key with the row of the last [Upsert] of that
    key, with [replaced = true], and leaves [Len()] unchanged; [Upsert] of
    a key never upserted returns the zero item with [replaced = false] and
    adds exactly one to [Len()].  [Get] on the tree before the call tells
    the two cases apart. *)
Theorem upsert_replace_semantics (t0 : Z) (its : list Item) (it : Item) :
  is_int t0 ->
  exists tr tr' old replaced,
    upserts (New t0) its = Ok tr /\
    Upsert tr it = Ok (tr', old, replaced) /\
    Get tr (PK it) = Ok (lastRow (PK it) its) /\
    match lastRow (PK it) its with
    | Some r =>
        old = mkItem (PK it) r /\ replaced = true /\ Len tr' = Len tr
    | None =>
        old = zeroItem /\ replaced = false /\ Len tr' = Len tr + 1
    end.
Proof.
  intros Ht.
  destruct (Get_after_upserts its (New t0) (PK it) (New_Inv t0 Ht))
    as (tr & Hup & Hinv & Hget).
  assert (Hlast : Get tr (PK it) = Ok (lastRow (PK it) its)).
  { rewrite Hget, Get_New. now destruct (lastRow (PK it) its). }
  destruct (Upsert_spec tr it Hinv) as (tr' & old & rep & Hu & _ & _ & Hupd & Hn).
  exists tr, tr', old, rep. split; [assumption|]. split; [assumption|].
  split; [assumption|].
  rewrite (Get_spec tr (PK it) Hinv) in Hlast.
  pose proof Hinv as (_ & Hs & _).
  rewrite (findPK_upserted it old rep _ _ Hs Hupd) in Hlast.
  unfold Len. destruct rep; cbn [option_map] in Hlast.
  - injection Hlast as Hlast. rewrite <- Hlast.
    destruct Hupd as (l1 & l2 & _ & _ & Hpk).
    split; [|split; [reflexivity|lia]].
    destruct old as [k r]. cbn [PK row] in *. now subst.
  - injection Hlast as Hlast. rewrite <- Hlast.
    destruct Hupd as (l1 & l2 & _ & _ & Hz & _).
    split; [assumption|split; [reflexivity|lia]].
Qed.

Lemma upsert_replace_semantics_witness :
  is_int 2 /\
  exists tr tr' old replaced,
    upserts (New 2) [mkItem 10 []; mkItem 20 [("v"%string, AInt 1)]; mkItem 5 [];
                     mkItem 20 [("v"%string, AInt 2)]] = Ok tr /\
    Upsert tr (mkItem 20 [("a"%string, ANil)]) = Ok (tr', old, replaced) /\
    Get tr 20 = Ok (Some [("v"%string, AInt 2)]) /\
    old = mkItem 20 [("v"%string, AInt 2)] /\ replaced = true /\ Len tr' = Len tr.
Proof.
  assert (H : is_int 2) by (unfold is_int, MinInt64, MaxInt64; lia).
  split; [exact H|].
  exact (upsert_replace_semantics 2
           [mkItem 10 []; mkItem 20 [("v"%string, AInt 1)]; mkItem 5 [];
            mkItem 20 [("v"%string, AInt 2)]]
           (mkItem 20 [("a"%string, ANil)]) H).
Defined.

(** ** Separators *)

Lemma In_interleave_inv cs its a :
  In a (interleave cs its) -> In a its \/ exists c, In c cs /\ In a c.
Proof.
  revert its; induction cs as [|c cs IH]; intros its H; cbn [interleave] in H.
  - contradiction.
  - apply in_app_or in H. destruct H as [H|H].
    + right. exists c. split; [now left|assumption].
    + destruct its as [|it its]; [contradiction|].
      destruct H as [<-|H]; [left; now left|].
      destruct (IH its H) as [Hi|(c' & Hc' & Ha)].
      * left. now right.
      * right. exists c'. split; [now right|assumption].
Qed.

Lemma subtreeItems_flat t : forall h b x a,
  shape b t h x -> (In a (subtreeItems x) <-> In a (flat x)).
Proof.
  induction h as [|h IH]; intros b [l its cs] a Hsh; cbn [shape] in Hsh;
    cbn [subtreeItems flat].
  - destruct Hsh as (_ & -> & ->). cbn [flat_map]. now rewrite app_nil_r.
  - destruct Hsh as (_ & -> & Hlen & Hall). rewrite Forall_forall in Hall.
    rewrite in_app_iff, in_flat_map. split.
    + intros [Hi|(c & Hc & Ha)].
      * apply In_interleave_item; [rewrite length_map; lia|assumption].
      * apply (In_interleave_child _ _ (flat c)).
        -- rewrite length_map. lia.
        -- now apply in_map.
        -- apply (IH true c a (Hall c Hc)). assumption.
    + intros H. apply In_interleave_inv in H.
      destruct H as [Hi|(fc & Hfc & Ha)]; [now left|].
      apply in_map_iff in Hfc. destruct Hfc as (c & <- & Hc).
      right. exists c. split; [assumption|].
      apply (IH true c a (Hall c Hc)). assumption.
Qed.

(** Every node of a well-shaped ascending tree is well-shaped and
    ascending. *)
Lemma nodes_shaped t : forall h b x,
  shape b t h x -> ascending (flat x) ->
  forall y, In y (x :: descendants x) ->
    exists b' h', shape b' t h' y /\ ascending (flat y).
Proof.
  induction h as [|h IH]; intros b [l its cs] Hsh Hs y Hy;
    pose proof Hsh as Hsh0; cbn [shape] in Hsh.
  - destruct Hsh as (_ & -> & ->). destruct Hy as [<-|Hy].
    + exists b, O. split; assumption.
    + cbn [descendants flat_map] in Hy. contradiction.
  - destruct Hsh as (_ & -> & Hlen & Hall). destruct Hy as [<-|Hy].
    + exists b, (S h). split; assumption.
    + cbn [descendants] in Hy. apply in_flat_map in Hy.
      destruct Hy as (c & Hc & Hy).
      rewrite Forall_forall in Hall.
      destruct (In_nth_error _ _ Hc) as (j & Hj).
      apply (IH true c (Hall c Hc) (ascending_child its cs j c Hlen Hj Hs) y Hy).
Qed.

(** X5. In every internal node of a tree built by [New] and [Upsert]s,
    each item separates its two neighbouring subtrees: every key under
    [children[i]] is below [items[i].PK], and every key under
    [children[i+1]] is above it. *)
Theorem separators_split_subtrees (t0 : Z) (its : list Item) :
  is_int t0 ->
  exists tr,
    upserts (New t0) its = Ok tr /\
    forall x i m,
      In x (root tr :: descendants (root tr)) ->
      nth_error (items x) i = Some m ->
      (forall c a, nth_error (children x) i = Some c ->
                   In a (subtreeItems c) -> PK a < PK m) /\
      (forall c a, nth_error (children x) (S i) = Some c ->
                   In a (subtreeItems c) -> PK m < PK a).
Proof.
  intros Ht. destruct (built_Inv t0 its Ht) as (tr & Hup & Hinv & _).
  exists tr. split; [assumption|]. intros x i m Hx Hm.
  destruct Hinv as (_ & Hs & _ & h & Hsh & _).
  destruct (nodes_shaped (t tr) h false (root tr) Hsh Hs x Hx)
    as (b' & h' & Hshx & Hsx).
  destruct x as [l xits cs]. cbn [items children] in *.
  destruct h' as [|h']; cbn [shape] in Hshx.
  - destruct Hshx as (_ & _ & ->).
    split; intros c a Hc; destruct i; discriminate.
  - destruct Hshx as (_ & -> & Hlen & Hall). cbn [flat] in Hsx.
    pose proof (nth_error_lt _ _ _ Hm) as Hi.
    rewrite (interleave_cut (map flat cs) xits i m Hm) in Hsx
      by (rewrite length_map; lia).
    apply ascending_app in Hsx. destruct Hsx as (_ & Hright & Hleft).
    apply ascending_cons in Hright. destruct Hright as [_ Hright].
    rewrite Forall_forall in Hall.
    split; intros c a Hc Ha.
    + pose proof (nth_error_In _ _ Hc) as Hcin.
      apply (subtreeItems_flat (t tr) h' true c a (Hall c Hcin)) in Ha.
      apply (Hleft a m); [|now left].
      apply (In_interleave_child _ _ (flat c)).
      * rewrite !length_firstn, length_map. lia.
      * rewrite firstn_map. apply in_map.
        rewrite (nth_error_split cs i c Hc).
        rewrite firstn_app, length_firstn.
        pose proof (nth_error_lt _ _ _ Hc).
        replace (S i - Nat.min i (length cs))%nat with 1%nat by lia.
        apply in_or_app. right. now left.
      * assumption.
    + pose proof (nth_error_In _ _ Hc) as Hcin.
      apply (subtreeItems_flat (t tr) h' true c a (Hall c Hcin)) in Ha.
      apply Hright.
      apply (In_interleave_child _ _ (flat c)).
      * rewrite !length_skipn, length_map. lia.
      * rewrite skipn_map. apply in_map.
        rewrite (skipn_nth_error cs (S i) c Hc). now left.
      * assumption.
Qed.

Lemma separators_split_subtrees_witness :
  is_int 2 /\
  exists tr,
    upserts (New 2) (map (fun k => mkItem k []) [10; 20; 5; 6; 12; 30; 7; 17]) = Ok tr /\
    forall x i m,
      In x (root tr :: descendants (root tr)) ->
      nth_error (items x) i = Some m ->
      (forall c a, nth_error (children x) i = Some c ->
                   In a (subtreeItems c) -> PK a < PK m) /\
      (forall c a, nth_error (children x) (S i) = Some c ->
                   In a (subtreeItems c) -> PK m < PK a).
Proof.
  assert (H : is_int 2) by (unfold is_int, MinInt64, MaxInt64; lia).
  split; [exact H|].
  exact (separators_split_subtrees 2 _ H).
Defined.

(** ** The two traversals *)

Lemma visitUntil_collect l : forall acc, visitUntil collect acc l = acc ++ l.
Proof.
  induction l as [|it l IH]; intros acc; cbn [visitUntil collect].
  - now rewrite app_nil_r.
  - rewrite IH, <- app_assoc. reflexivity.
Qed.

(** X7. [AscendRange(lo, hi, ...)] visits what the cursor of
    [IterAscend] emits, restricted to the keys of [[lo, hi)] and in the
    same order. *)
Theorem range_scan_agrees_with_cursor (t0 : Z) (its : list Item) (lo hi : Z) :
  is_int t0 ->
  exists tr it out,
    upserts (New t0) its = Ok tr /\
    IterAscend tr = Ok it /\
    (forall fuel, (length out < fuel)%nat -> drain fuel it = Ok out) /\
    AscendRange lo hi collect tr [] = Ok (filter (inRange lo hi) out).
Proof.
  intros Ht. destruct (built_Inv t0 its Ht) as (tr & Hup & Hinv & _).
  destruct (IterAscend_spec tr Hinv) as (it & Hit & Hok & Hrem).
  exists tr, it, (flat (root tr)). split; [assumption|]. split; [assumption|].
  split.
  - intros fuel Hfuel. rewrite <- Hrem. apply (drain_spec (t tr)); [assumption|].
    now rewrite Hrem.
  - rewrite (AscendRange_spec lo hi collect tr [] Hinv).
    now rewrite visitUntil_collect.
Qed.

Lemma range_scan_agrees_with_cursor_witness :
  is_int 2 /\
  exists tr it out,
    upserts (New 2) (map (fun k => mkItem k []) [10; 20; 5; 6; 12; 30; 7; 17]) = Ok tr /\
    IterAscend tr = Ok it /\
    (forall fuel, (length out < fuel)%nat -> drain fuel it = Ok out) /\
    AscendRange 6 20 collect tr [] = Ok (filter (inRange 6 20) out).
Proof.
  assert (H : is_int 2) by (unfold is_int, MinInt64, MaxInt64; lia).
  split; [exact H|].
  exact (range_scan_agrees_with_cursor 2 _ 6 20 H).
Defined.

(** ** Insertion order *)

Lemma findPK_head a l k :
  findPK k (a :: l) = if PK a =? k then Some a else findPK k l.
Proof. reflexivity. Qed.

Lemma ascending_ext l1 : forall l2,
  ascending l1 -> ascending l2 ->
  (forall k, findPK k l1 = findPK k l2) -> l1 = l2.
Proof.
  induction l1 as [|a l1 IH]; intros [|b l2] H1 H2 Hf.
  - reflexivity.
  - specialize (Hf (PK b)). rewrite findPK_head, Z.eqb_refl in Hf. discriminate.
  - specialize (Hf (PK a)). rewrite findPK_head, Z.eqb_refl in Hf. discriminate.
  - apply ascending_cons in H1. destruct H1 as [H1 Ha].
    apply ascending_cons in H2. destruct H2 as [H2 Hb].
    assert (Hmiss : forall c l, (forall d, In d l -> PK c < PK d) ->
                                findPK (PK c) l = None).
    { intros c l Hc. apply findPK_miss. intros d Hd. specialize (Hc d Hd). lia. }
    assert (E : a = b).
    { pose proof (Hf (PK a)) as Ea. pose proof (Hf (PK b)) as Eb.
      rewrite !findPK_head, Z.eqb_refl in Ea, Eb.
      destruct (Z.eqb_spec (PK b) (PK a)) as [E|Hne]; [congruence|].
      destruct (Z.eqb_spec (PK a) (PK b)) as [E|_]; [congruence|].
      symmetry in Ea. unfold findPK in Ea, Eb.
      apply find_some in Ea, Eb.
      destruct Ea as [Ea _], Eb as [Eb _].
      specialize (Ha b Eb). specialize (Hb a Ea). lia. }
    subst b. f_equal. apply IH; try assumption.
    intros k. specialize (Hf k). rewrite !findPK_head in Hf.
    destruct (Z.eqb_spec (PK a) k) as [E|_]; [|assumption].
    rewrite <- E. now rewrite (Hmiss a l1 Ha), (Hmiss a l2 Hb).
Qed.

(** X8. What the cursor emits depends only on the last row written under
    each key: two sequences of [Upsert]s that agree on it, in whatever
    order and on trees of whatever minimum degrees, are iterated
    alike. *)
Theorem iteration_ignores_insertion_order
  (t1 t2 : Z) (its1 its2 : list Item) :
  is_int t1 -> is_int t2 ->
  (forall k, lastRow k its1 = lastRow k its2) ->
  exists tr1 tr2 it1 it2 out,
    upserts (New t1) its1 = Ok tr1 /\ upserts (New t2) its2 = Ok tr2 /\
    IterAscend tr1 = Ok it1 /\ IterAscend tr2 = Ok it2 /\
    forall fuel, (length out < fuel)%nat ->
      drain fuel it1 = Ok out /\ drain fuel it2 = Ok out.
Proof.
  intros Ht1 Ht2 Hlast.
  destruct (built_Inv t1 its1 Ht1) as (tr1 & Hup1 & Hinv1 & _).
  destruct (built_Inv t2 its2 Ht2) as (tr2 & Hup2 & Hinv2 & _).
  destruct (IterAscend_spec tr1 Hinv1) as (it1 & Hit1 & Hok1 & Hrem1).
  destruct (IterAscend_spec tr2 Hinv2) as (it2 & Hit2 & Hok2 & Hrem2).
  assert (E : flat (root tr1) = flat (root tr2)).
  { pose proof Hinv1 as (_ & Hs1 & _). pose proof Hinv2 as (_ & Hs2 & _).
    apply ascending_ext; try assumption. intros k.
    destruct (Get_after_upserts its1 (New t1) k (New_Inv t1 Ht1))
      as (tr1' & Hup1' & _ & Hget1).
    destruct (Get_after_upserts its2 (New t2) k (New_Inv t2 Ht2))
      as (tr2' & Hup2' & _ & Hget2).
    rewrite Hup1 in Hup1'. inversion Hup1'; subst tr1'.
    rewrite Hup2 in Hup2'. inversion Hup2'; subst tr2'.
    rewrite Get_New, (Get_spec _ k Hinv1) in Hget1.
    rewrite Get_New, (Get_spec _ k Hinv2) in Hget2.
    rewrite <- Hlast in Hget2.
    destruct (findPK k (flat (root tr1))) as [a|] eqn:Ea;
      destruct (findPK k (flat (root tr2))) as [b|] eqn:Eb;
      destruct (lastRow k its1); cbn [option_map] in *; try discriminate;
      try reflexivity.
    unfold findPK in Ea, Eb. apply find_some in Ea, Eb.
    destruct Ea as [_ Ea], Eb as [_ Eb]. apply Z.eqb_eq in Ea, Eb.
    destruct a as [ka ra], b as [kb rb]. cbn [PK row] in *.
    inversion Hget1. inversion Hget2. now subst. }
  exists tr1, tr2, it1, it2, (flat (root tr1)).
  repeat (split; [assumption|]).
  intros fuel Hfuel. split.
  - rewrite <- Hrem1. apply (drain_spec (t tr1)); [assumption|]. now rewrite Hrem1.
  - rewrite E in Hfuel |- *. rewrite <- Hrem2.
    apply (drain_spec (t tr2)); [assumption|]. now rewrite Hrem2.
Qed.

Lemma iteration_ignores_insertion_order_witness :
  let a := [mkItem 3 []; mkItem 1 [("x"%string, ANil)]; mkItem 2 []] in
  let b := [mkItem 1 []; mkItem 2 []; mkItem 1 [("x"%string, ANil)]; mkItem 3 []] in
  is_int 2 /\ is_int 5 /\ (forall k, lastRow k a = lastRow k b) /\
  exists tr1 tr2 it1 it2 out,
    upserts (New 2) a = Ok tr1 /\ upserts (New 5) b = Ok tr2 /\
    IterAscend tr1 = Ok it1 /\ IterAscend tr2 = Ok it2 /\
    forall fuel, (length out < fuel)%nat ->
      drain fuel it1 = Ok out /\ drain fuel it2 = Ok out.
Proof.
  cbv zeta.
  assert (H2 : is_int 2) by (unfold is_int, MinInt64, MaxInt64; lia).
  assert (H5 : is_int 5) by (unfold is_int, MinInt64, MaxInt64; lia).
  assert (Hl : forall k,
    lastRow k [mkItem 3 []; mkItem 1 [("x"%string, ANil)]; mkItem 2 []]
    = lastRow k [mkItem 1 []; mkItem 2 []; mkItem 1 [("x"%string, ANil)];
                 mkItem 3 []]).
  { intros k. cbn [lastRow PK row].
    destruct (Z.eqb_spec 2 k); destruct (Z.eqb_spec 1 k);
      destruct (Z.eqb_spec 3 k); try reflexivity; lia. }
  split; [exact H2|]. split; [exact H5|]. split; [exact Hl|].
  exact (iteration_ignores_insertion_order 2 5 _ _ H2 H5 Hl).
Defined.

(** ** Height *)

Lemma shape_leaf b t h x :
  shape b t h x -> leaf x = match h with O => true | S _ => false end.
Proof.
  destruct x as [l its cs]. destruct h; cbn [shape leaf]; intros (_ & -> & _);
    reflexivity.
Qed.

Lemma Upsert_rootHasItem tr it tr' old rep :
  Inv tr -> rootHasItem tr -> Upsert tr it = Ok (tr', old, rep) ->
  rootHasItem tr'.
Proof.
  destruct tr as [d r cnt]. unfold Inv, rootHasItem. cbn [t root n].
  intros (Ht & Hs & Hn & h & Hsh & Hreg) Hroot Hup.
  assert (Ht2 : 2 <= d) by lia.
  unfold Upsert in Hup. cbn [t root n] in Hup.
  assert (Hkeep : forall x',
    shape false d h x' -> len (items r) <= len (items x') ->
    leaf x' = false -> 1 <= len (items x')).
  { intros x' Hsh' Hle Hleaf.
    rewrite (shape_leaf _ _ _ _ Hsh') in Hleaf.
    rewrite <- (shape_leaf _ _ _ _ Hsh) in Hleaf.
    specialize (Hroot Hleaf). lia. }
  assert (Hregime : h = O \/ wrap64 (2 * d - 1) = 2 * d - 1)
    by (destruct Hreg as [[E _]|[_ E]]; [now right|now left]).
  destruct (full d r) eqn:Hfull.
  - destruct Hreg as [[Hwrap Hlen]|[Hwrap _]].
    + unfold full in Hfull. rewrite Hwrap in Hfull.
      apply Z.eqb_eq in Hfull. fold (len (items r)) in Hfull.
      assert (Hshr : shape true d h r) by (apply shape_bound; [assumption|lia]).
      destruct (splitChild_ok d h [] [r] O r Ht2 eq_refl (Nat.le_refl _) Hshr Hfull)
        as (y' & m & z & Hsplit & Hy' & Hz & Hly & Hlz & Hflat).
      rewrite Hsplit in Hup. cbn [bind] in Hup.
      change (insert_at 0 m []) with [m] in *.
      change (insert_at 1 z (set_at 0 y' [r])) with [y'; z] in *.
      assert (Hsh1 : shape false d (S h) (Node false [m] [y'; z])).
      { cbn [shape]. split; [discriminate|]. split; [reflexivity|].
        split; [reflexivity|]. repeat constructor; assumption. }
      destruct (insertNonFull_spec d Ht2 (S (height (Node false [m] [y'; z])))
                  (S h) false (Node false [m] [y'; z]) it)
        as (x' & old' & rep' & Hins & Hshx & Hlx & _).
      { rewrite (height_shape _ _ _ _ Hsh1). lia. }
      { now right. }
      { assumption. }
      { cbn [flat map interleave]. rewrite app_nil_r, <- Hflat. exact Hs. }
      rewrite Hins in Hup. cbn [bind] in Hup. inversion Hup; subst.
      cbn [root]. intros _.
      change (len (items (Node false [m] [y'; z]))) with 1 in Hlx. lia.
    + unfold full in Hfull. apply Z.eqb_eq in Hfull. lia.
  - destruct (insertNonFull_spec d Ht2 (S (height r)) h false r it)
      as (x' & old' & rep' & Hins & Hshx & Hlx & _).
    { rewrite (height_shape _ _ _ _ Hsh). lia. }
    { assumption. }
    { assumption. }
    { assumption. }
    rewrite Hins in Hup. cbn [bind] in Hup. inversion Hup; subst.
    cbn [root]. apply (Hkeep _ Hshx). lia.
Qed.

Lemma upserts_rootHasItem its : forall tr tr',
  Inv tr -> rootHasItem tr -> upserts tr its = Ok tr' -> rootHasItem tr'.
Proof.
  induction its as [|it its IH]; intros tr tr' Hinv Hroot Hup; cbn [upserts] in Hup.
  - inversion Hup; subst. assumption.
  - destruct (Upsert_spec tr it Hinv) as (tr1 & old & rep & Hu & Hinv1 & _).
    rewrite Hu in Hup. cbn [bind] in Hup.
    apply (IH tr1 tr' Hinv1); [|assumption].
    apply (Upsert_rootHasItem tr it tr1 old rep); assumption.
Qed.

Lemma interleave_count (m : Z) : forall cs its,
  Forall (fun c => m <= len c) cs -> length cs = S (length its) ->
  len its + len cs * m <= len (interleave cs its).
Proof.
  unfold len. induction cs as [|c cs IH]; intros its Hall Hlen; [discriminate|].
  inversion Hall as [|? ? Hc Hall']; subst.
  destruct its as [|it its]; cbn [interleave].
  - destruct cs; [|discriminate]. rewrite app_nil_r. simpl length. lia.
  - rewrite length_app. cbn [length].
    specialize (IH its Hall' ltac:(simpl in Hlen; lia)).
    rewrite !Nat2Z.inj_succ, Nat2Z.inj_add, Nat2Z.inj_succ. lia.
Qed.

Lemma subtree_count t : 2 <= t -> forall h x,
  shape true t h x -> t ^ (Z.of_nat h + 1) - 1 <= len (flat x).
Proof.
  intros Ht. induction h as [|h IH]; intros [l its cs] Hsh; cbn [shape] in Hsh;
    cbn [flat].
  - destruct Hsh as (Hb & -> & _). specialize (Hb eq_refl).
    change (Z.of_nat 0 + 1) with 1. rewrite Z.pow_1_r. lia.
  - destruct Hsh as (Hb & -> & Hlen & Hall). specialize (Hb eq_refl).
    assert (Hall' : Forall (fun c => t ^ (Z.of_nat h + 1) - 1 <= len c)
                      (map flat cs)).
    { rewrite Forall_map. eapply Forall_impl; [|exact Hall].
      intros c Hc. now apply IH. }
    pose proof (interleave_count _ (map flat cs) its Hall'
                  ltac:(now rewrite length_map)) as Hcount.
    assert (Hcs : len (map flat cs) = len its + 1)
      by (unfold len; rewrite length_map; lia).
    rewrite Hcs in Hcount.
    replace (Z.of_nat (S h) + 1) with (Z.succ (Z.of_nat h + 1)) by lia.
    rewrite Z.pow_succ_r by lia.
    pose proof (Z.pow_pos_nonneg t (Z.of_nat h + 1) ltac:(lia) ltac:(lia)) as Hp.
    nia.
Qed.

(** X6. A tree built by [New] and [Upsert]s is never taller than its
    size allows: a root at height [h >= 1] has at least [2 * t^h - 1]
    items below and in it. *)
Theorem height_is_logarithmic (t0 : Z) (its : list Item) :
  is_int t0 ->
  exists tr,
    upserts (New t0) its = Ok tr /\
    (height (root tr) = O \/
     2 * t tr ^ Z.of_nat (height (root tr)) <= Len tr + 1).
Proof.
  intros Ht. destruct (built_Inv t0 its Ht) as (tr & Hup & Hinv & _).
  exists tr. split; [assumption|].
  assert (Hroot : rootHasItem tr).
  { apply (upserts_rootHasItem its (New t0) tr (New_Inv t0 Ht)); [|assumption].
    intros H. discriminate. }
  destruct Hinv as (Ht2 & _ & Hn & h & Hsh & _).
  rewrite (height_shape _ _ _ _ Hsh). unfold Len. rewrite Hn.
  destruct h as [|h]; [now left|]. right.
  unfold rootHasItem in Hroot. rewrite (shape_leaf _ _ _ _ Hsh) in Hroot.
  specialize (Hroot eq_refl).
  destruct (root tr) as [l xits cs]. cbn [shape] in Hsh. cbn [items flat] in *.
  destruct Hsh as (_ & -> & Hlen & Hall).
  assert (Hall' : Forall (fun c => t tr ^ (Z.of_nat h + 1) - 1 <= len c)
                    (map flat cs)).
  { rewrite Forall_map. eapply Forall_impl; [|exact Hall].
    intros c Hc. apply subtree_count; [lia|assumption]. }
  pose proof (interleave_count _ (map flat cs) xits Hall'
                ltac:(now rewrite length_map)) as Hcount.
  assert (Hcs : len (map flat cs) = len xits + 1)
    by (unfold len; rewrite length_map; lia).
  rewrite Hcs in Hcount.
  replace (Z.of_nat (S h)) with (Z.of_nat h + 1) by lia.
  pose proof (Z.pow_pos_nonneg (t tr) (Z.of_nat h + 1) ltac:(lia) ltac:(lia)) as Hp.
  nia.
Qed.

Lemma height_is_logarithmic_witness :
  is_int 2 /\
  exists tr,
    upserts (New 2) (map (fun k => mkItem k []) [10; 20; 5; 6; 12; 30; 7; 17]) = Ok tr /\
    (height (root tr) = O \/
     2 * t tr ^ Z.of_nat (height (root tr)) <= Len tr + 1).
Proof.
  assert (H : is_int 2) by (unfold is_int, MinInt64, MaxInt64; lia).
  split; [exact H|].
  exact (height_is_logarithmic 2 _ H).
Defined.

(** * Further properties of the codec and the writer *)

(** ** Encoding appends *)

Lemma appendAny_app d1 d2 v :
  appendAny (d1 ++ d2) v =
  match appendAny d2 v with
  | inl out => inl (d1 ++ out)
  | inr e => inr e
  end.
Proof.
  destruct v as [| b | x | x | x | bits | s | s | b | [b|]]; cbn [appendAny];
    unfold appendI64, appendF64, appendU32;
    try (destruct (MaxInt64 <? x)); try (destruct (ParseInt s));
    try reflexivity; now rewrite <- !app_assoc.
Qed.

Lemma encodeFields_app fields : forall d1 d2,
  encodeFields (d1 ++ d2) fields =
  match encodeFields d2 fields with
  | inl out => inl (d1 ++ out)
  | inr e => inr e
  end.
Proof.
  induction fields as [|[k v] fields IH]; intros d1 d2; cbn [encodeFields].
  - reflexivity.
  - destruct (255 <? slen k); [reflexivity|].
    rewrite <- app_assoc, appendAny_app.
    destruct (appendAny (d2 ++ [byteZ (slen k)] ++ list_byte_of_string k) v);
      [apply IH|reflexivity].
Qed.

(** X9. [encodeItemInto] only appends: the bytes already in the buffer
    come out unchanged in front of the record, and neither the record nor
    the error depends on them. *)
Theorem encode_only_appends (dst : list byte) (it : Item) :
  encodeItemInto dst it =
  match encodeItemInto [] it with
  | inl record => inl (dst ++ record)
  | inr e => inr e
  end.
Proof.
  unfold encodeItemInto, appendU32, appendU16.
  destruct (MaxUint16 <? len (row it)); [reflexivity|].
  cbn [app]. rewrite <- app_assoc. apply encodeFields_app.
Qed.

(** ** Little-endian fields *)

Lemma byteZ_to_N z : Byte.to_N (byteZ z) = Z.to_N (z mod 256).
Proof.
  unfold byteZ.
  destruct (Byte.of_N (Z.to_N (z mod 256))) as [b|] eqn:E.
  - now apply Byte.to_of_N.
  - apply Byte.of_N_None_iff in E.
    pose proof (Z.mod_pos_bound z 256 ltac:(lia)). lia.
Qed.

Lemma byteZ_inj a b : byteZ a = byteZ b -> a mod 256 = b mod 256.
Proof.
  intros H. apply (f_equal Byte.to_N) in H. rewrite !byteZ_to_N in H.
  pose proof (Z.mod_pos_bound a 256 ltac:(lia)).
  pose proof (Z.mod_pos_bound b 256 ltac:(lia)).
  apply Z2N.inj in H; lia.
Qed.

Lemma length_le_bytes k : forall z, length (le_bytes k z) = k.
Proof. induction k as [|k IH]; intros z; cbn [le_bytes length]; auto. Qed.

Lemma le_bytes_inj k : forall a b,
  le_bytes k a = le_bytes k b -> a mod 256 ^ Z.of_nat k = b mod 256 ^ Z.of_nat k.
Proof.
  induction k as [|k IH]; intros a b H.
  - change (256 ^ Z.of_nat 0) with 1. now rewrite !Z.mod_1_r.
  - cbn [le_bytes] in H. inversion H as [[Hb Hrest]].
    apply byteZ_inj in Hb. apply IH in Hrest.
    rewrite Nat2Z.inj_succ, Z.pow_succ_r by lia.
    assert (Hp : 0 < 256 ^ Z.of_nat k) by (apply Z.pow_pos_nonneg; lia).
    rewrite !Z.rem_mul_r by lia. congruence.
Qed.

Lemma le_bytes_mod k : forall a b,
  a mod 256 ^ Z.of_nat k = b mod 256 ^ Z.of_nat k -> le_bytes k a = le_bytes k b.
Proof.
  induction k as [|k IH]; intros a b H; cbn [le_bytes]; [reflexivity|].
  rewrite Nat2Z.inj_succ, Z.pow_succ_r in H by lia.
  assert (Hp : 0 < 256 ^ Z.of_nat k) by (apply Z.pow_pos_nonneg; lia).
  rewrite !Z.rem_mul_r in H by lia.
  pose proof (Z.mod_pos_bound a 256 ltac:(lia)).
  pose proof (Z.mod_pos_bound b 256 ltac:(lia)).
  pose proof (Z.mod_pos_bound (a / 256) (256 ^ Z.of_nat k) Hp).
  pose proof (Z.mod_pos_bound (b / 256) (256 ^ Z.of_nat k) Hp).
  assert (Hlow : a mod 256 = b mod 256) by nia.
  assert (Hhigh : (a / 256) mod 256 ^ Z.of_nat k = (b / 256) mod 256 ^ Z.of_nat k)
    by nia.
  f_equal.
  - unfold byteZ. now rewrite Hlow.
  - now apply IH.
Qed.

Lemma encodeItemInto_layout it buf :
  encodeItemInto [] it = inl buf ->
  exists fields,
    buf = le_bytes 4 (wrapU32 (PK it)) ++ le_bytes 2 (len (row it)) ++ fields /\
    encodeFields [] (row it) = inl fields.
Proof.
  unfold encodeItemInto, appendU32, appendU16. intros H.
  destruct (MaxUint16 <? len (row it)); [discriminate|].
  cbn [app] in H.
  pose proof (encodeFields_app (row it)
                (le_bytes 4 (wrapU32 (PK it)) ++ le_bytes 2 (len (row it))) [])
    as Happ.
  rewrite app_nil_r, H in Happ.
  destruct (encodeFields [] (row it)) as [fields|]; [|discriminate].
  injection Happ as Hbuf. exists fields. split; [|reflexivity].
  rewrite Hbuf. symmetry. apply app_assoc.
Qed.

(** X10. A record starts with the low 32 bits of the key, lowest byte
    first: the key field of a record is its item's key modulo [2^32], and
    two records have the same key field exactly when the keys of their
    items agree modulo [2^32].  So a key within [[0, 2^32)] can be read
    back from a record, and keys that differ by a multiple of [2^32]
    cannot be told apart. *)
Theorem record_key_is_truncated (a b : Item) (ra rb : list byte) :
  encodeItemInto [] a = inl ra -> encodeItemInto [] b = inl rb ->
  firstn 4 ra = le_bytes 4 (PK a mod 2 ^ 32) /\
  (firstn 4 ra = firstn 4 rb <-> PK a mod 2 ^ 32 = PK b mod 2 ^ 32).
Proof.
  intros Ha Hb.
  destruct (encodeItemInto_layout a ra Ha) as (fa & -> & Hfa).
  destruct (encodeItemInto_layout b rb Hb) as (fb & -> & Hfb).
  assert (Hfirst : forall k rest, firstn 4 (le_bytes 4 k ++ rest) = le_bytes 4 k).
  { intros k rest. rewrite firstn_app, length_le_bytes.
    rewrite firstn_all2 by (rewrite length_le_bytes; lia).
    cbn [Nat.sub firstn]. apply app_nil_r. }
  rewrite !Hfirst. unfold wrapU32.
  split; [reflexivity|]. split.
  - intros H. apply le_bytes_inj in H.
    change (256 ^ Z.of_nat 4) with (2 ^ 32) in H.
    change (2 ^ 32) with 4294967296 in *.
    now rewrite !Z.mod_mod in H by lia.
  - intros H. now rewrite H.
Qed.

Lemma record_key_is_truncated_witness :
  let a := mkItem 5 [("x"%string, ABool true)] in
  let b := mkItem (5 + 2 ^ 32) [("y"%string, ANil)] in
  exists ra rb,
    encodeItemInto [] a = inl ra /\ encodeItemInto [] b = inl rb /\
    firstn 4 ra = le_bytes 4 (PK a mod 2 ^ 32) /\
    (firstn 4 ra = firstn 4 rb <-> PK a mod 2 ^ 32 = PK b mod 2 ^ 32).
Proof.
  cbv zeta. eexists _, _. split; [reflexivity|]. split; [reflexivity|].
  apply (record_key_is_truncated
           (mkItem 5 [("x"%string, ABool true)])
           (mkItem (5 + 2 ^ 32) [("y"%string, ANil)])); reflexivity.
Defined.

(** ** Framing *)

Lemma frameOf_small it :
  smallRecord it = true ->
  exists buf,
    encodeItemInto [] it = inl buf /\ len buf < 2 ^ 32 /\
    frameOf it = Some (le_bytes 4 (len buf) ++ buf).
Proof.
  unfold smallRecord, frameOf. destruct (encodeItemInto [] it) as [buf|];
    [|discriminate].
  intros H. apply Z.ltb_lt in H. exists buf.
  split; [reflexivity|]. split; [assumption|].
  unfold wrapU32. rewrite Z.mod_small; [reflexivity|].
  change (2 ^ 32) with 4294967296 in *. unfold len in *. lia.
Qed.

Lemma app_same_length {A : Type} (a : list A) : forall b x y,
  length a = length b -> a ++ x = b ++ y -> a = b /\ x = y.
Proof.
  induction a as [|h a IH]; intros [|h' b] x y Hn E; simpl in Hn;
    try discriminate.
  - now split.
  - cbn [app] in E. injection E as -> E.
    destruct (IH b x y ltac:(lia) E) as [-> ->]. now split.
Qed.

Lemma frame_split a b fa fb ra rb :
  smallRecord a = true -> smallRecord b = true ->
  frameOf a = Some fa -> frameOf b = Some fb ->
  fa ++ ra = fb ++ rb -> fa = fb /\ ra = rb.
Proof.
  intros Ha Hb Hfa Hfb E.
  destruct (frameOf_small a Ha) as (ba & _ & Hla & Hfa').
  destruct (frameOf_small b Hb) as (bb & _ & Hlb & Hfb').
  assert (Efa : fa = le_bytes 4 (len ba) ++ ba) by congruence.
  assert (Efb : fb = le_bytes 4 (len bb) ++ bb) by congruence.
  subst fa fb. clear Hfa Hfb Hfa' Hfb'.
  rewrite <- !app_assoc in E.
  assert (Hlen : le_bytes 4 (len ba) = le_bytes 4 (len bb)).
  { apply (f_equal (firstn 4)) in E.
    rewrite !firstn_app, !length_le_bytes in E.
    rewrite !firstn_all2 in E by (rewrite length_le_bytes; lia).
    cbn [Nat.sub firstn] in E. now rewrite !app_nil_r in E. }
  pose proof (le_bytes_inj 4 _ _ Hlen) as Hmod.
  change (256 ^ Z.of_nat 4) with 4294967296 in Hmod.
  change (2 ^ 32) with 4294967296 in *.
  unfold len in *. rewrite !Z.mod_small in Hmod by lia.
  rewrite Hlen in E. apply app_inv_head in E.
  assert (Hn : length ba = length bb) by lia.
  destruct (app_same_length ba bb ra rb Hn E) as [-> ->]. now split.
Qed.

(** X11. A segment splits into its records in one way only: two
    sequences of items, with records below 4 GiB, that give the same
    segment bytes give the same records, one by one. *)
Theorem segment_splits_uniquely (l1 l2 : list Item) :
  forallb smallRecord l1 = true -> forallb smallRecord l2 = true ->
  segmentBytes l1 = segmentBytes l2 ->
  map frameOf l1 = map frameOf l2.
Proof.
  revert l2; induction l1 as [|a l1 IH]; intros [|b l2] H1 H2 E;
    cbn [forallb] in H1, H2; try reflexivity.
  - apply andb_prop in H2. destruct H2 as [Hb _].
    destruct (frameOf_small b Hb) as (bb & _ & _ & Hfb).
    cbn [segmentBytes] in E. rewrite Hfb in E.
    apply (f_equal (@length byte)) in E.
    rewrite !length_app, length_le_bytes in E. simpl in E. lia.
  - apply andb_prop in H1. destruct H1 as [Ha _].
    destruct (frameOf_small a Ha) as (ba & _ & _ & Hfa).
    cbn [segmentBytes] in E. rewrite Hfa in E.
    apply (f_equal (@length byte)) in E.
    rewrite !length_app, length_le_bytes in E. simpl in E. lia.
  - apply andb_prop in H1. destruct H1 as [Ha H1].
    apply andb_prop in H2. destruct H2 as [Hb H2].
    destruct (frameOf_small a Ha) as (ba & _ & _ & Hfa).
    destruct (frameOf_small b Hb) as (bb & _ & _ & Hfb).
    cbn [segmentBytes map] in *. rewrite Hfa, Hfb in E.
    destruct (frame_split a b _ _ _ _ Ha Hb Hfa Hfb E) as [Ef Er].
    rewrite Hfa, Hfb, Ef. f_equal. now apply IH.
Qed.

Lemma segment_splits_uniquely_witness :
  let l1 := [mkItem 1 [("a"%string, AString "x")]; mkItem 2 []] in
  let l2 := [mkItem (1 + 2 ^ 32) [("a"%string, AString "x")]; mkItem 2 []] in
  forallb smallRecord l1 = true /\ forallb smallRecord l2 = true /\
  segmentBytes l1 = segmentBytes l2 /\
  map frameOf l1 = map frameOf l2.
Proof.
  cbv zeta. split; [reflexivity|]. split; [reflexivity|]. split; [reflexivity|].
  apply (segment_splits_uniquely
           [mkItem 1 [("a"%string, AString "x")]; mkItem 2 []]
           [mkItem (1 + 2 ^ 32) [("a"%string, AString "x")]; mkItem 2 []]);
    reflexivity.
Defined.

(** ** The writer's counters *)

Lemma length_frame it f :
  frameOf it = Some f ->
  exists buf, encodeItemInto [] it = inl buf /\ len f = 4 + len buf.
Proof.
  unfold frameOf. destruct (encodeItemInto [] it) as [buf|]; [|discriminate].
  intros H. exists buf. split; [reflexivity|].
  assert (E : f = le_bytes 4 (wrapU32 (len buf)) ++ buf) by congruence.
  rewrite E. unfold len. rewrite length_app, length_le_bytes. lia.
Qed.

Lemma WriteItem_counts w it :
  sound w -> encodable it = true ->
  exists w' f,
    WriteItem w it = (w', None) /\ frameOf it = Some f /\
    sound w' /\ accepted w' = accepted w ++ f /\
    BytesWritten w' = wrapU64 (BytesWritten w + len f) /\
    Records w' = wrapU64 (Records w + 1).
Proof.
  intros Hsound Henc.
  destruct (WriteItem_sound w it Hsound Henc)
    as (w' & f & Hw & Hf & Hsound' & Hacc & Hbytes).
  exists w', f. repeat (split; [assumption|]).
  destruct (length_frame it f Hf) as (buf & Hbuf & Hlen).
  split.
  - rewrite Hbytes. unfold recBytes. rewrite Hbuf, Hlen. unfold wrapU64.
    now rewrite Zplus_mod_idemp_r.
  - unfold WriteItem in Hw. rewrite Hbuf in Hw.
    destruct (bufWrite (bw w) (le_bytes 4 (wrapU32 (len buf)))) as [b1 [|]];
      [discriminate|].
    destruct (bufWrite b1 buf) as [b2 [|]]; [discriminate|].
    injection Hw as <-. reflexivity.
Qed.

Lemma wrapU64_add_l a b : wrapU64 (wrapU64 a + b) = wrapU64 (a + b).
Proof. unfold wrapU64. apply Zplus_mod_idemp_l. Qed.

Lemma writeItems_counts l : forall w,
  sound w -> forallb encodable l = true ->
  0 <= BytesWritten w < 2 ^ 64 -> 0 <= Records w < 2 ^ 64 ->
  let w' := fold_left (fun w it => fst (WriteItem w it)) l w in
  sound w' /\ accepted w' = accepted w ++ segmentBytes l /\
  BytesWritten w' = wrapU64 (BytesWritten w + len (segmentBytes l)) /\
  Records w' = wrapU64 (Records w + len l).
Proof.
  induction l as [|it l IH]; intros w Hsound Henc Hb Hr;
    cbn [fold_left segmentBytes].
  - split; [assumption|]. split; [now rewrite app_nil_r|].
    unfold len. cbn [length Z.of_nat]. rewrite !Z.add_0_r.
    unfold wrapU64. now rewrite !Z.mod_small.
  - cbn [forallb] in Henc. apply andb_true_iff in Henc. destruct Henc as [Hit Hl].
    destruct (WriteItem_counts w it Hsound Hit)
      as (w1 & f & Hw & Hf & Hsound1 & Hacc1 & Hb1 & Hr1).
    rewrite Hw, Hf. cbn [fst].
    assert (Hb1' : 0 <= BytesWritten w1 < 2 ^ 64).
    { rewrite Hb1. unfold wrapU64. apply Z.mod_pos_bound. lia. }
    assert (Hr1' : 0 <= Records w1 < 2 ^ 64).
    { rewrite Hr1. unfold wrapU64. apply Z.mod_pos_bound. lia. }
    destruct (IH w1 Hsound1 Hl Hb1' Hr1') as (Hs & Ha & Hbw & Hrc).
    split; [assumption|]. split; [|split].
    + rewrite Ha, Hacc1. symmetry. apply app_assoc.
    + rewrite Hbw, Hb1, wrapU64_add_l. f_equal.
      unfold len. rewrite length_app. lia.
    + rewrite Hrc, Hr1, wrapU64_add_l. f_equal.
      unfold len. cbn [length]. lia.
Qed.

Lemma Close_sound_full w :
  sound w ->
  exists w', Close w = (w', false) /\ written w' = accepted w /\
             closed (wr (bw w')) = true /\
             BytesWritten w' = BytesWritten w /\ Records w' = Records w.
Proof.
  unfold sound, written, accepted, Close, bufFlush.
  destruct w as [[[c cl] pend fl] bytes recs].
  cbn [bw wr closed failed content pending BytesWritten Records]. intros [-> ->].
  destruct pend as [|x pend]; cbn [fileWrite fileClose closed content fst wr bw];
    eexists; (split; [reflexivity|]);
    cbn [bw wr closed content BytesWritten Records]; repeat split.
  now rewrite app_nil_r.
Qed.

(** X12. A writer opened on a new, empty file, given records that all
    encode and then closed, reports no error and leaves the file closed
    and holding the frames of the records in order, and its counters
    agree with the file: [BytesWritten] is the length of the file and
    [Records] the number of records, both as unsigned 64-bit numbers. *)
Theorem writer_counters_match_file l :
  forallb encodable l = true ->
  let w := fold_left (fun w it => fst (WriteItem w it)) l (NewWriter (mkFile [] false)) in
  snd (Close w) = false /\
  written (fst (Close w)) = segmentBytes l /\
  closed (wr (bw (fst (Close w)))) = true /\
  BytesWritten (fst (Close w)) = wrapU64 (len (written (fst (Close w)))) /\
  Records (fst (Close w)) = wrapU64 (len l).
Proof.
  intros Henc w.
  assert (Hs0 : sound (NewWriter (mkFile [] false))) by (split; reflexivity).
  assert (Hb0 : 0 <= BytesWritten (NewWriter (mkFile [] false)) < 2 ^ 64).
  { cbn. lia. }
  assert (Hr0 : 0 <= Records (NewWriter (mkFile [] false)) < 2 ^ 64).
  { cbn. lia. }
  destruct (writeItems_counts l _ Hs0 Henc Hb0 Hr0) as (Hs & Ha & Hb & Hr).
  fold w in Hs, Ha, Hb, Hr.
  destruct (Close_sound_full w Hs) as (w' & Hc & Hw & Hcl & Hbw & Hrc).
  rewrite Hc. cbn [fst snd].
  assert (Hcont : written w' = segmentBytes l).
  { rewrite Hw, Ha. reflexivity. }
  split; [reflexivity|]. split; [assumption|]. split; [assumption|].
  split; [now rewrite Hbw, Hb, Hcont|]. now rewrite Hrc, Hr.
Qed.

Lemma writer_counters_match_file_witness :
  let l := [mkItem 7 [("a"%string, AInt 1)]; mkItem 9 [("b"%string, ABool true)]] in
  forallb encodable l = true /\
  Records (fst (Close (fold_left (fun w it => fst (WriteItem w it)) l
                         (NewWriter (mkFile [] false))))) = wrapU64 (len l).
Proof.
  split; [vm_compute; reflexivity|].
  apply (writer_counters_match_file
           [mkItem 7 [("a"%string, AInt 1)]; mkItem 9 [("b"%string, ABool true)]]).
  vm_compute; reflexivity.
Defined.

(** ** A closed writer *)

Lemma bufFlush_closed b :
  closed (wr b) = true ->
  closed (wr (fst (bufFlush b))) = true /\
  content (wr (fst (bufFlush b))) = content (wr b).
Proof.
  intros Hc. unfold bufFlush. destruct (failed b); [now split|].
  destruct (pending b) as [|x q]; [now split|].
  unfold fileWrite. rewrite Hc. cbn [fst wr]. now split.
Qed.

Lemma bufWriteLoop_closed : forall fuel b p,
  closed (wr b) = true ->
  closed (wr (fst (bufWriteLoop fuel b p))) = true /\
  content (wr (fst (bufWriteLoop fuel b p))) = content (wr b).
Proof.
  induction fuel as [|fuel IH]; intros b p Hc; cbn [bufWriteLoop]; [now split|].
  destruct ((available b <? len p) && negb (failed b)); [|now split].
  destruct (pending b) as [|x q] eqn:Hp.
  - unfold fileWrite. rewrite Hc. cbn [fst wr]. now split.
  - set (b1 := mkBuf (wr b) _ (failed b)).
    destruct (bufFlush_closed b1 Hc) as [Hc1 Hk1].
    destruct (IH (fst (bufFlush b1)) (skipn (Z.to_nat (available b)) p) Hc1)
      as [Hc2 Hk2].
    split; [assumption|]. rewrite Hk2, Hk1. reflexivity.
Qed.

Lemma bufWrite_closed b p :
  closed (wr b) = true ->
  closed (wr (fst (bufWrite b p))) = true /\
  content (wr (fst (bufWrite b p))) = content (wr b).
Proof.
  intros Hc. unfold bufWrite.
  pose proof (bufWriteLoop_closed 2 b p Hc) as H.
  destruct (bufWriteLoop 2 b p) as [b1 p1]. cbn [fst] in H.
  destruct (failed b1); cbn [fst wr]; exact H.
Qed.

Lemma WriteItem_closed w it :
  closed (wr (bw w)) = true ->
  closed (wr (bw (fst (WriteItem w it)))) = true /\
  written (fst (WriteItem w it)) = written w.
Proof.
  intros Hc. unfold WriteItem, written.
  destruct (encodeItemInto [] it) as [buf|e]; [|now split].
  pose proof (bufWrite_closed (bw w) (le_bytes 4 (wrapU32 (len buf))) Hc) as H1.
  destruct (bufWrite (bw w) (le_bytes 4 (wrapU32 (len buf)))) as [b1 e1].
  cbn [fst] in H1. destruct H1 as [Hc1 Hk1].
  destruct e1; [cbn [fst bw]; now split|].
  pose proof (bufWrite_closed b1 buf Hc1) as H2.
  destruct (bufWrite b1 buf) as [b2 e2]. cbn [fst] in H2. destruct H2 as [Hc2 Hk2].
  destruct e2; cbn [fst bw]; (split; [assumption|]); now rewrite Hk2.
Qed.

Lemma Close_closed w :
  closed (wr (bw w)) = true ->
  snd (Close w) = true /\ closed (wr (bw (fst (Close w)))) = true /\
  written (fst (Close w)) = written w.
Proof.
  intros Hc. unfold Close, written, bufFlush.
  destruct (failed (bw w)) eqn:Hf.
  - unfold fileClose. cbn [fst snd bw wr closed content]. now repeat split.
  - destruct (pending (bw w)) as [|x q] eqn:Hp.
    + unfold fileClose. cbn [fst snd bw wr closed content]. now repeat split.
    + unfold fileWrite. rewrite Hc. unfold fileClose.
      cbn [fst snd bw wr closed content]. now repeat split.
Qed.

Lemma Close_closes w : closed (wr (bw (fst (Close w)))) = true.
Proof.
  unfold Close. destruct (bufFlush (bw w)) as [b e]. reflexivity.
Qed.

Lemma writeItems_closed l : forall w,
  closed (wr (bw w)) = true ->
  closed (wr (bw (fold_left (fun w it => fst (WriteItem w it)) l w))) = true /\
  written (fold_left (fun w it => fst (WriteItem w it)) l w) = written w.
Proof.
  induction l as [|it l IH]; intros w Hc; cbn [fold_left]; [now split|].
  destruct (WriteItem_closed w it Hc) as [Hc1 Hk1].
  destruct (IH _ Hc1) as [Hc2 Hk2]. split; [assumption|]. now rewrite Hk2.
Qed.

(** X13. Nothing reaches a file through a writer that has been closed:
    whatever the writer held when [Close] was called, any records given to
    [WriteItem] afterwards leave the file as [Close] left it, and a second
    [Close] reports an error. *)
Theorem closed_writer_never_writes w l :
  let w1 := fst (Close w) in
  let w2 := fold_left (fun w it => fst (WriteItem w it)) l w1 in
  written w2 = written w1 /\
  written (fst (Close w2)) = written w1 /\
  snd (Close w2) = true.
Proof.
  intros w1 w2.
  destruct (writeItems_closed l w1 (Close_closes w)) as [Hc Hk].
  fold w2 in Hc, Hk.
  destruct (Close_closed w2 Hc) as (He & _ & Hk2).
  split; [assumption|]. split; [now rewrite Hk2|assumption].
Qed.

(** ** [iteratorWriter] when a record does not encode *)

Lemma iteratorWriter_closed brk : forall fuel it spw ret it' spw',
  closed (wr (bw spw)) = true ->
  iteratorWriter fuel it spw brk = Ok (ret, it', spw') ->
  written spw' = written spw.
Proof.
  induction fuel as [|fuel IH]; intros it spw ret it' spw' Hc Hrun; [discriminate|].
  cbn [iteratorWriter] in Hrun.
  destruct (Next it) as [[r it1]| |]; cbn [bind] in Hrun; try discriminate.
  destruct r as [item|].
  - destruct (WriteItem_closed spw item Hc) as [Hc1 Hk1].
    destruct (WriteItem spw item) as [spw1 werr]. cbn [fst] in Hc1, Hk1.
    set (spw2 := match werr with Some _ => fst (Close spw1) | None => spw1 end) in Hrun.
    assert (H2 : closed (wr (bw spw2)) = true /\ written spw2 = written spw).
    { subst spw2. destruct werr as [e|]; [|now split].
      destruct (Close_closed spw1 Hc1) as (_ & Hc2 & Hk2).
      split; [assumption|]. now rewrite Hk2. }
    destruct H2 as [Hc2 Hk2].
    destruct ((brk <=? BytesWritten spw2) && negb (brk =? 0)).
    + injection Hrun as _ _ <-.
      destruct (Close_closed spw2 Hc2) as (_ & _ & Hk3). now rewrite Hk3.
    + rewrite (IH _ _ _ _ _ Hc2 Hrun). assumption.
  - injection Hrun as _ _ <-.
    destruct (Close_closed spw Hc) as (_ & _ & Hk). assumption.
Qed.

Lemma encodable_false it :
  encodable it = false -> exists e, encodeItemInto [] it = inr e.
Proof.
  unfold encodable, frameOf. destruct (encodeItemInto [] it) as [buf|e];
    [discriminate|]. intros _. now exists e.
Qed.

Lemma iteratorWriter_bad t brk : forall good fuel it spw bad rest ret it' spw',
  framesOk t it -> sound spw ->
  remaining it = good ++ bad :: rest ->
  forallb encodable good = true -> encodable bad = false ->
  iteratorWriter fuel it spw brk = Ok (ret, it', spw') ->
  exists p q, good = p ++ q /\ written spw' = accepted spw ++ segmentBytes p /\
              (brk = 0 -> q = []).
Proof.
  induction good as [|g good IH];
    intros fuel it spw bad rest ret it' spw' Hok Hsound Hrem Hgood Hbad Hrun;
    (destruct fuel as [|fuel]; [discriminate|]);
    cbn [iteratorWriter] in Hrun;
    destruct (Next_spec t it Hok) as (r & it1 & Hnext & Hok1 & Hr);
    rewrite Hnext in Hrun; cbn [bind] in Hrun;
    (destruct r as [item|];
      [|exfalso; rewrite Hrem in Hr; symmetry in Hr; now apply app_cons_not_nil in Hr]);
    rewrite Hrem in Hr; cbn [app] in Hr.
  - assert (item = bad) by congruence. subst item.
    destruct (encodable_false bad Hbad) as (e & He).
    unfold WriteItem in Hrun. rewrite He in Hrun.
    exists [], []. split; [reflexivity|]. split; [|reflexivity].
    cbn [segmentBytes]. rewrite app_nil_r, <- (Close_sound spw Hsound).
    pose proof (Close_closes spw) as Hc.
    destruct ((brk <=? BytesWritten (fst (Close spw))) && negb (brk =? 0)).
    + injection Hrun as _ _ <-.
      destruct (Close_closed _ Hc) as (_ & _ & Hk). assumption.
    + apply (iteratorWriter_closed brk _ _ _ _ _ _ Hc Hrun).
  - assert (item = g) by congruence. subst item.
    assert (Hr1 : remaining it1 = good ++ bad :: rest) by congruence.
    cbn [forallb] in Hgood. apply andb_true_iff in Hgood. destruct Hgood as [Hg Hgood].
    destruct (WriteItem_sound spw g Hsound Hg)
      as (spw1 & f & Hw & Hf & Hsound1 & Hacc1 & _).
    rewrite Hw in Hrun.
    destruct ((brk <=? BytesWritten spw1) && negb (brk =? 0)) eqn:Hbrk.
    + injection Hrun as _ _ <-.
      exists [g], good. split; [reflexivity|]. split.
      * rewrite (Close_sound spw1 Hsound1), Hacc1. cbn [segmentBytes].
        rewrite Hf. now rewrite app_nil_r.
      * intros ->. apply andb_true_iff in Hbrk. destruct Hbrk as [_ Hz].
        rewrite Z.eqb_refl in Hz. discriminate.
    + destruct (IH fuel it1 spw1 bad rest ret it' spw' Hok1 Hsound1 Hr1 Hgood Hbad Hrun)
        as (p & q & Hpq & Hwr & Hq).
      exists (g :: p), q. split; [now rewrite Hpq|]. split; [|assumption].
      rewrite Hwr, Hacc1. cbn [segmentBytes]. rewrite Hf. symmetry. apply app_assoc.
Qed.

(** X14. [iteratorWriter] stops storing at the first record that does not
    encode.  On a cursor over an Index whose listing is [good], then a
    record [bad] that does not encode, then [rest], with a fresh writer,
    the loop still returns, and the file then holds the frames of a prefix
    of [good] and nothing else: neither [bad] nor any record of [rest]
    reaches it, however many of them encode.  With no byte limit that
    prefix is all of [good]. *)
Theorem records_after_bad_record_are_lost its tr it good bad rest brk :
  upserts (New 32) its = Ok tr ->
  IterAscend tr = Ok it ->
  drain (S (Z.to_nat (Len tr))) it = Ok (good ++ bad :: rest) ->
  forallb encodable good = true -> encodable bad = false ->
  exists ret it' spw' p q,
    iteratorWriter (S (Z.to_nat (Len tr))) it createNewWriter brk = Ok (ret, it', spw') /\
    good = p ++ q /\ written spw' = segmentBytes p /\ (brk = 0 -> q = []).
Proof.
  intros Hup Hit Hdrain Hgood Hbad.
  assert (H32 : is_int 32) by (unfold is_int, MinInt64, MaxInt64; lia).
  destruct (built_Inv 32 its H32) as (tr0 & Hup0 & Hinv & _).
  assert (tr0 = tr) by congruence. subst tr0.
  destruct (IterAscend_spec tr Hinv) as (it0 & Hit0 & Hok & Hrem).
  assert (it0 = it) by congruence. subst it0.
  assert (Hfuel : (length (remaining it) < S (Z.to_nat (Len tr)))%nat).
  { rewrite Hrem. destruct Hinv as (_ & _ & Hn & _). unfold Len, len in *. lia. }
  rewrite (drain_spec (t tr) _ it Hok Hfuel) in Hdrain.
  assert (Hr : remaining it = good ++ bad :: rest) by congruence.
  destruct (iteratorWriter_total (t tr) brk _ it createNewWriter Hok Hfuel)
    as (ret & it' & spw' & taken & Hrun & _ & _).
  assert (Hs : sound createNewWriter) by (split; reflexivity).
  destruct (iteratorWriter_bad (t tr) brk good _ it createNewWriter bad rest
              ret it' spw' Hok Hs Hr Hgood Hbad Hrun) as (p & q & Hpq & Hwr & Hq).
  exists ret, it', spw', p, q. repeat (split; [assumption|]). assumption.
Qed.

Lemma records_after_bad_record_are_lost_witness :
  let good := [mkItem 1 [("a"%string, AInt 1)]] in
  let bad := mkItem 2 [("b"%string, AOther None)] in
  let rest := [mkItem 3 [("c"%string, AInt 3)]] in
  let tr := match upserts (New 32) (rest ++ bad :: good) with
            | Ok tr => tr
            | _ => New 32
            end in
  let it := match IterAscend tr with Ok it => it | _ => [] end in
  exists ret it' spw' p q,
    iteratorWriter (S (Z.to_nat (Len tr))) it createNewWriter 0 = Ok (ret, it', spw') /\
    good = p ++ q /\ written spw' = segmentBytes p /\ (0 = 0 -> q = []).
Proof.
  cbv zeta.
  apply (records_after_bad_record_are_lost
           ([mkItem 3 [("c"%string, AInt 3)]]
            ++ mkItem 2 [("b"%string, AOther None)] :: [mkItem 1 [("a"%string, AInt 1)]])
           _ _ [mkItem 1 [("a"%string, AInt 1)]] (mkItem 2 [("b"%string, AOther None)])
           [mkItem 3 [("c"%string, AInt 3)]] 0);
    vm_compute; reflexivity.
Defined.

(** ** The byte budget of a flush *)

Lemma recBytes_frame it :
  match frameOf it with
  | Some f => recBytes it = wrapU64 (len f)
  | None => recBytes it = 0
  end.
Proof.
  destruct (frameOf it) as [f|] eqn:Hf.
  - destruct (length_frame it f Hf) as (buf & Hbuf & Hlen).
    unfold recBytes. now rewrite Hbuf, Hlen.
  - unfold frameOf in Hf. unfold recBytes.
    destruct (encodeItemInto [] it); [discriminate|reflexivity].
Qed.

Lemma len_nonneg {A : Type} (l : list A) : 0 <= len l.
Proof. unfold len. lia. Qed.

Lemma len_app {A : Type} (l1 l2 : list A) : len (l1 ++ l2) = len l1 + len l2.
Proof. unfold len. rewrite length_app. lia. Qed.

Lemma segmentBytes_app l1 l2 :
  segmentBytes (l1 ++ l2) = segmentBytes l1 ++ segmentBytes l2.
Proof.
  induction l1 as [|it l1 IH]; cbn [app segmentBytes]; [reflexivity|].
  destruct (frameOf it) as [f|]; [|assumption].
  rewrite IH. apply app_assoc.
Qed.

Lemma cut_budget brk : forall l w,
  0 <= w < brk -> w + len (segmentBytes l) < 2 ^ 64 ->
  let '(lo, up, ret) := cut brk w l in
  lo ++ up = l /\
  (w + len (segmentBytes l) < brk -> up = [] /\ ret = 0) /\
  (brk <= w + len (segmentBytes l) ->
   exists p x, lo = p ++ [x] /\ ret = PK x /\
               w + len (segmentBytes p) < brk <= w + len (segmentBytes lo)).
Proof.
  induction l as [|it l IH]; intros w Hw Hmax; cbn [cut].
  - cbn [segmentBytes] in *. unfold len in *. cbn [length Z.of_nat] in *.
    split; [reflexivity|]. split; [now split|]. intros H. lia.
  - cbn [segmentBytes] in Hmax |- *.
    pose proof (recBytes_frame it) as Hrec.
    set (fl := match frameOf it with Some f => len f | None => 0 end).
    assert (Hfl : 0 <= fl).
    { subst fl. destruct (frameOf it); [apply len_nonneg|lia]. }
    assert (Hseg : len (match frameOf it with
                        | Some f => f ++ segmentBytes l
                        | None => segmentBytes l
                        end) = fl + len (segmentBytes l)).
    { subst fl. destruct (frameOf it); [apply len_app|lia]. }
    rewrite Hseg in Hmax |- *.
    pose proof (len_nonneg (segmentBytes l)) as Hl.
    assert (Hw' : wrapU64 (w + recBytes it) = w + fl).
    { assert (E : recBytes it = fl).
      { subst fl. destruct (frameOf it); rewrite Hrec; [|reflexivity].
        unfold wrapU64. apply Z.mod_small. pose proof (len_nonneg l0). lia. }
      rewrite E. unfold wrapU64. apply Z.mod_small. lia. }
    rewrite Hw'.
    destruct (brk <=? w + fl) eqn:Hb.
    + apply Z.leb_le in Hb.
      assert (Hz : (brk =? 0) = false) by (apply Z.eqb_neq; lia).
      rewrite Hz. cbn [negb andb].
      split; [reflexivity|]. split; [intros H; lia|].
      intros _. exists [], it. split; [reflexivity|]. split; [reflexivity|].
      cbn [segmentBytes app]. fold fl.
      assert (E : len (match frameOf it with Some f => f ++ [] | None => [] end) = fl).
      { subst fl. destruct (frameOf it); [now rewrite app_nil_r|reflexivity]. }
      rewrite E. unfold len at 1. cbn [length Z.of_nat]. lia.
    + apply Z.leb_gt in Hb. cbn [andb].
      assert (Hw1 : 0 <= w + fl < brk) by lia.
      assert (Hm1 : w + fl + len (segmentBytes l) < 2 ^ 64) by lia.
      specialize (IH (w + fl) Hw1 Hm1).
      destruct (cut brk (w + fl) l) as [[lo up] ret].
      destruct IH as (Happ & Hlow & Hhigh).
      split; [cbn [app]; now rewrite Happ|]. split.
      * intros H. apply Hlow. lia.
      * intros H. destruct Hhigh as (p & x & Hp & Hret & Hbound); [lia|].
        exists (it :: p), x. split; [now rewrite Hp|]. split; [assumption|].
        cbn [segmentBytes].
        assert (E1 : len (match frameOf it with
                          | Some f => f ++ segmentBytes p
                          | None => segmentBytes p
                          end) = fl + len (segmentBytes p)).
        { subst fl. destruct (frameOf it); [apply len_app|lia]. }
        assert (E2 : len (match frameOf it with
                          | Some f => f ++ segmentBytes lo
                          | None => segmentBytes lo
                          end) = fl + len (segmentBytes lo)).
        { subst fl. destruct (frameOf it); [apply len_app|lia]. }
        rewrite E1, E2. lia.
Qed.

(** X15. How a flush cuts the Index's listing in two.  For an Index
    whose records all encode, to fewer than 2^64 bytes in all, and a
    budget that is not negative: when half the budget is 0, or the records
    together stay below half the budget, they all go to the lower file,
    which is then named with the maximum 0, and no upper file is written;
    otherwise the lower file is the shortest run of the listing that
    reaches half the budget: it ends with a record [x], is named with the
    key of [x], holds at least half the budget, and without [x] it would
    hold less. *)
Theorem lower_segment_fills_half_budget (its : list Item) (index : BTree)
  (size mn mx : Z) (flag : bool) (d : Dir) (B : Z) :
  upserts (New 32) its = Ok index ->
  forallb encodable (flat (root index)) = true ->
  len (segmentBytes (flat (root index))) < 2 ^ 64 ->
  0 <= B ->
  exists lo up ret,
    let d1 := renameFile (LowerName mn) (SegName mn ret)
                (dirStore (LowerName mn) (segmentBytes lo) d) in
    writeMapToFile (mkState index size mn mx flag d) B
    = Ok (mkState (New 32) 0 0 0 false
            match up with
            | [] => d1
            | u :: _ => dirStore (SegName (PK u) mx) (segmentBytes up) d1
            end) /\
    lo ++ up = flat (root index) /\
    (B / 2 = 0 \/ len (segmentBytes (flat (root index))) < B / 2 ->
     up = [] /\ ret = 0) /\
    (0 < B / 2 <= len (segmentBytes (flat (root index))) ->
     exists p x, lo = p ++ [x] /\ ret = PK x /\
                 len (segmentBytes p) < B / 2 <= len (segmentBytes lo)).
Proof.
  intros Hup Henc Hmax HB.
  pose proof (built_unique 32 its index is_int_32 Hup) as Hinv.
  pose proof (writeMapToFile_sound (mkState index size mn mx flag d) B Hinv Henc) as Hw.
  cbn [tr minKey maxKey dir] in Hw.
  assert (Hnn : 0 <= B / 2) by (apply Z.div_pos; lia).
  destruct (Z.eq_dec (B / 2) 0) as [Hz|Hz].
  - rewrite Hz in Hw |- *. rewrite cut_zero in Hw.
    exists (flat (root index)), [], 0. cbv zeta. split; [exact Hw|].
    split; [apply app_nil_r|]. split; [intros _; now split|]. intros H. lia.
  - assert (Hhalf : 0 <= 0 < B / 2) by lia.
    pose proof (cut_budget (B / 2) (flat (root index)) 0 Hhalf Hmax) as Hcut.
    destruct (cut (B / 2) 0 (flat (root index))) as [[lo up] ret].
    exists lo, up, ret. cbv zeta. split; [exact Hw|].
    rewrite !Z.add_0_l in Hcut. destruct Hcut as (Happ & Hlow & Hhigh).
    split; [exact Happ|]. split.
    + intros [H|H]; [contradiction|now apply Hlow].
    + intros H. apply Hhigh. lia.
Qed.

Lemma lower_segment_fills_half_budget_witness :
  let its := [mkItem 3 [("a"%string, ABool true)]; mkItem 1 []; mkItem 4 [];
              mkItem 2 [("b"%string, ANumber "2.5")]] in
  let index := match upserts (New 32) its with Ok tr => tr | _ => New 32 end in
  exists lo up ret,
    let d1 := renameFile (LowerName 1) (SegName 1 ret)
                (dirStore (LowerName 1) (segmentBytes lo) []) in
    writeMapToFile (mkState index 600 1 4 true []) 40
    = Ok (mkState (New 32) 0 0 0 false
            match up with
            | [] => d1
            | u :: _ => dirStore (SegName (PK u) 4) (segmentBytes up) d1
            end) /\
    lo ++ up = flat (root index) /\
    (40 / 2 = 0 \/ len (segmentBytes (flat (root index))) < 40 / 2 ->
     up = [] /\ ret = 0) /\
    (0 < 40 / 2 <= len (segmentBytes (flat (root index))) ->
     exists p x, lo = p ++ [x] /\ ret = PK x /\
                 len (segmentBytes p) < 40 / 2 <= len (segmentBytes lo)).
Proof.
  cbv zeta.
  apply (lower_segment_fills_half_budget
           [mkItem 3 [("a"%string, ABool true)]; mkItem 1 []; mkItem 4 [];
            mkItem 2 [("b"%string, ANumber "2.5")]]);
    [vm_compute; reflexivity | vm_compute; reflexivity | vm_compute; reflexivity | lia].
Defined.

(** ** The trackers and the Index *)

Lemma fold_min_le ks : forall k0 x,
  In x (k0 :: ks) -> fold_left Z.min ks k0 <= x.
Proof.
  induction ks as [|k ks IH]; intros k0 x Hx; cbn [fold_left].
  - destruct Hx as [<-|[]]. lia.
  - destruct Hx as [<-|[<-|Hx]].
    + pose proof (IH (Z.min k0 k) (Z.min k0 k) (or_introl eq_refl)). lia.
    + pose proof (IH (Z.min k0 k) (Z.min k0 k) (or_introl eq_refl)). lia.
    + apply IH. now right.
Qed.

Lemma fold_max_ge ks : forall k0 x,
  In x (k0 :: ks) -> x <= fold_left Z.max ks k0.
Proof.
  induction ks as [|k ks IH]; intros k0 x Hx; cbn [fold_left].
  - destruct Hx as [<-|[]]. lia.
  - destruct Hx as [<-|[<-|Hx]].
    + pose proof (IH (Z.max k0 k) (Z.max k0 k) (or_introl eq_refl)). lia.
    + pose proof (IH (Z.max k0 k) (Z.max k0 k) (or_introl eq_refl)). lia.
    + apply IH. now right.
Qed.

Lemma fold_min_in ks : forall k0, In (fold_left Z.min ks k0) (k0 :: ks).
Proof.
  induction ks as [|k ks IH]; intros k0; cbn [fold_left]; [now left|].
  destruct (IH (Z.min k0 k)) as [H|H].
  - rewrite <- H. destruct (Z.min_spec k0 k) as [[_ E]|[_ E]]; rewrite E.
    + now left.
    + right. now left.
  - right. now right.
Qed.

Lemma fold_max_in ks : forall k0, In (fold_left Z.max ks k0) (k0 :: ks).
Proof.
  induction ks as [|k ks IH]; intros k0; cbn [fold_left]; [now left|].
  destruct (IH (Z.max k0 k)) as [H|H].
  - rewrite <- H. destruct (Z.max_spec k0 k) as [[_ E]|[_ E]]; rewrite E.
    + right. now left.
    + now left.
  - right. now right.
Qed.

Lemma tracked_reset d : tracked (mkState (New 32) 0 0 0 false d).
Proof.
  split; [apply New_Inv, is_int_32|]. exists []. split; [repeat split|].
  intros k. split; [intros []|]. intros [r Hr]. discriminate.
Qed.

Lemma ingestLine_tracked wtd B st ln :
  tracked st -> keyed ln = true ->
  exists p, ingestLine wtd B st ln = Ok p /\ tracked (passState p).
Proof.
  intros Htr Hk. unfold ingestLine.
  assert (Hflush : exists st1,
    (if wtd && (B <? wrapU64 (lineLen ln + currentMapSize st))
     then writeMapToFile st B else Ok st) = Ok st1 /\ tracked st1).
  { destruct (wtd && (B <? wrapU64 (lineLen ln + currentMapSize st))).
    - destruct Htr as [Hinv _].
      destruct (writeMapToFile_total st B Hinv) as (d' & Hw).
      eexists. split; [exact Hw|]. apply tracked_reset.
    - exists st. split; [reflexivity|assumption]. }
  destruct Hflush as (st1 & -> & Hinv1 & keys & Hrefl & Hkeys). cbn [bind].
  unfold keyed in Hk. destruct (parsed ln) as [pairs|].
  - destruct pairs as [|[name v] rest]; [discriminate|].
    cbn [readPairs].
    pose proof (trackKey_reflect st1 v keys Hrefl) as Htk.
    assert (Htr1 : tr (snd (trackKey st1 v)) = tr st1).
    { unfold trackKey.
      destruct (if setMinMaxKey st1 then (minKey st1, maxKey st1) else _) as [mn mx].
      reflexivity. }
    destruct (trackKey st1 v) as [pk st2]. cbn [snd] in Htr1.
    destruct Htk as [_ Hrefl2].
    set (tempMap := fold_left (fun m p => rowSet (fst p) (anyOf (snd p)) m) rest []).
    rewrite Htr1.
    destruct (Upsert_spec (tr st1) (mkItem pk tempMap) Hinv1)
      as (tr' & old & rep & Hup & _).
    rewrite Hup. cbn [bind].
    destruct (Get_after_Upsert (tr st1) (mkItem pk tempMap) tr' old rep pk Hinv1 Hup)
      as [Hinv' _].
    eexists. split; [reflexivity|]. cbn [passState]. split; [exact Hinv'|].
    exists (keys ++ [pk]). split.
    + unfold trackersReflect in Hrefl2 |- *.
      destruct (keys ++ [pk]); exact Hrefl2.
    + intros k. cbn [tr].
      destruct (Get_after_Upsert (tr st1) (mkItem pk tempMap) tr' old rep k Hinv1 Hup)
        as [_ Hget].
      rewrite Hget. cbn [PK row]. rewrite in_app_iff, Hkeys.
      destruct (Z.eqb_spec pk k) as [E|E].
      * split; [intros _; eexists; reflexivity|]. intros _. right. now left.
      * split; [intros [H|[H|[]]]; [assumption|contradiction]|]. intros H. now left.
  - eexists. split; [reflexivity|]. cbn [passState].
    split; [assumption|]. exists keys. now split.
Qed.

Lemma ingestLines_tracked wtd B lines : forall st,
  tracked st -> forallb keyed lines = true ->
  exists p, ingestLines wtd B st lines = Ok p /\ tracked (passState p).
Proof.
  induction lines as [|ln lines IH]; intros st Htr Hk; cbn [ingestLines].
  - exists (Completed st). split; [reflexivity|assumption].
  - cbn [forallb] in Hk. apply andb_true_iff in Hk. destruct Hk as [Hln Hk].
    destruct (ingestLine_tracked wtd B st ln Htr Hln) as (p & -> & Hp). cbn [bind].
    destruct p as [st'|st'].
    + apply IH; assumption.
    + exists (Exited st'). split; [reflexivity|assumption].
Qed.

(** X16. When no line of the input is the empty object, the trackers
    bracket the Index at every point of a pass, whether it has ended or
    exited: every key the Index holds lies between [minKey] and [maxKey],
    and while the Index is not empty both are themselves keys it holds. *)
Theorem trackers_bracket_index (wtd : bool) (B : Z) (lines : list Line) (p : pass) :
  forallb keyed lines = true ->
  ingestLines wtd B initState lines = Ok p ->
  (forall k r, Get (tr (passState p)) k = Ok (Some r) ->
     minKey (passState p) <= k <= maxKey (passState p)) /\
  (IsEmpty (tr (passState p)) = false ->
     (exists r, Get (tr (passState p)) (minKey (passState p)) = Ok (Some r)) /\
     (exists r, Get (tr (passState p)) (maxKey (passState p)) = Ok (Some r))).
Proof.
  intros Hk Hrun.
  destruct (ingestLines_tracked wtd B lines initState (tracked_reset []) Hk)
    as (p' & Hrun' & Hinv & keys & Hrefl & Hkeys).
  assert (p' = p) by (unfold initState in *; congruence). subst p'.
  set (st := passState p) in *. split.
  - intros k r Hget.
    assert (Hin : In k keys) by (apply Hkeys; now exists r).
    destruct keys as [|k0 ks]; [destruct Hin|].
    destruct Hrefl as (_ & -> & ->).
    split; [now apply fold_min_le|now apply fold_max_ge].
  - intros Hne. destruct keys as [|k0 ks].
    + exfalso. unfold IsEmpty in Hne.
      pose proof Hinv as (_ & _ & Hn & _).
      destruct (flat (root (tr st))) as [|a l] eqn:Hflat.
      * unfold len in Hn. cbn [length Z.of_nat] in Hn.
        unfold Len in Hne. rewrite Hn in Hne. discriminate.
      * apply (Hkeys (PK a)). exists (row a). rewrite (Get_spec _ _ Hinv), Hflat.
        unfold findPK. cbn [find]. now rewrite Z.eqb_refl.
    + destruct Hrefl as (_ & -> & ->). split; apply Hkeys.
      * apply fold_min_in.
      * apply fold_max_in.
Qed.

Lemma trackers_bracket_index_witness :
  let ln (k : string) := mkLine 150 (Some [("id"%string, JNumber k)]) in
  let lines := [ln "5"; ln "1"; ln "9"]%string in
  let p := match ingestLines false 400 initState lines with
           | Ok p => p
           | _ => Completed initState
           end in
  forallb keyed lines = true /\
  forall k r, Get (tr (passState p)) k = Ok (Some r) ->
    minKey (passState p) <= k <= maxKey (passState p).
Proof.
  cbv zeta. split; [reflexivity|].
  apply (trackers_bracket_index false 400
           [mkLine 150 (Some [("id"%string, JNumber "5"%string)]);
            mkLine 150 (Some [("id"%string, JNumber "1"%string)]);
            mkLine 150 (Some [("id"%string, JNumber "9"%string)])]);
    vm_compute; reflexivity.
Defined.

(** ** How a pass ends *)

Lemma ingestLines_parsed wtd B lines : forall st,
  Inv (tr st) -> forallb parses lines = true ->
  exists st', ingestLines wtd B st lines = Ok (Completed st') /\ Inv (tr st').
Proof.
  induction lines as [|ln lines IH]; intros st Hinv Hp; cbn [ingestLines].
  - exists st. now split.
  - cbn [forallb] in Hp. apply andb_true_iff in Hp. destruct Hp as [Hln Hp].
    destruct (ingestLine_Inv wtd B st ln Hinv) as (p & Hrun & Hinv').
    rewrite Hrun. cbn [bind]. destruct p as [st'|st'].
    + now apply IH.
    + exfalso. unfold ingestLine in Hrun. unfold parses in Hln.
      destruct (if wtd && (B <? wrapU64 (lineLen ln + currentMapSize st))
                then writeMapToFile st B else Ok st) as [st1| |];
        cbn [bind] in Hrun; try discriminate.
      destruct (parsed ln) as [pairs|]; [|discriminate].
      destruct (readPairs st1 pairs) as [[pk tempMap] st2].
      destruct (Upsert (tr st2) (mkItem pk tempMap)) as [[[tr' old] rep]| |];
        cbn [bind] in Hrun; discriminate.
Qed.

Lemma ingestLines_app wtd B l1 : forall st st1 l2,
  ingestLines wtd B st l1 = Ok (Completed st1) ->
  ingestLines wtd B st (l1 ++ l2) = ingestLines wtd B st1 l2.
Proof.
  induction l1 as [|ln l1 IH]; intros st st1 l2 H; cbn [ingestLines app] in *.
  - congruence.
  - destruct (ingestLine wtd B st ln) as [p| |]; cbn [bind] in *; try discriminate.
    destruct p as [st'|st']; [|discriminate]. now apply IH.
Qed.

(** X17. When the files of every flush can be created, a pass fails
    part-way for no other reason than a line that does not parse.  When
    every line parses the pass completes.  At the first line that does
    not, the process exits: whatever follows that line is not read, and
    there is no final flush, so the records buffered by then reach a file
    only if the bad line itself pushed the buffer over the budget. *)
Theorem pass_ends_at_first_bad_line (opens : fileName -> bool) (sizeBytes B : Z)
  (l1 l2 : list Line) (bad : Line) :
  (forall name, opens name = true) ->
  forallb parses l1 = true -> parses bad = false ->
  (exists st, importDataFromFileOn opens initState sizeBytes B l1 = Ok (Completed st)) /\
  exists st1 st',
    ingestLinesOn opens (B <? sizeBytes) B initState l1 = Ok (Completed st1) /\
    importDataFromFileOn opens initState sizeBytes B (l1 ++ bad :: l2) = Ok (Exited st') /\
    if (B <? sizeBytes) && (B <? wrapU64 (lineLen bad + currentMapSize st1))
    then writeMapToFileOn opens st1 B = Ok st'
    else st' = st1.
Proof.
  intros Hopens Hl1 Hbad.
  rewrite !(importDataFromFileOn_opens opens initState sizeBytes B _ Hopens).
  rewrite (ingestLinesOn_opens opens _ B l1 initState Hopens).
  assert (Hinv0 : Inv (tr initState)) by (apply New_Inv, is_int_32).
  destruct (ingestLines_parsed (B <? sizeBytes) B l1 initState Hinv0 Hl1)
    as (st1 & Hrun & Hinv1).
  split.
  - unfold importDataFromFile. rewrite Hrun. cbn [bind].
    destruct ((B <? sizeBytes) && (0 <? Len (tr st1))).
    + destruct (writeMapToFile_total st1 B Hinv1) as (d' & ->). cbn [bind].
      eexists; reflexivity.
    + eexists; reflexivity.
  - unfold importDataFromFile.
    rewrite (ingestLines_app _ _ l1 initState st1 (bad :: l2) Hrun).
    cbn [ingestLines]. unfold ingestLine.
    unfold parses in Hbad. destruct (parsed bad) as [pairs|]; [discriminate|].
    destruct ((B <? sizeBytes) && (B <? wrapU64 (lineLen bad + currentMapSize st1)))
      eqn:Hc.
    + destruct (writeMapToFile_total st1 B Hinv1) as (d' & Hw).
      rewrite Hw. cbn [bind]. eexists st1, _. split; [exact Hrun|].
      split; [reflexivity|]. rewrite Hc.
      rewrite (writeMapToFileOn_opens opens st1 B (Hopens _) (fun lo => Hopens _)).
      exact Hw.
    + cbn [bind]. exists st1, st1. split; [exact Hrun|].
      split; [reflexivity|]. now rewrite Hc.
Qed.

Lemma pass_ends_at_first_bad_line_witness :
  let opens := fun _ : fileName => true in
  let ok := mkLine 150 (Some [("id"%string, JNumber "5"%string)]) in
  let bad := mkLine 3 None in
  exists st1 st',
    ingestLinesOn opens (400 <? 500) 400 initState [ok] = Ok (Completed st1) /\
    importDataFromFileOn opens initState 500 400 ([ok] ++ bad :: [ok]) = Ok (Exited st') /\
    if (400 <? 500) && (400 <? wrapU64 (lineLen bad + currentMapSize st1))
    then writeMapToFileOn opens st1 400 = Ok st'
    else st' = st1.
Proof.
  cbv zeta.
  apply (pass_ends_at_first_bad_line (fun _ => true) 500 400
           [mkLine 150 (Some [("id"%string, JNumber "5"%string)])]
           [mkLine 150 (Some [("id"%string, JNumber "5"%string)])]
           (mkLine 3 None)); reflexivity.
Defined.

(** ** The buffered-bytes counter *)

Lemma ingestLine_budget wtd B st ln p :
  0 <= currentMapSize st <= B -> 0 <= lineLen ln <= B ->
  ingestLine wtd B st ln = Ok p ->
  0 <= currentMapSize (passState p) <= B.
Proof.
  intros Hst Hln Hrun. unfold ingestLine in Hrun.
  assert (Hflush : exists st1,
    (if wtd && (B <? wrapU64 (lineLen ln + currentMapSize st))
     then writeMapToFile st B else Ok st) = Ok st1 /\
    0 <= currentMapSize st1 <= B /\
    (wtd = true -> wrapU64 (currentMapSize st1 + lineLen ln) <= B)).
  { destruct wtd; cbn [andb] in Hrun |- *.
    - destruct (Z.ltb_spec B (wrapU64 (lineLen ln + currentMapSize st))) as [Hlt|Hge].
      + destruct (writeMapToFile st B) as [st1| |] eqn:Hw; cbn [bind] in Hrun;
          try discriminate.
        destruct (writeMapToFile_resets st B st1 Hw) as (_ & Hz & _).
        exists st1. split; [reflexivity|]. rewrite Hz. split; [lia|].
        intros _. rewrite Z.add_0_l. unfold wrapU64.
        pose proof (Z.mod_le (lineLen ln) (2 ^ 64)). lia.
      + exists st. split; [reflexivity|]. split; [assumption|].
        intros _. now rewrite Z.add_comm.
    - exists st. split; [reflexivity|]. split; [assumption|]. discriminate. }
  destruct Hflush as (st1 & E & Hst1 & Hadd). rewrite E in Hrun. cbn [bind] in Hrun.
  destruct (parsed ln) as [pairs|].
  - pose proof (readPairs_tr st1 pairs) as Hrp.
    destruct (readPairs st1 pairs) as [[pk tempMap] st2].
    destruct Hrp as (_ & Hsz & _).
    destruct (Upsert (tr st2) (mkItem pk tempMap)) as [[[tr' old] rep]| |];
      cbn [bind] in Hrun; try discriminate.
    injection Hrun as <-. cbn [passState currentMapSize]. rewrite Hsz.
    destruct wtd; [|assumption].
    split; [|now apply Hadd].
    unfold wrapU64. apply Z.mod_pos_bound. lia.
  - injection Hrun as <-. assumption.
Qed.

(** X18. The buffered-bytes counter stays within the memory budget: when
    no line is longer than the budget, [currentMapSize] is between 0 and
    the budget after every line of a pass, whether or not the pass
    flushes. *)
Theorem buffered_bytes_within_budget (wtd : bool) (B : Z) (lines : list Line) :
  forall (st : State) (p : pass),
    0 <= currentMapSize st <= B ->
    Forall (fun ln => 0 <= lineLen ln <= B) lines ->
    ingestLines wtd B st lines = Ok p ->
    0 <= currentMapSize (passState p) <= B.
Proof.
  induction lines as [|ln lines IH]; intros st p Hst Hlines Hrun;
    cbn [ingestLines] in Hrun.
  - injection Hrun as <-. assumption.
  - inversion Hlines as [|? ? Hln Hrest]; subst.
    destruct (ingestLine wtd B st ln) as [p1| |] eqn:Hone; cbn [bind] in Hrun;
      try discriminate.
    pose proof (ingestLine_budget wtd B st ln p1 Hst Hln Hone) as H1.
    destruct p1 as [st1|st1].
    + apply (IH st1 p H1 Hrest Hrun).
    + injection Hrun as <-. assumption.
Qed.

Lemma buffered_bytes_within_budget_witness :
  let ln (k : string) := mkLine 150 (Some [("id"%string, JNumber k)]) in
  let lines := [ln "5"; ln "1"; ln "9"]%string in
  let p := match ingestLines true 400 initState lines with
           | Ok p => p
           | _ => Completed initState
           end in
  0 <= currentMapSize (passState p) <= 400.
Proof.
  cbv zeta.
  apply (buffered_bytes_within_budget true 400
           [mkLine 150 (Some [("id"%string, JNumber "5"%string)]);
            mkLine 150 (Some [("id"%string, JNumber "1"%string)]);
            mkLine 150 (Some [("id"%string, JNumber "9"%string)])] initState).
  - cbn. lia.
  - repeat constructor; cbn; lia.
  - vm_compute. reflexivity.
Defined.

(** ** The row of a record *)

Lemma rowSet_get k v : forall r k',
  rowGet k' (rowSet k v r) = if String.eqb k k' then Some v else rowGet k' r.
Proof.
  induction r as [|[k1 v1] r IH]; intros k'; cbn [rowSet].
  - unfold rowGet. cbn [find fst snd]. now destruct (String.eqb k k').
  - destruct (String.eqb_spec k1 k) as [E|E].
    + subst k1. unfold rowGet. cbn [find fst snd].
      now destruct (String.eqb k k').
    + unfold rowGet in *. cbn [find fst snd].
      destruct (String.eqb_spec k1 k') as [E'|E'].
      * subst k1. destruct (String.eqb_spec k k'); [congruence|reflexivity].
      * apply IH.
Qed.

Lemma rowSet_names k v : forall r x,
  In x (map fst (rowSet k v r)) -> x = k \/ In x (map fst r).
Proof.
  induction r as [|[k1 v1] r IH]; intros x; cbn [rowSet].
  - cbn. intros [H|[]]. now left.
  - destruct (String.eqb_spec k1 k) as [E|E]; cbn [map fst In].
    + intros [H|H]; [now left|right; now right].
    + intros [H|H]; [right; now left|].
      destruct (IH x H) as [H1|H1]; [now left|right; now right].
Qed.

Lemma rowSet_NoDup k v : forall r,
  NoDup (map fst r) -> NoDup (map fst (rowSet k v r)).
Proof.
  induction r as [|[k1 v1] r IH]; intros Hnd; cbn [rowSet].
  - cbn. constructor; [intros []|constructor].
  - cbn [map fst] in Hnd. inversion Hnd as [|? ? Hnotin Hrest]; subst.
    destruct (String.eqb_spec k1 k) as [E|E]; cbn [map fst].
    + subst k1. now constructor.
    + constructor; [|now apply IH].
      intros Hin. destruct (rowSet_names k v r k1 Hin) as [H|H]; congruence.
Qed.

Lemma rowFold_spec : forall rest r0,
  NoDup (map fst r0) ->
  let r := fold_left (fun m p => rowSet (fst p) (anyOf (snd p)) m) rest r0 in
  NoDup (map fst r) /\
  forall k, rowGet k r = match lastVal k rest with
                         | Some v => Some (anyOf v)
                         | None => rowGet k r0
                         end.
Proof.
  induction rest as [|[k1 v1] rest IH]; intros r0 Hnd; cbn [fold_left lastVal].
  - now split.
  - cbn [fst snd].
    destruct (IH (rowSet k1 (anyOf v1) r0) (rowSet_NoDup _ _ _ Hnd)) as [Hnd' Hget].
    split; [exact Hnd'|]. intros k. rewrite Hget.
    destruct (lastVal k rest); [reflexivity|].
    rewrite rowSet_get. now destruct (String.eqb k1 k).
Qed.

(** X19. The record a line adds to the Index: its key is the integer of
    the line's first value (0 when that is no integer), and its row maps
    each name among the later pairs, once, to the value of the last pair
    with that name.  The first pair itself never enters the row. *)
Theorem line_row_keeps_last_value (wtd : bool) (B : Z) (its : list Item)
  (st : State) (ln : Line) (name : string) (v : jval) (rest : list (string * jval)) :
  upserts (New 32) its = Ok (tr st) ->
  parsed ln = Some ((name, v) :: rest) ->
  exists st' r,
    ingestLine wtd B st ln = Ok (Completed st') /\
    Get (tr st') (match ToInt v with Some i => i | None => 0 end) = Ok (Some r) /\
    NoDup (map fst r) /\
    forall k, rowGet k r = option_map anyOf (lastVal k rest).
Proof.
  intros Hup Hparsed.
  pose proof (built_unique 32 its (tr st) is_int_32 Hup) as Hinv.
  unfold ingestLine.
  assert (Hflush : exists st1,
    (if wtd && (B <? wrapU64 (lineLen ln + currentMapSize st))
     then writeMapToFile st B else Ok st) = Ok st1 /\ Inv (tr st1)).
  { destruct (wtd && (B <? wrapU64 (lineLen ln + currentMapSize st))).
    - destruct (writeMapToFile_total st B Hinv) as (d' & Hw).
      eexists. split; [exact Hw|]. cbn [tr]. apply New_Inv, is_int_32.
    - exists st. split; [reflexivity|assumption]. }
  destruct Hflush as (st1 & -> & Hinv1). cbn [bind].
  rewrite Hparsed. cbn [readPairs].
  assert (Htk : fst (trackKey st1 v) = match ToInt v with Some i => i | None => 0 end
                /\ tr (snd (trackKey st1 v)) = tr st1).
  { unfold trackKey.
    destruct (if setMinMaxKey st1 then (minKey st1, maxKey st1) else _) as [mn mx].
    split; reflexivity. }
  destruct (trackKey st1 v) as [pk st2]. cbn [fst snd] in Htk.
  destruct Htk as [Hpk Htr]. rewrite Htr.
  set (tempMap := fold_left (fun m p => rowSet (fst p) (anyOf (snd p)) m) rest []).
  destruct (Upsert_spec (tr st1) (mkItem pk tempMap) Hinv1)
    as (tr' & old & rep & Hupd & _).
  rewrite Hupd. cbn [bind].
  destruct (Get_after_Upsert (tr st1) (mkItem pk tempMap) tr' old rep pk Hinv1 Hupd)
    as [_ Hget].
  cbn [PK row] in Hget. rewrite Z.eqb_refl in Hget.
  eexists _, tempMap. split; [reflexivity|]. cbn [tr].
  rewrite <- Hpk. split; [exact Hget|].
  destruct (rowFold_spec rest [] (NoDup_nil _)) as [Hnd Hrow].
  split; [exact Hnd|]. intros k. fold tempMap in Hrow. rewrite Hrow.
  now destruct (lastVal k rest).
Qed.

Lemma line_row_keeps_last_value_witness :
  let ln := mkLine 40 (Some [("id", JNumber "7"); ("a", JString "x");
                             ("id", JNumber "8"); ("a", JBool true)]%string) in
  exists st' r,
    ingestLine true 400 initState ln = Ok (Completed st') /\
    Get (tr st') 7 = Ok (Some r) /\
    NoDup (map fst r) /\
    forall k, rowGet k r
              = option_map anyOf (lastVal k [("a", JString "x"); ("id", JNumber "8");
                                             ("a", JBool true)]%string).
Proof.
  cbv zeta.
  apply (line_row_keeps_last_value true 400 [] initState
           (mkLine 40 (Some [("id", JNumber "7"); ("a", JString "x");
                             ("id", JNumber "8"); ("a", JBool true)]%string))
           "id"%string (JNumber "7"%string)); reflexivity.
Defined.

(** ** Storage sizes *)

Lemma wrap64_small z : MinInt64 <= z <= MaxInt64 -> wrap64 z = z.
Proof.
  unfold wrap64, MinInt64, MaxInt64.
  change (2 ^ 63) with 9223372036854775808.
  change (2 ^ 64) with 18446744073709551616.
  intros H. rewrite Z.mod_small; lia.
Qed.

Lemma tailBytes_range r : 0 <= tailBytes r <= 4.
Proof.
  unfold tailBytes.
  destruct (r =? 0); [lia|]. destruct (r <=? 2); [lia|].
  destruct (r <=? 4); [lia|]. destruct (r <=? 6); lia.
Qed.

Lemma bytesForDigits_eq d :
  0 <= d <= MaxInt64 ->
  bytesForDigits d = 4 * (d / 9) + tailBytes (d mod 9).
Proof.
  intros Hd. unfold bytesForDigits, tailBytes.
  rewrite Z.quot_div_nonneg by lia. rewrite Z.rem_mod_nonneg by lia.
  pose proof (Z.div_pos d 9) as Hq.
  pose proof (Z.mod_pos_bound d 9) as Hr.
  pose proof (Z.div_mod d 9) as Hdm.
  assert (Hb : wrap64 (d / 9 * 4) = 4 * (d / 9)).
  { rewrite wrap64_small; [lia|]. unfold MinInt64, MaxInt64 in *.
    change (2 ^ 63) with 9223372036854775808 in *. lia. }
  rewrite Hb.
  assert (Hw : forall k, 0 <= k <= 4 -> wrap64 (4 * (d / 9) + k) = 4 * (d / 9) + k).
  { intros k Hk. apply wrap64_small. unfold MinInt64, MaxInt64 in *.
    change (2 ^ 63) with 9223372036854775808 in *.
    destruct (Z.eq_dec (d / 9) 0) as [E|E]; lia. }
  destruct (d mod 9 =? 0); [lia|].
  destruct (d mod 9 <=? 2); [apply Hw; lia|].
  destruct (d mod 9 <=? 4); [apply Hw; lia|].
  destruct (d mod 9 <=? 6); apply Hw; lia.
Qed.

Lemma tailBytes_holds r : 0 <= r < 9 -> 10 ^ r <= 256 ^ tailBytes r.
Proof.
  intros Hr.
  assert (H : r = 0 \/ r = 1 \/ r = 2 \/ r = 3 \/ r = 4 \/ r = 5 \/ r = 6
              \/ r = 7 \/ r = 8) by lia.
  destruct H as [->|[->|[->|[->|[->|[->|[->|[->| ->]]]]]]]]; vm_compute; discriminate.
Qed.

Lemma bytesForDigits_holds d :
  0 <= d <= MaxInt64 -> 10 ^ d <= 256 ^ bytesForDigits d.
Proof.
  intros Hd. rewrite (bytesForDigits_eq d Hd).
  pose proof (Z.div_pos d 9) as Hq.
  pose proof (Z.mod_pos_bound d 9) as Hr.
  pose proof (tailBytes_range (d mod 9)) as Ht.
  rewrite (Z.div_mod d 9) at 1 by lia.
  rewrite !Z.pow_add_r by lia. rewrite !Z.pow_mul_r by lia.
  apply Z.mul_le_mono_nonneg.
  - apply Z.pow_nonneg. vm_compute. discriminate.
  - apply Z.pow_le_mono_l. vm_compute. split; discriminate.
  - apply Z.pow_nonneg. lia.
  - apply tailBytes_holds. lia.
Qed.

Lemma bytesForDigits_half d :
  0 <= d <= MaxInt64 -> 0 <= bytesForDigits d /\ 2 * bytesForDigits d <= d + 1.
Proof.
  intros Hd. rewrite (bytesForDigits_eq d Hd).
  pose proof (Z.div_pos d 9) as Hq.
  pose proof (Z.mod_pos_bound d 9) as Hr.
  pose proof (Z.div_mod d 9) as Hdm.
  unfold tailBytes.
  destruct (Z.eqb_spec (d mod 9) 0); [lia|].
  destruct (Z.leb_spec (d mod 9) 2); [lia|].
  destruct (Z.leb_spec (d mod 9) 4); [lia|].
  destruct (Z.leb_spec (d mod 9) 6); lia.
Qed.

Lemma bytesForDigits_mono d d' :
  0 <= d <= d' -> d' <= MaxInt64 -> bytesForDigits d <= bytesForDigits d'.
Proof.
  intros Hd Hd'.
  rewrite (bytesForDigits_eq d) by lia. rewrite (bytesForDigits_eq d') by lia.
  pose proof (Z.mod_pos_bound d 9) as Hr.
  pose proof (Z.mod_pos_bound d' 9) as Hr'.
  pose proof (Z.div_mod d 9) as Hdm.
  pose proof (Z.div_mod d' 9) as Hdm'.
  pose proof (tailBytes_range (d mod 9)) as Ht.
  pose proof (tailBytes_range (d' mod 9)) as Ht'.
  destruct (Z.eq_dec (d / 9) (d' / 9)) as [E|E].
  - rewrite E in *. assert (Hrr : d mod 9 <= d' mod 9) by lia.
    unfold tailBytes.
    destruct (Z.eqb_spec (d mod 9) 0); destruct (Z.eqb_spec (d' mod 9) 0);
      destruct (Z.leb_spec (d mod 9) 2); destruct (Z.leb_spec (d' mod 9) 2);
      destruct (Z.leb_spec (d mod 9) 4); destruct (Z.leb_spec (d' mod 9) 4);
      destruct (Z.leb_spec (d mod 9) 6); destruct (Z.leb_spec (d' mod 9) 6); lia.
  - assert (d / 9 < d' / 9) by lia. lia.
Qed.

Lemma decimalBytes_eq precision scale :
  0 <= scale <= precision -> precision <= MaxInt64 ->
  decimalBytes precision scale
  = bytesForDigits (precision - scale) + bytesForDigits scale.
Proof.
  intros Hs Hp. unfold decimalBytes.
  assert (Hrange : forall z, 0 <= z <= MaxInt64 -> MinInt64 <= z <= MaxInt64).
  { intros z Hz. unfold MinInt64, MaxInt64 in *.
    change (2 ^ 63) with 9223372036854775808 in *. lia. }
  rewrite (wrap64_small (precision - scale)) by (apply Hrange; lia).
  destruct (Z.ltb_spec (precision - scale) 0); [lia|].
  destruct (bytesForDigits_half (precision - scale)) as [H1 H2]; [lia|].
  destruct (bytesForDigits_half scale) as [H3 H4]; [lia|].
  apply wrap64_small. apply Hrange. lia.
Qed.

(** X20. The bytes [decimalBytes] reserves for a decimal hold every value
    of the column.  For a scale between 0 and the precision, the result
    is the sum of two parts, one for the [precision - scale] digits before
    the point and one for the [scale] digits after it; each part has
    enough bytes for all numbers of that many decimal digits, and the two
    together take at most one byte for every two digits, plus one. *)
Theorem decimal_bytes_hold_all_digits (precision scale : Z) :
  0 <= scale <= precision -> precision <= MaxInt64 ->
  exists a b,
    decimalBytes precision scale = a + b /\
    10 ^ (precision - scale) <= 256 ^ a /\
    10 ^ scale <= 256 ^ b /\
    0 <= a /\ 0 <= b /\ 2 * (a + b) <= precision + 2.
Proof.
  intros Hs Hp.
  exists (bytesForDigits (precision - scale)), (bytesForDigits scale).
  destruct (bytesForDigits_half (precision - scale)) as [H1 H2]; [lia|].
  destruct (bytesForDigits_half scale) as [H3 H4]; [lia|].
  split; [now apply decimalBytes_eq|].
  split; [apply bytesForDigits_holds; lia|].
  split; [apply bytesForDigits_holds; lia|]. lia.
Qed.

Lemma decimal_bytes_hold_all_digits_witness :
  exists a b,
    decimalBytes 10 2 = a + b /\
    10 ^ (10 - 2) <= 256 ^ a /\ 10 ^ 2 <= 256 ^ b /\
    0 <= a /\ 0 <= b /\ 2 * (a + b) <= 10 + 2.
Proof.
  apply (decimal_bytes_hold_all_digits 10 2);
    unfold MaxInt64; change (2 ^ 63) with 9223372036854775808; lia.
Defined.

(** X21. A wider decimal never takes fewer bytes: [decimalBytes] grows
    with the precision at a fixed scale, and with the scale at a fixed
    number of digits before the point. *)
Theorem decimal_bytes_monotone (p p' s s' : Z) :
  0 <= s <= s' -> s <= p -> p - s <= p' - s' -> p' <= MaxInt64 ->
  decimalBytes p s <= decimalBytes p' s'.
Proof.
  intros Hs Hp Hi Hmax.
  rewrite (decimalBytes_eq p s) by lia.
  rewrite (decimalBytes_eq p' s') by lia.
  pose proof (bytesForDigits_mono (p - s) (p' - s')).
  pose proof (bytesForDigits_mono s s'). lia.
Qed.

Lemma decimal_bytes_monotone_witness : decimalBytes 10 2 <= decimalBytes 12 3.
Proof.
  apply (decimal_bytes_monotone 10 12 2 3);
    unfold MaxInt64; change (2 ^ 63) with 9223372036854775808; lia.
Defined.

(** X22. [fracBytes] holds the fractional seconds it is asked for.  With
    the precision taken into the range from 0 to 6 digits (below 0 as 0,
    above 6 as 6), the bytes it returns have room for every fraction of
    that many decimal digits, and they are the bytes [decimalBytes] counts
    for as many digits after the point. *)
Theorem frac_bytes_hold_fraction (fsp : Z) :
  let digits := Z.max 0 (Z.min fsp 6) in
  10 ^ digits <= 256 ^ fracBytes fsp /\ fracBytes fsp = decimalBytes digits digits.
Proof.
  cbv zeta.
  destruct (Z.le_gt_cases fsp 0) as [Hlo|Hlo].
  - replace (Z.max 0 (Z.min fsp 6)) with 0 by lia.
    unfold fracBytes. destruct (Z.leb_spec fsp 0); [|lia].
    split; [vm_compute; discriminate|reflexivity].
  - destruct (Z.le_gt_cases 6 fsp) as [Hhi|Hhi].
    + replace (Z.max 0 (Z.min fsp 6)) with 6 by lia.
      unfold fracBytes. destruct (Z.leb_spec fsp 0); [lia|].
      destruct (Z.leb_spec fsp 2); [lia|]. destruct (Z.leb_spec fsp 4); [lia|].
      split; [vm_compute; discriminate|reflexivity].
    + replace (Z.max 0 (Z.min fsp 6)) with fsp by lia.
      assert (E : fsp = 1 \/ fsp = 2 \/ fsp = 3 \/ fsp = 4 \/ fsp = 5) by lia.
      destruct E as [->|[->|[->|[->| ->]]]];
        (split; [vm_compute; discriminate|vm_compute; reflexivity]).
Qed.

(** ** Seek points *)

Lemma mapSet_get {V : Type} k (v : V) : forall m k',
  mapGet k' (mapSet k v m) = if String.eqb k k' then Some v else mapGet k' m.
Proof.
  induction m as [|[k1 v1] m IH]; intros k'; cbn [mapSet].
  - unfold mapGet. cbn [find fst snd]. now destruct (String.eqb k k').
  - destruct (String.eqb_spec k1 k) as [E|E].
    + subst k1. unfold mapGet. cbn [find fst snd].
      now destruct (String.eqb k k').
    + unfold mapGet in *. cbn [find fst snd].
      destruct (String.eqb_spec k1 k') as [E'|E'].
      * subst k1. destruct (String.eqb_spec k k'); [congruence|reflexivity].
      * apply IH.
Qed.

Lemma seekLoop_other m c : forall order prev acc,
  ~ In c order -> mapGet c (seekLoop m order prev acc) = mapGet c acc.
Proof.
  induction order as [|a order IH]; intros prev acc Hc; cbn [seekLoop];
    [reflexivity|].
  rewrite IH by (intros H; apply Hc; now right).
  rewrite mapSet_get. destruct (String.eqb_spec a c) as [E|E]; [|reflexivity].
  exfalso. apply Hc. now left.
Qed.

Lemma sumSizes_app m l1 l2 : sumSizes m (l1 ++ l2) = sumSizes m l1 + sumSizes m l2.
Proof.
  unfold sumSizes. induction l1 as [|a l1 IH]; cbn [app fold_right]; lia.
Qed.

Lemma sumSizes_nonneg m l :
  (forall x, In x l -> 1 <= colSize m x) -> 0 <= sumSizes m l.
Proof.
  unfold sumSizes. induction l as [|a l IH]; intros H; cbn [fold_right]; [lia|].
  pose proof (H a (or_introl eq_refl)).
  assert (0 <= fold_right (fun c acc => colSize m c + acc) 0 l).
  { apply IH. intros x Hx. apply H. now right. }
  lia.
Qed.

Lemma wrapU32_small z : 0 <= z < 2 ^ 32 -> wrapU32 z = z.
Proof. intros H. unfold wrapU32. now apply Z.mod_small. Qed.

Lemma seekLoop_at m c post : forall pre prev acc,
  NoDup (pre ++ c :: post) ->
  (forall x, In x (pre ++ c :: post) -> 1 <= colSize m x) ->
  0 <= prev -> prev + sumSizes m (pre ++ c :: post) < 2 ^ 32 ->
  mapGet c (seekLoop m (pre ++ c :: post) prev acc)
  = Some (mkSeekPoints (prev + sumSizes m pre)
                       (prev + sumSizes m pre + colSize m c - 1)).
Proof.
  induction pre as [|a pre IH]; intros prev acc Hnd Hsz Hprev Hmax;
    cbn [app seekLoop].
  - cbn [app] in *. inversion Hnd as [|? ? Hnotin _]; subst.
    rewrite (seekLoop_other m c post _ _ Hnotin), mapSet_get, String.eqb_refl.
    fold (colSize m c).
    pose proof (Hsz c (or_introl eq_refl)) as Hc.
    assert (Hpost : 0 <= sumSizes m post).
    { apply sumSizes_nonneg. intros x Hx. apply Hsz. now right. }
    change (sumSizes m (c :: post)) with (colSize m c + sumSizes m post) in Hmax.
    change (sumSizes m []) with 0.
    rewrite (wrapU32_small (colSize m c)) by lia.
    rewrite (wrapU32_small (prev + colSize m c)) by lia.
    rewrite wrapU32_small by lia.
    f_equal. f_equal; lia.
  - cbn [app] in *. inversion Hnd as [|? ? Hnotin Hrest]; subst.
    fold (colSize m a).
    pose proof (Hsz a (or_introl eq_refl)) as Ha.
    assert (Hrestsz : forall x, In x (pre ++ c :: post) -> 1 <= colSize m x).
    { intros x Hx. apply Hsz. now right. }
    pose proof (sumSizes_nonneg m _ Hrestsz) as Hnn.
    change (sumSizes m (a :: pre ++ c :: post))
      with (colSize m a + sumSizes m (pre ++ c :: post)) in Hmax.
    rewrite (wrapU32_small (colSize m a)) by lia.
    rewrite (wrapU32_small (prev + colSize m a)) by lia.
    rewrite IH by (try assumption; lia).
    change (sumSizes m (a :: pre)) with (colSize m a + sumSizes m pre).
    f_equal. f_equal; lia.
Qed.

(** X23. The seek points tile the row.  For columns of distinct names,
    each at least one byte wide, the row below 2^32 bytes: every column's
    range starts where the sizes of the columns before it end, and is as
    long as the column's size.  So the first range starts at byte 0, each
    next one at the byte after the end of the one before, and no two
    ranges overlap. *)
Theorem seek_ranges_tile_the_row (m : list (string * Z)) (pre post : list string)
  (c : string) :
  NoDup (pre ++ c :: post) ->
  (forall x, In x (pre ++ c :: post) -> 1 <= colSize m x) ->
  sumSizes m (pre ++ c :: post) < 2 ^ 32 ->
  mapGet c (determineSeekPoints m (pre ++ c :: post))
  = Some (mkSeekPoints (sumSizes m pre) (sumSizes m pre + colSize m c - 1)).
Proof.
  intros Hnd Hsz Hmax. unfold determineSeekPoints.
  rewrite (seekLoop_at m c post pre 0 [] Hnd Hsz); [reflexivity|lia|lia].
Qed.

Lemma seek_ranges_tile_the_row_witness :
  let m := [("id", 4); ("name", 20); ("born", 8)]%string in
  mapGet "name"%string (determineSeekPoints m ["id"; "name"; "born"]%string)
  = Some (mkSeekPoints 4 23).
Proof.
  cbv zeta.
  apply (seek_ranges_tile_the_row [("id", 4); ("name", 20); ("born", 8)]%string
           ["id"%string] ["born"%string] "name"%string).
  - repeat constructor; cbn; intuition discriminate.
  - intros x [<-|[<-|[<-|[]]]]; vm_compute; discriminate.
  - vm_compute. reflexivity.
Defined.

(** ** The row size *)

Lemma rowSizeBytes_sum : forall (m : list (string * Z)) acc,
  Forall (fun e => 0 <= snd e) m ->
  0 <= acc -> acc + fold_right (fun e a => snd e + a) 0 m < 2 ^ 64 ->
  fold_left (fun total e => wrapU64 (total + wrapU64 (snd e))) m acc
  = acc + fold_right (fun e a => snd e + a) 0 m.
Proof.
  induction m as [|e m IH]; intros acc Hm Hacc Hmax; cbn [fold_left fold_right] in *.
  - lia.
  - inversion Hm as [|? ? He Hrest]; subst.
    assert (Hnn : 0 <= fold_right (fun e a => snd e + a) 0 m).
    { clear -Hrest. induction Hrest as [|x l Hx _ IHl]; cbn [fold_right]; lia. }
    assert (E1 : wrapU64 (snd e) = snd e).
    { unfold wrapU64. apply Z.mod_small. lia. }
    assert (E2 : wrapU64 (acc + snd e) = acc + snd e).
    { unfold wrapU64. apply Z.mod_small. lia. }
    rewrite E1, E2, IH by (try assumption; lia). lia.
Qed.

Lemma colSize_cons_other k v m c :
  k <> c -> colSize ((k, v) :: m) c = colSize m c.
Proof.
  intros H. unfold colSize, mapGet. cbn [find fst].
  destruct (String.eqb_spec k c); [contradiction|reflexivity].
Qed.

Lemma sumSizes_cons_other k v m l :
  ~ In k l -> sumSizes ((k, v) :: m) l = sumSizes m l.
Proof.
  unfold sumSizes. induction l as [|a l IH]; intros H; cbn [fold_right];
    [reflexivity|].
  rewrite IH by (intros Hin; apply H; now right).
  rewrite colSize_cons_other; [reflexivity|].
  intros E. apply H. now left.
Qed.

Lemma sumSizes_keys m :
  NoDup (map fst m) ->
  sumSizes m (map fst m) = fold_right (fun e a => snd e + a) 0 m.
Proof.
  induction m as [|[k v] m IH]; intros Hnd; [reflexivity|].
  cbn [map fst] in *. inversion Hnd as [|? ? Hnotin Hrest]; subst.
  change (sumSizes ((k, v) :: m) (k :: map fst m))
    with (colSize ((k, v) :: m) k + sumSizes ((k, v) :: m) (map fst m)).
  rewrite (sumSizes_cons_other k v m _ Hnotin), (IH Hrest).
  cbn [fold_right snd]. f_equal.
  unfold colSize, mapGet. cbn [find fst snd]. now rewrite String.eqb_refl.
Qed.

Lemma sumSizes_perm m l l' : Permutation l l' -> sumSizes m l = sumSizes m l'.
Proof.
  unfold sumSizes. induction 1; cbn [fold_right]; lia.
Qed.

Lemma colSize_entry m e :
  NoDup (map fst m) -> In e m -> colSize m (fst e) = snd e.
Proof.
  induction m as [|[k v] m IH]; intros Hnd Hin; [destruct Hin|].
  cbn [map fst] in Hnd. inversion Hnd as [|? ? Hnotin Hrest]; subst.
  destruct Hin as [<-|Hin].
  - unfold colSize, mapGet. cbn [find fst snd]. now rewrite String.eqb_refl.
  - rewrite colSize_cons_other; [now apply IH|].
    intros E. apply Hnotin. rewrite E. now apply in_map.
Qed.

(** X24. The row size is where the last seek range ends.  When the size
    map lists exactly the columns of the order, each once and at least one
    byte wide, the row below 2^32 bytes: the total [GetRowSizeSQL] returns
    is the sum of the column sizes, in whatever order the map is ranged,
    and the range of the last column ends at the byte before it. *)
Theorem row_size_is_end_of_last_range (m : list (string * Z)) (pre : list string)
  (c : string) :
  NoDup (map fst m) ->
  Permutation (map fst m) (pre ++ [c]) ->
  (forall x, In x (pre ++ [c]) -> 1 <= colSize m x) ->
  sumSizes m (pre ++ [c]) < 2 ^ 32 ->
  rowSizeBytes m = sumSizes m (pre ++ [c]) /\
  (forall m', Permutation m m' -> rowSizeBytes m' = rowSizeBytes m) /\
  exists sp, mapGet c (determineSeekPoints m (pre ++ [c])) = Some sp /\
             End sp + 1 = rowSizeBytes m.
Proof.
  intros Hnd Hperm Hsz Hmax.
  assert (Hsum : fold_right (fun e a => snd e + a) 0 m = sumSizes m (pre ++ [c])).
  { rewrite <- (sumSizes_keys m Hnd). now apply sumSizes_perm. }
  assert (Hpos : Forall (fun e => 0 <= snd e) m).
  { apply Forall_forall. intros e He.
    rewrite <- (colSize_entry m e Hnd He).
    assert (Hin : In (fst e) (pre ++ [c])).
    { apply (Permutation_in _ Hperm). now apply in_map. }
    pose proof (Hsz _ Hin). lia. }
  assert (Hlt : 2 ^ 32 < 2 ^ 64) by (vm_compute; reflexivity).
  assert (Hrow : forall m', Permutation m m' ->
            rowSizeBytes m' = sumSizes m (pre ++ [c])).
  { intros m' Hp. unfold rowSizeBytes. rewrite rowSizeBytes_sum.
    - rewrite Z.add_0_l, <- Hsum. clear -Hp.
      induction Hp; cbn [fold_right]; lia.
    - apply Forall_forall. intros e He. rewrite Forall_forall in Hpos.
      apply Hpos. apply (Permutation_in _ (Permutation_sym Hp) He).
    - lia.
    - rewrite Z.add_0_l.
      assert (E : fold_right (fun e a => snd e + a) 0 m'
                  = fold_right (fun e a => snd e + a) 0 m).
      { clear -Hp. induction Hp; cbn [fold_right]; lia. }
      rewrite E, Hsum. lia. }
  split; [apply Hrow, Permutation_refl|]. split.
  - intros m' Hp. rewrite (Hrow m' Hp). symmetry. apply Hrow, Permutation_refl.
  - assert (Hnd' : NoDup (pre ++ [c])).
    { apply (Permutation_NoDup Hperm Hnd). }
    eexists. split.
    + unfold determineSeekPoints.
      apply (seekLoop_at m c [] pre 0 [] Hnd' Hsz); lia.
    + cbn [End]. rewrite (Hrow m (Permutation_refl _)), sumSizes_app.
      change (sumSizes m [c]) with (colSize m c + 0). lia.
Qed.

Lemma row_size_is_end_of_last_range_witness :
  let m := [("name", 20); ("id", 4); ("born", 8)]%string in
  rowSizeBytes m = sumSizes m (["id"%string; "name"%string] ++ ["born"%string]) /\
  (forall m', Permutation m m' -> rowSizeBytes m' = rowSizeBytes m) /\
  exists sp,
    mapGet "born"%string (determineSeekPoints m (["id"%string; "name"%string] ++ ["born"%string]))
    = Some sp /\ End sp + 1 = rowSizeBytes m.
Proof.
  cbv zeta.
  apply (row_size_is_end_of_last_range [("name", 20); ("id", 4); ("born", 8)]%string
           ["id"; "name"]%string "born"%string).
  - repeat constructor; cbn; intuition discriminate.
  - cbn [map fst app].
    apply (perm_trans (perm_swap "id"%string "name"%string ["born"%string])).
    apply Permutation_refl.
  - intros x [<-|[<-|[<-|[]]]]; vm_compute; discriminate.
  - vm_compute. reflexivity.
Defined.

(** ** Buffering and [Flush] *)

Lemma Flush_sound w :
  sound w ->
  exists w', Flush w = (w', false) /\ sound w' /\
             written w' = accepted w /\ accepted w' = accepted w /\
             BytesWritten w' = BytesWritten w /\ Records w' = Records w.
Proof.
  unfold sound, written, accepted, Flush, bufFlush.
  destruct w as [[[c cl] pend fl] bytes recs].
  cbn [bw wr closed failed content pending BytesWritten Records]. intros [-> ->].
  destruct pend as [|x pend]; cbn [fileWrite closed content];
    eexists; (split; [reflexivity|]);
    cbn [bw wr closed failed content pending BytesWritten Records];
    rewrite ?app_nil_r; repeat split.
Qed.

Lemma wrapU64_range z : 0 <= wrapU64 z < 2 ^ 64.
Proof. unfold wrapU64. apply Z.mod_pos_bound. lia. Qed.

(** X25. A [Flush] between records makes what was accepted durable and
    leaves the writer usable.  Records that all encode, written to a
    writer on a new, empty file with a [Flush] after the first [l1] of
    them: the flush reports no error and the file then holds the frames
    of [l1]; after the remaining records and [Close] it holds the frames
    of all of them in order, exactly as without the flush, and [Records]
    counts them all. *)
Theorem flush_commits_accepted_records l1 l2 :
  forallb encodable (l1 ++ l2) = true ->
  let write := fold_left (fun w it => fst (WriteItem w it)) in
  let w1 := write l1 (NewWriter (mkFile [] false)) in
  let w3 := fst (Close (write l2 (fst (Flush w1)))) in
  snd (Flush w1) = false /\
  written (fst (Flush w1)) = segmentBytes l1 /\
  written w3 = segmentBytes (l1 ++ l2) /\
  written w3 = written (fst (Close (write (l1 ++ l2) (NewWriter (mkFile [] false))))) /\
  Records w3 = wrapU64 (len (l1 ++ l2)).
Proof.
  intros Henc write w1 w3. subst write.
  apply forallb_app_inv in Henc. destruct Henc as [H1 H2].
  assert (Hs0 : sound (NewWriter (mkFile [] false))) by (split; reflexivity).
  assert (Hb0 : 0 <= BytesWritten (NewWriter (mkFile [] false)) < 2 ^ 64).
  { cbn. lia. }
  assert (Hr0 : 0 <= Records (NewWriter (mkFile [] false)) < 2 ^ 64).
  { cbn. lia. }
  destruct (writeItems_counts l1 _ Hs0 H1 Hb0 Hr0) as (Hs1 & Ha1 & Hb1 & Hr1).
  fold w1 in Hs1, Ha1, Hb1, Hr1.
  destruct (Flush_sound w1 Hs1) as (w2 & Hfl & Hs2 & Hw2 & Ha2 & Hbw2 & Hrc2).
  subst w3. rewrite Hfl. cbn [fst snd].
  assert (Hacc1 : accepted w1 = segmentBytes l1).
  { rewrite Ha1. reflexivity. }
  assert (Hb2 : 0 <= BytesWritten w2 < 2 ^ 64).
  { rewrite Hbw2, Hb1. apply wrapU64_range. }
  assert (Hr2 : 0 <= Records w2 < 2 ^ 64).
  { rewrite Hrc2, Hr1. apply wrapU64_range. }
  destruct (writeItems_counts l2 w2 Hs2 H2 Hb2 Hr2) as (Hs3 & Ha3 & Hb3 & Hr3).
  destruct (Close_sound_full _ Hs3) as (w4 & Hc & Hw4 & _ & _ & Hrc4).
  rewrite Hc. cbn [fst].
  assert (Hall : forallb encodable (l1 ++ l2) = true).
  { rewrite forallb_app, H1, H2. reflexivity. }
  destruct (writeItems_counts (l1 ++ l2) _ Hs0 Hall Hb0 Hr0) as (Hs5 & Ha5 & _ & _).
  destruct (Close_sound_full _ Hs5) as (w6 & Hc6 & Hw6 & _).
  rewrite Hc6. cbn [fst].
  assert (Hfinal : written w4 = segmentBytes (l1 ++ l2)).
  { rewrite Hw4, Ha3, Ha2, Hacc1, segmentBytes_app. reflexivity. }
  split; [reflexivity|]. split; [now rewrite Hw2|]. split; [exact Hfinal|]. split.
  - rewrite Hfinal, Hw6, Ha5. reflexivity.
  - rewrite Hrc4, Hr3, Hrc2, Hr1, wrapU64_add_l. f_equal.
    cbn [Records NewWriter]. rewrite len_app. lia.
Qed.

Lemma flush_commits_accepted_records_witness :
  let l1 := [mkItem 7 [("a"%string, AInt 1)]] in
  let l2 := [mkItem 9 [("b"%string, ABool true)]] in
  let write := fold_left (fun w it => fst (WriteItem w it)) in
  written (fst (Flush (write l1 (NewWriter (mkFile [] false))))) = segmentBytes l1.
Proof.
  cbv zeta.
  apply (flush_commits_accepted_records
           [mkItem 7 [("a"%string, AInt 1)]] [mkItem 9 [("b"%string, ABool true)]]).
  vm_compute; reflexivity.
Defined.

Lemma bufWrite_fits b p :
  failed b = false -> len (pending b) + len p <= bufSize ->
  bufWrite b p = (mkBuf (wr b) (pending b ++ p) false, false).
Proof.
  intros Hf Hfit. unfold bufWrite. cbn [bufWriteLoop].
  unfold available.
  destruct (Z.ltb_spec (bufSize - len (pending b)) (len p)) as [H|H]; [lia|].
  cbn [andb]. now rewrite Hf.
Qed.

Lemma WriteItem_fits w it f :
  failed (bw w) = false -> frameOf it = Some f ->
  len (pending (bw w)) + len f <= bufSize ->
  exists w', WriteItem w it = (w', None) /\
             wr (bw w') = wr (bw w) /\ failed (bw w') = false /\
             pending (bw w') = pending (bw w) ++ f.
Proof.
  intros Hf Hframe Hfit.
  destruct (length_frame it f Hframe) as (buf & Hbuf & Hlen).
  unfold frameOf in Hframe. rewrite Hbuf in Hframe.
  assert (E : f = le_bytes 4 (wrapU32 (len buf)) ++ buf) by congruence.
  unfold WriteItem. rewrite Hbuf.
  pose proof (len_nonneg buf) as Hnn.
  assert (Hle : len (le_bytes 4 (wrapU32 (len buf))) = 4).
  { unfold len. now rewrite length_le_bytes. }
  rewrite (bufWrite_fits (bw w) _ Hf) by lia.
  rewrite bufWrite_fits; cbn [failed pending wr]; [|reflexivity|rewrite len_app; lia].
  eexists. split; [reflexivity|]. cbn [bw wr failed pending].
  split; [reflexivity|]. split; [reflexivity|]. rewrite E. symmetry. apply app_assoc.
Qed.

Lemma writeItems_fit l : forall w,
  failed (bw w) = false -> forallb encodable l = true ->
  len (pending (bw w)) + len (segmentBytes l) <= bufSize ->
  let w' := fold_left (fun w it => fst (WriteItem w it)) l w in
  wr (bw w') = wr (bw w) /\ failed (bw w') = false /\
  pending (bw w') = pending (bw w) ++ segmentBytes l.
Proof.
  induction l as [|it l IH]; intros w Hf Henc Hfit; cbn [fold_left segmentBytes] in *.
  - split; [reflexivity|]. split; [assumption|]. now rewrite app_nil_r.
  - cbn [forallb] in Henc. apply andb_true_iff in Henc. destruct Henc as [Hit Hl].
    unfold encodable in Hit. destruct (frameOf it) as [f|] eqn:Hframe; [|discriminate].
    rewrite len_app in Hfit. pose proof (len_nonneg (segmentBytes l)) as Hnn.
    destruct (WriteItem_fits w it f Hf Hframe) as (w1 & Hw & Hwr & Hf1 & Hp1); [lia|].
    rewrite Hw. cbn [fst].
    destruct (IH w1 Hf1 Hl) as (Hwr' & Hf' & Hp').
    { rewrite Hp1, len_app. lia. }
    split; [congruence|]. split; [assumption|].
    rewrite Hp', Hp1. symmetry. apply app_assoc.
Qed.

(** X26. Records stay in the writer's buffer until it is flushed.  While
    the frames of the records given to a writer on a new, empty file take
    no more than the 16 MiB of its buffer, the file stays empty; the
    frames reach it with the next [Flush]. *)
Theorem records_stay_buffered_until_flush l :
  forallb encodable l = true ->
  len (segmentBytes l) <= bufSize ->
  let w := fold_left (fun w it => fst (WriteItem w it)) l (NewWriter (mkFile [] false)) in
  written w = [] /\ written (fst (Flush w)) = segmentBytes l.
Proof.
  intros Henc Hfit w.
  destruct (writeItems_fit l (NewWriter (mkFile [] false)) eq_refl Henc)
    as (Hwr & Hf & Hp).
  { cbn [NewWriter bw pending]. unfold len at 1. cbn [length Z.of_nat]. lia. }
  fold w in Hwr, Hf, Hp. cbn [NewWriter bw wr pending app] in Hwr, Hp.
  split; [unfold written; now rewrite Hwr|].
  assert (Hs : sound w).
  { split; [now rewrite Hwr|assumption]. }
  destruct (Flush_sound w Hs) as (w' & Hfl & _ & Hw' & _).
  rewrite Hfl. cbn [fst]. rewrite Hw'. unfold accepted. now rewrite Hwr, Hp.
Qed.

Lemma records_stay_buffered_until_flush_witness :
  let l := [mkItem 7 [("a"%string, AInt 1)]; mkItem 9 [("b"%string, ABool true)]] in
  let w := fold_left (fun w it => fst (WriteItem w it)) l (NewWriter (mkFile [] false)) in
  written w = [] /\ written (fst (Flush w)) = segmentBytes l.
Proof.
  cbv zeta.
  apply (records_stay_buffered_until_flush
           [mkItem 7 [("a"%string, AInt 1)]; mkItem 9 [("b"%string, ABool true)]]);
    vm_compute; [reflexivity|discriminate].
Defined.

(** ** The storage directory *)

Lemma fileName_eqb_eq a b : fileName_eqb a b = true <-> a = b.
Proof.
  destruct a as [x|x1 x2], b as [y|y1 y2]; cbn [fileName_eqb].
  - rewrite Z.eqb_eq. split; congruence.
  - split; discriminate.
  - split; discriminate.
  - rewrite andb_true_iff, !Z.eqb_eq. split; [intros [-> ->]; reflexivity|].
    intros H. injection H as -> ->. now split.
Qed.

Lemma fileName_eqb_refl a : fileName_eqb a a = true.
Proof. now apply fileName_eqb_eq. Qed.

Lemma fileName_eqb_neq a b : a <> b -> fileName_eqb a b = false.
Proof.
  intros H. destruct (fileName_eqb a b) eqn:E; [|reflexivity].
  apply fileName_eqb_eq in E. contradiction.
Qed.

Lemma dirLookup_dirRemove n m d :
  dirLookup n (dirRemove m d)
  = if fileName_eqb m n then None else dirLookup n d.
Proof.
  unfold dirLookup, dirRemove.
  induction d as [|[k c] d IH]; cbn [filter find fst negb].
  - now destruct (fileName_eqb m n).
  - destruct (fileName_eqb k m) eqn:Ekm; cbn [negb].
    + apply fileName_eqb_eq in Ekm. subst k. rewrite IH.
      destruct (fileName_eqb m n); reflexivity.
    + cbn [find fst]. destruct (fileName_eqb k n) eqn:Ekn.
      * apply fileName_eqb_eq in Ekn. subst k.
        destruct (fileName_eqb m n) eqn:Emn; [|reflexivity].
        apply fileName_eqb_eq in Emn. subst m.
        rewrite fileName_eqb_refl in Ekm. discriminate.
      * apply IH.
Qed.

Lemma dirLookup_cons n m c d :
  dirLookup n ((m, c) :: d) = if fileName_eqb m n then Some c else dirLookup n d.
Proof.
  unfold dirLookup. cbn [find fst]. now destruct (fileName_eqb m n).
Qed.

Lemma dirLookup_dirStore n m c d :
  dirLookup n (dirStore m c d)
  = if fileName_eqb m n then Some c else dirLookup n d.
Proof.
  unfold dirStore. rewrite dirLookup_cons, dirLookup_dirRemove.
  now destruct (fileName_eqb m n).
Qed.

Lemma dirLookup_renameFile n old new d :
  dirLookup n (renameFile old new d)
  = match dirLookup old d with
    | Some c => if fileName_eqb new n then Some c
                else if fileName_eqb old n then None else dirLookup n d
    | None => dirLookup n d
    end.
Proof.
  unfold renameFile. destruct (dirLookup old d) as [c|]; [|reflexivity].
  rewrite dirLookup_cons, !dirLookup_dirRemove.
  now destruct (fileName_eqb new n).
Qed.

Lemma lowerRenamed_lookup mn ret c d n :
  dirLookup n (renameFile (LowerName mn) (SegName mn ret)
                 (dirStore (LowerName mn) c d))
  = if fileName_eqb (SegName mn ret) n then Some c
    else if fileName_eqb (LowerName mn) n then None else dirLookup n d.
Proof.
  rewrite dirLookup_renameFile, !dirLookup_dirStore, fileName_eqb_refl.
  destruct (fileName_eqb (SegName mn ret) n); [reflexivity|].
  now destruct (fileName_eqb (LowerName mn) n).
Qed.

(** X27. A flush touches no file but its own.  Whatever the Index holds
    and whether or not records fail to encode, after [writeMapToFile] no
    file with the temporary name of the lower segment is left in the
    directory, and every file whose name is not that of a segment
    starting at [minKey] or ending at [maxKey] holds what it held
    before. *)
Theorem flush_touches_only_its_files (st st' : State) (B : Z) :
  writeMapToFile st B = Ok st' ->
  dirLookup (LowerName (minKey st)) (dir st') = None /\
  forall name,
    name <> LowerName (minKey st) ->
    (forall hi, name <> SegName (minKey st) hi) ->
    (forall lo, name <> SegName lo (maxKey st)) ->
    dirLookup name (dir st') = dirLookup name (dir st).
Proof.
  unfold writeMapToFile. intros H.
  destruct (IterAscend (tr st)) as [it| |]; cbn [bind] in H; try discriminate.
  destruct (iteratorWriter _ it createNewWriter (B / 2)) as [[[ret it1] spw1]| |];
    cbn [bind] in H; try discriminate.
  destruct (Next it1) as [[r it2]| |]; cbn [bind] in H; try discriminate.
  destruct r as [item|].
  - destruct (WriteItem createNewWriter item) as [spw2 werr].
    destruct (iteratorWriter _ it2 _ 0) as [[[ret' it3] spw4]| |];
      cbn [bind] in H; try discriminate.
    injection H as <-. cbn [resetInMemoryState dir]. split.
    + rewrite dirLookup_dirStore, lowerRenamed_lookup, fileName_eqb_refl.
      reflexivity.
    + intros name Hlow Hmin Hmax.
      rewrite dirLookup_dirStore, lowerRenamed_lookup.
      rewrite (fileName_eqb_neq (SegName (PK item) (maxKey st)) name)
        by (intros E; apply (Hmax (PK item)); now rewrite E).
      rewrite (fileName_eqb_neq (SegName (minKey st) ret) name)
        by (intros E; apply (Hmin ret); now rewrite E).
      rewrite (fileName_eqb_neq (LowerName (minKey st)) name)
        by (intros E; apply Hlow; now rewrite E).
      reflexivity.
  - injection H as <-. cbn [resetInMemoryState dir]. split.
    + rewrite lowerRenamed_lookup, fileName_eqb_refl. reflexivity.
    + intros name Hlow Hmin Hmax.
      rewrite lowerRenamed_lookup.
      rewrite (fileName_eqb_neq (SegName (minKey st) ret) name)
        by (intros E; apply (Hmin ret); now rewrite E).
      rewrite (fileName_eqb_neq (LowerName (minKey st)) name)
        by (intros E; apply Hlow; now rewrite E).
      reflexivity.
Qed.

Lemma flush_touches_only_its_files_witness :
  let index := match upserts (New 32) [mkItem 3 []; mkItem 1 []] with
               | Ok tr => tr
               | _ => New 32
               end in
  let st := mkState index 300 1 3 true [(LowerName 1, []); (SegName 7 9, [])] in
  let st' := match writeMapToFile st 400 with Ok s => s | _ => st end in
  dirLookup (LowerName (minKey st)) (dir st') = None /\
  forall name,
    name <> LowerName (minKey st) ->
    (forall hi, name <> SegName (minKey st) hi) ->
    (forall lo, name <> SegName lo (maxKey st)) ->
    dirLookup name (dir st') = dirLookup name (dir st).
Proof.
  cbv zeta.
  apply (flush_touches_only_its_files
           (mkState match upserts (New 32) [mkItem 3 []; mkItem 1 []] with
                    | Ok tr => tr
                    | _ => New 32
                    end 300 1 3 true [(LowerName 1, []); (SegName 7 9, [])]) _ 400).
  vm_compute. reflexivity.
Defined.

Lemma cut_lower_nonempty brk w l :
  let '(lo, up, _) := cut brk w l in up <> [] -> lo <> [].
Proof.
  destruct l as [|it l]; cbn [cut].
  - intros H. contradiction.
  - destruct ((brk <=? wrapU64 (w + recBytes it)) && negb (brk =? 0)).
    + intros _. discriminate.
    + destruct (cut brk (wrapU64 (w + recBytes it)) l) as [[lo up] ret].
      intros _. discriminate.
Qed.

(** X28. The segments of a flush can be read back by name.  When the
    records of the Index all encode and no key is below [minKey], the
    directory after the flush holds the lower records under the name of
    the lower segment and the upper records, if any, under the name of
    the upper segment, whatever files of these names existed before. *)
Theorem flushed_segments_read_back (its : list Item) (index : BTree)
  (size mn mx : Z) (flag : bool) (d : Dir) (B : Z) :
  upserts (New 32) its = Ok index ->
  forallb encodable (flat (root index)) = true ->
  forallb (fun it => mn <=? PK it) (flat (root index)) = true ->
  exists lo up ret d',
    writeMapToFile (mkState index size mn mx flag d) B
    = Ok (mkState (New 32) 0 0 0 false d') /\
    lo ++ up = flat (root index) /\
    dirLookup (SegName mn ret) d' = Some (segmentBytes lo) /\
    match up with
    | [] => True
    | u :: _ => dirLookup (SegName (PK u) mx) d' = Some (segmentBytes up)
    end.
Proof.
  intros Hup Henc Hmin.
  pose proof (built_unique 32 its index is_int_32 Hup) as Hinv.
  pose proof (writeMapToFile_sound (mkState index size mn mx flag d) B Hinv Henc) as Hw.
  cbn [tr minKey maxKey dir] in Hw.
  pose proof (cut_app (B / 2) 0 (flat (root index))) as Happ.
  pose proof Hinv as (_ & Hs & _).
  pose proof (cut_lower_below (B / 2) 0 (flat (root index)) Hs) as Hlt.
  pose proof (cut_lower_nonempty (B / 2) 0 (flat (root index))) as Hne.
  destruct (cut (B / 2) 0 (flat (root index))) as [[lo up] ret].
  exists lo, up, ret. eexists. split; [exact Hw|]. split; [now symmetry|].
  destruct up as [|u up].
  - split; [|exact I]. rewrite lowerRenamed_lookup, fileName_eqb_refl. reflexivity.
  - assert (Hlow : mn < PK u).
    { destruct lo as [|a lo]; [exfalso; now apply Hne|].
      assert (Ha : PK a < PK u) by (apply Hlt; now left).
      rewrite Happ in Hmin. cbn [app forallb] in Hmin.
      apply andb_true_iff in Hmin. destruct Hmin as [Hmin _].
      apply Z.leb_le in Hmin. lia. }
    assert (Hdiff : fileName_eqb (SegName (PK u) mx) (SegName mn ret) = false).
    { apply fileName_eqb_neq. intros E. injection E as E1 E2. lia. }
    split.
    + rewrite dirLookup_dirStore, Hdiff, lowerRenamed_lookup, fileName_eqb_refl.
      reflexivity.
    + rewrite dirLookup_dirStore, fileName_eqb_refl. reflexivity.
Qed.

Lemma flushed_segments_read_back_witness :
  let its := [mkItem 3 [("a"%string, ABool true)]; mkItem 1 []; mkItem 4 [];
              mkItem 2 [("b"%string, ANumber "2.5")]] in
  let index := match upserts (New 32) its with Ok tr => tr | _ => New 32 end in
  exists lo up ret d',
    writeMapToFile (mkState index 600 1 4 true [(SegName 1 1, [])]) 40
    = Ok (mkState (New 32) 0 0 0 false d') /\
    lo ++ up = flat (root index) /\
    dirLookup (SegName 1 ret) d' = Some (segmentBytes lo) /\
    match up with
    | [] => True
    | u :: _ => dirLookup (SegName (PK u) 4) d' = Some (segmentBytes up)
    end.
Proof.
  cbv zeta.
  apply (flushed_segments_read_back
           [mkItem 3 [("a"%string, ABool true)]; mkItem 1 []; mkItem 4 [];
            mkItem 2 [("b"%string, ANumber "2.5")]]).
  - vm_compute. reflexivity.
  - vm_compute. reflexivity.
  - vm_compute. reflexivity.
Defined.

(** ** Enum and set members *)

Lemma plainChar_toLower c : plainChar c = true -> plainChar (toLower c) = true.
Proof.
  destruct c as [[|] [|] [|] [|] [|] [|] [|] [|]]; vm_compute; intros H;
    first [reflexivity | discriminate H].
Qed.

Lemma plain_ToLower m : plain m = true -> plain (ToLower m) = true.
Proof.
  unfold plain, ToLower. induction m as [|c m IH]; cbn [map forallb]; [reflexivity|].
  intros H. apply andb_true_iff in H. destruct H as [Hc Hm].
  now rewrite (plainChar_toLower c Hc), (IH Hm).
Qed.

Lemma toLower_trimmed c : isTrimSpace c = true -> toLower c = c.
Proof.
  destruct c as [[|] [|] [|] [|] [|] [|] [|] [|]]; vm_compute; intros H;
    first [reflexivity | discriminate H].
Qed.

Lemma ToLower_memberList ms :
  ToLower (memberList ms) = memberList (map ToLower ms).
Proof.
  unfold ToLower. induction ms as [|m ms IH]; [reflexivity|].
  destruct ms as [|m' ms].
  - cbn [memberList map]. unfold quoted. cbn [map]. rewrite map_app. reflexivity.
  - change (memberList (m :: m' :: ms))
      with (quoted m ++ ","%char :: memberList (m' :: ms)).
    change (memberList (map (map toLower) (m :: m' :: ms)))
      with (quoted (map toLower m)
            ++ ","%char :: memberList (map (map toLower) (m' :: ms))).
    rewrite map_app. cbn [map] in *. rewrite IH.
    unfold quoted. cbn [map]. rewrite map_app. reflexivity.
Qed.

Lemma scan_plain_quoted : forall m c,
  plain m = true ->
  fold_left scanRune m (mkScan true false c true) = mkScan true false c true.
Proof.
  induction m as [|r m IH]; intros c Hm; cbn [fold_left]; [reflexivity|].
  unfold plain in Hm. cbn [forallb] in Hm.
  apply andb_true_iff in Hm. destruct Hm as [Hr Hm].
  unfold plainChar in Hr. rewrite !andb_true_iff in Hr.
  destruct Hr as [[[Hq Hb] _] _].
  apply negb_true_iff in Hq. apply negb_true_iff in Hb.
  assert (E : scanRune (mkScan true false c true) r = mkScan true false c true).
  { unfold scanRune. cbn [escape inQuote count tokenHasContent].
    rewrite Hb, Hq. cbn [andb negb]. rewrite andb_false_r.
    now destruct (negb (isSpace r)). }
  rewrite E. now apply IH.
Qed.

Lemma scan_quoted m c b rest :
  plain m = true ->
  fold_left scanRune (quoted m ++ rest) (mkScan false false c b)
  = fold_left scanRune rest (mkScan false false c true).
Proof.
  intros Hm. unfold quoted. cbn [app fold_left].
  rewrite <- app_assoc, fold_left_app.
  change (scanRune (mkScan false false c b) "'"%char) with (mkScan true false c true).
  rewrite (scan_plain_quoted m c Hm). reflexivity.
Qed.

Lemma scan_members : forall ms c b,
  forallb plain ms = true -> ms <> [] ->
  fold_left scanRune (memberList ms) (mkScan false false c b)
  = mkScan false false (c + len ms - 1) true.
Proof.
  induction ms as [|m ms IH]; intros c b Hms Hne; [contradiction|].
  cbn [forallb] in Hms. apply andb_true_iff in Hms. destruct Hms as [Hm Hms].
  destruct ms as [|m' ms].
  - cbn [memberList]. rewrite <- (app_nil_r (quoted m)), scan_quoted by assumption.
    cbn [fold_left]. f_equal. unfold len. cbn [length Z.of_nat]. lia.
  - change (memberList (m :: m' :: ms))
      with (quoted m ++ ","%char :: memberList (m' :: ms)).
    rewrite scan_quoted by assumption.
    cbn [fold_left].
    change (scanRune (mkScan false false c true) ","%char)
      with (mkScan false false (c + 1) false).
    rewrite IH by (assumption || discriminate).
    f_equal. unfold len. cbn [length]. lia.
Qed.

Lemma countMembers_memberList ms :
  forallb plain ms = true -> countMembers (memberList ms) = len ms.
Proof.
  intros Hms. unfold countMembers. destruct ms as [|m ms].
  - reflexivity.
  - rewrite scan_members by (assumption || discriminate).
    cbn [tokenHasContent count]. lia.
Qed.

Lemma no_line_feed_plain m :
  plain m = true -> existsb (Ascii.eqb "010") m = false.
Proof.
  unfold plain. induction m as [|c m IH]; cbn [forallb existsb]; [reflexivity|].
  intros H. apply andb_true_iff in H. destruct H as [Hc Hm].
  rewrite (IH Hm), orb_false_r.
  unfold plainChar in Hc. rewrite !andb_true_iff in Hc.
  destruct Hc as [[[_ _] Hlf] _]. apply negb_true_iff in Hlf.
  rewrite Ascii.eqb_sym. exact Hlf.
Qed.

Lemma no_line_feed_members ms :
  forallb plain ms = true -> existsb (Ascii.eqb "010") (memberList ms) = false.
Proof.
  induction ms as [|m ms IH]; intros Hms; [reflexivity|].
  cbn [forallb] in Hms. apply andb_true_iff in Hms. destruct Hms as [Hm Hms].
  assert (Hq : existsb (Ascii.eqb "010") (quoted m) = false).
  { unfold quoted. cbn [existsb]. rewrite existsb_app, (no_line_feed_plain m Hm).
    reflexivity. }
  destruct ms as [|m' ms]; [exact Hq|].
  change (memberList (m :: m' :: ms))
    with (quoted m ++ ","%char :: memberList (m' :: ms)).
  rewrite existsb_app, Hq. cbn [existsb orb]. now apply IH.
Qed.

Lemma existsb_rev_eq {A : Type} (f : A -> bool) l : existsb f (rev l) = existsb f l.
Proof.
  induction l as [|a l IH]; cbn [rev existsb]; [reflexivity|].
  rewrite existsb_app, IH. cbn [existsb]. rewrite orb_false_r. apply orb_comm.
Qed.

Lemma forallb_rev_eq {A : Type} (f : A -> bool) l : forallb f (rev l) = forallb f l.
Proof.
  induction l as [|a l IH]; cbn [rev forallb]; [reflexivity|].
  rewrite forallb_app, IH. cbn [forallb]. rewrite andb_true_r. apply andb_comm.
Qed.

Lemma TrimLeft_spaces ws s :
  forallb isTrimSpace ws = true -> TrimLeft (ws ++ s) = TrimLeft s.
Proof.
  induction ws as [|w ws IH]; cbn [app forallb TrimLeft]; [reflexivity|].
  intros H. apply andb_true_iff in H. destruct H as [Hw Hws].
  rewrite Hw. now apply IH.
Qed.

Lemma TrimSpace_core ws1 ws2 c mid d :
  forallb isTrimSpace ws1 = true -> forallb isTrimSpace ws2 = true ->
  isTrimSpace c = false -> isTrimSpace d = false ->
  TrimSpace (ws1 ++ c :: mid ++ d :: ws2) = c :: mid ++ [d].
Proof.
  intros H1 H2 Hc Hd. unfold TrimSpace.
  rewrite (TrimLeft_spaces ws1 _ H1). cbn [TrimLeft]. rewrite Hc.
  change (c :: mid ++ d :: ws2) with ((c :: mid) ++ d :: ws2).
  rewrite rev_app_distr. cbn [rev]. rewrite <- app_assoc. cbn [app].
  rewrite TrimLeft_spaces by (rewrite forallb_rev_eq; exact H2).
  cbn [TrimLeft]. rewrite Hd. cbn [rev].
  rewrite rev_app_distr, rev_involutive. reflexivity.
Qed.

Lemma keyword_head kw :
  ToLower kw = list_ascii_of_string "enum" \/ ToLower kw = list_ascii_of_string "set" ->
  exists c kw', kw = c :: kw' /\ isTrimSpace c = false.
Proof.
  intros H. destruct kw as [|c kw']; [destruct H; discriminate|].
  exists c, kw'. split; [reflexivity|].
  destruct (isTrimSpace c) eqn:E; [|reflexivity].
  pose proof (toLower_trimmed c E) as E'. unfold ToLower in H.
  cbn [map list_ascii_of_string] in H. rewrite E' in H.
  destruct H as [H|H]; injection H as Hc _; subst c; vm_compute in E; discriminate.
Qed.

Lemma reEnumSet_keyword kw inside :
  ToLower kw = list_ascii_of_string "enum" \/ ToLower kw = list_ascii_of_string "set" ->
  reEnumSet (ToLower kw ++ "("%char :: inside ++ [")"%char])
  = if existsb (Ascii.eqb "010") inside then None else Some inside.
Proof.
  intros [H|H]; rewrite H; unfold reEnumSet; cbn [list_ascii_of_string app stripPrefix];
    cbn [Ascii.eqb Bool.eqb andb];
    rewrite rev_app_distr; cbn [rev app];
    rewrite existsb_rev_eq, rev_involutive; reflexivity.
Qed.

(** X29. [countEnumOrSetMembers] counts the members of an enum or set
    type.  For an ASCII column type made of the keyword [enum] or [set] in
    any case, an opening parenthesis, quoted members separated by commas
    and a closing parenthesis, with white space before and after: when no
    member holds a quote, a backslash or a line feed, the result is the
    number of members, whatever commas and spaces the members themselves
    contain; when a line feed stands anywhere between the parentheses,
    the regular expression does not match and the result is 0 and
    [false]. *)
Theorem enum_members_are_counted (ws1 ws2 kw : list ascii) (ms : list (list ascii)) :
  forallb isTrimSpace ws1 = true -> forallb isTrimSpace ws2 = true ->
  ToLower kw = list_ascii_of_string "enum" \/ ToLower kw = list_ascii_of_string "set" ->
  forallb plain ms = true ->
  countEnumOrSetMembers (ws1 ++ kw ++ "("%char :: memberList ms ++ ")"%char :: ws2)
  = (len ms, true) /\
  forall inside,
    In "010"%char inside ->
    countEnumOrSetMembers (ws1 ++ kw ++ "("%char :: inside ++ ")"%char :: ws2)
    = (0, false).
Proof.
  intros H1 H2 Hkw Hms.
  destruct (keyword_head kw Hkw) as (c & kw' & -> & Hc).
  assert (Htrim : forall inside,
    ToLower (TrimSpace (ws1 ++ (c :: kw') ++ "("%char :: inside ++ ")"%char :: ws2))
    = ToLower (c :: kw') ++ "("%char :: ToLower inside ++ [")"%char]).
  { intros inside. cbn [app].
    replace (kw' ++ "("%char :: inside ++ ")"%char :: ws2)
      with ((kw' ++ "("%char :: inside) ++ ")"%char :: ws2)
      by (rewrite <- app_assoc; reflexivity).
    rewrite (TrimSpace_core ws1 ws2 c _ ")"%char H1 H2 Hc eq_refl).
    unfold ToLower. cbn [map]. rewrite !map_app. cbn [map].
    rewrite <- app_assoc. reflexivity. }
  split.
  - unfold countEnumOrSetMembers. rewrite Htrim, (reEnumSet_keyword _ _ Hkw).
    rewrite ToLower_memberList.
    assert (Hpl : forallb plain (map ToLower ms) = true).
    { rewrite forallb_forall in *. intros m Hm. apply in_map_iff in Hm.
      destruct Hm as (m0 & <- & Hm0). apply plain_ToLower. now apply Hms. }
    rewrite (no_line_feed_members _ Hpl), (countMembers_memberList _ Hpl).
    unfold len. now rewrite length_map.
  - intros inside Hin.
    unfold countEnumOrSetMembers. rewrite Htrim, (reEnumSet_keyword _ _ Hkw).
    assert (Hlf : existsb (Ascii.eqb "010") (ToLower inside) = true).
    { apply existsb_exists. exists "010"%char. split; [|reflexivity].
      unfold ToLower. change "010"%char with (toLower "010"%char). now apply in_map. }
    now rewrite Hlf.
Qed.

Lemma enum_members_are_counted_witness :
  countEnumOrSetMembers
    (list_ascii_of_string " " ++ list_ascii_of_string "ENUM"
     ++ "("%char :: memberList [list_ascii_of_string "A,b"; list_ascii_of_string "c d";
                                list_ascii_of_string "e"]
     ++ ")"%char :: list_ascii_of_string " ")
  = (len [list_ascii_of_string "A,b"; list_ascii_of_string "c d";
          list_ascii_of_string "e"], true).
Proof.
  apply (enum_members_are_counted
           (list_ascii_of_string " ") (list_ascii_of_string " ")
           (list_ascii_of_string "ENUM")
           [list_ascii_of_string "A,b"; list_ascii_of_string "c d";
            list_ascii_of_string "e"]);
    [reflexivity | reflexivity | left; reflexivity | reflexivity].
Defined.

(** * The keys a flush writes *)

Lemma le_value_le_bytes k : forall z,
  le_value (le_bytes k z) = z mod 256 ^ Z.of_nat k.
Proof.
  induction k as [|k IH]; intros z; cbn [le_bytes le_value].
  - change (256 ^ Z.of_nat 0) with 1. now rewrite Z.mod_1_r.
  - rewrite IH, byteZ_to_N.
    pose proof (Z.mod_pos_bound z 256 ltac:(lia)) as Hb.
    rewrite Z2N.id by lia.
    rewrite Nat2Z.inj_succ, Z.pow_succ_r by lia.
    assert (Hp : 0 < 256 ^ Z.of_nat k) by (apply Z.pow_pos_nonneg; lia).
    rewrite Z.rem_mul_r by lia. reflexivity.
Qed.

Lemma le_value_u32 z : 0 <= z < 2 ^ 32 -> le_value (le_bytes 4 z) = z.
Proof.
  intros H. rewrite le_value_le_bytes.
  change (256 ^ Z.of_nat 4) with (2 ^ 32). now apply Z.mod_small.
Qed.

Lemma firstn_le_bytes k z rest : firstn k (le_bytes k z ++ rest) = le_bytes k z.
Proof.
  rewrite firstn_app, length_le_bytes, Nat.sub_diag.
  rewrite firstn_all2 by (rewrite length_le_bytes; lia).
  cbn [firstn]. apply app_nil_r.
Qed.

Lemma skipn_le_bytes k z rest : skipn k (le_bytes k z ++ rest) = rest.
Proof.
  rewrite skipn_app, length_le_bytes, Nat.sub_diag.
  rewrite skipn_all2 by (rewrite length_le_bytes; lia).
  reflexivity.
Qed.

Lemma smallRecord_frame it :
  smallRecord it = true ->
  len (recordOf it) < 2 ^ 32 /\
  frameOf it = Some (le_bytes 4 (len (recordOf it)) ++ recordOf it) /\
  encodable it = true.
Proof.
  intros H. destruct (frameOf_small it H) as (buf & Hbuf & Hlen & Hf).
  unfold recordOf, encodable. rewrite Hbuf, Hf. now repeat split.
Qed.

Lemma smallRecord_encodable l :
  forallb smallRecord l = true -> forallb encodable l = true.
Proof.
  induction l as [|it l IH]; cbn [forallb]; [reflexivity|].
  intros H. apply andb_true_iff in H. destruct H as [Hit Hl].
  destruct (smallRecord_frame it Hit) as (_ & _ & ->). now apply IH.
Qed.

Lemma readRecords_segment : forall l fuel,
  forallb smallRecord l = true ->
  (length (segmentBytes l) < fuel)%nat ->
  readRecords fuel (segmentBytes l) = Some (map recordOf l).
Proof.
  induction l as [|it l IH]; intros fuel Hl Hfuel;
    (destruct fuel as [|fuel]; [lia|]).
  - reflexivity.
  - cbn [forallb] in Hl. apply andb_true_iff in Hl. destruct Hl as [Hit Hl].
    destruct (smallRecord_frame it Hit) as (Hlen & Hf & _).
    cbn [segmentBytes] in Hfuel |- *. rewrite Hf in Hfuel |- *.
    set (rec := recordOf it) in *.
    rewrite <- app_assoc in Hfuel |- *.
    assert (Hcons : exists b bs, le_bytes 4 (len rec) ++ rec ++ segmentBytes l = b :: bs).
    { cbn [le_bytes app]. eexists _, _. reflexivity. }
    destruct Hcons as (b & bs & Hcons).
    cbn [readRecords]. rewrite Hcons. rewrite <- Hcons. clear b bs Hcons.
    rewrite firstn_le_bytes, skipn_le_bytes.
    pose proof (len_nonneg rec) as Hnn.
    rewrite le_value_u32 by lia.
    unfold len. rewrite Nat2Z.id.
    rewrite !length_app, length_le_bytes in *.
    replace (4 + (length rec + length (segmentBytes l)) <? 4)%nat with false
      by (symmetry; apply Nat.ltb_ge; lia).
    replace (length rec + length (segmentBytes l) <? length rec)%nat with false
      by (symmetry; apply Nat.ltb_ge; lia).
    cbn [orb].
    rewrite skipn_app, Nat.sub_diag, skipn_all2 by lia.
    rewrite firstn_app, Nat.sub_diag, firstn_all2 by lia.
    cbn [skipn firstn app]. rewrite app_nil_r.
    rewrite (IH fuel Hl) by lia. reflexivity.
Qed.

Lemma keyField_record it :
  encodable it = true -> keyField (recordOf it) = PK it mod 2 ^ 32.
Proof.
  unfold encodable, frameOf, recordOf, keyField.
  destruct (encodeItemInto [] it) as [buf|] eqn:Hbuf; [|discriminate].
  intros _. destruct (encodeItemInto_layout it buf Hbuf) as (fields & -> & _).
  rewrite firstn_le_bytes, le_value_le_bytes. unfold wrapU32.
  change (256 ^ Z.of_nat 4) with (2 ^ 32).
  apply Z.mod_mod. vm_compute. discriminate.
Qed.

Lemma diskKeys_segment l :
  forallb smallRecord l = true ->
  diskKeys (segmentBytes l) = Some (map (fun it => PK it mod 2 ^ 32) l).
Proof.
  intros Hl. unfold diskKeys.
  rewrite (readRecords_segment l _ Hl) by lia.
  cbn [option_map]. f_equal. rewrite map_map.
  apply map_ext_in. intros it Hin. apply keyField_record.
  pose proof (smallRecord_encodable l Hl) as He.
  rewrite forallb_forall in He. now apply He.
Qed.

Lemma diskKeys_inU32 l :
  forallb smallRecord l = true -> forallb inU32 l = true ->
  diskKeys (segmentBytes l) = Some (map PK l).
Proof.
  intros Hl Hu. rewrite (diskKeys_segment l Hl). f_equal.
  apply map_ext_in. intros it Hin.
  rewrite forallb_forall in Hu. specialize (Hu it Hin).
  unfold inU32 in Hu. apply andb_true_iff in Hu. destruct Hu as [H0 H1].
  apply Z.leb_le in H0. apply Z.ltb_lt in H1. now apply Z.mod_small.
Qed.

(** C3, as the code has it. A flush, whose two files can be created, of
    an Index whose keys all lie in [[0, 2^32)] and whose records all
    encode, each to less than 4 GiB, puts the frames of a first run [lo]
    of the Index's listing in the lower file and the frames of the rest
    [up] in the upper file.  The key fields a reader finds in the lower
    file are all below those it finds in the upper file, no key field
    occurs twice, and the key fields of the two files are exactly the keys
    the Index held when the flush began. *)
Theorem flush_segments_disjoint (opens : fileName -> bool) (its : list Item)
  (index : BTree) (size mn mx : Z) (flag : bool) (d : Dir) (B : Z) :
  opens (LowerName mn) = true ->
  (forall first, opens (SegName first mx) = true) ->
  upserts (New 32) its = Ok index ->
  forallb smallRecord (flat (root index)) = true ->
  forallb inU32 (flat (root index)) = true ->
  exists lo up ret lowerKeys upperKeys,
    let d1 := renameFile (LowerName mn) (SegName mn ret)
                (dirStore (LowerName mn) (segmentBytes lo) d) in
    writeMapToFileOn opens (mkState index size mn mx flag d) B
    = Ok (mkState (New 32) 0 0 0 false
            match up with
            | [] => d1
            | u :: _ => dirStore (SegName (PK u) mx) (segmentBytes up) d1
            end) /\
    segment lo = Some (segmentBytes lo) /\
    segment up = Some (segmentBytes up) /\
    diskKeys (segmentBytes lo) = Some lowerKeys /\
    diskKeys (segmentBytes up) = Some upperKeys /\
    (forall a b, In a lowerKeys -> In b upperKeys -> a < b) /\
    NoDup (lowerKeys ++ upperKeys) /\
    (forall k, In k (lowerKeys ++ upperKeys) <-> exists r, Get index k = Ok (Some r)) /\
    (forall it, In it (lo ++ up) <-> stored index it).
Proof.
  intros Hlower Hupper Hup Hsmall Hu32.
  rewrite (writeMapToFileOn_opens opens (mkState index size mn mx flag d) B Hlower Hupper).
  pose proof (smallRecord_encodable _ Hsmall) as Henc.
  pose proof (built_unique 32 its index is_int_32 Hup) as Hinv.
  pose proof (writeMapToFile_sound (mkState index size mn mx flag d) B Hinv Henc) as Hw.
  cbn [tr minKey maxKey dir] in Hw.
  pose proof (cut_app (B / 2) 0 (flat (root index))) as Happ.
  pose proof Hinv as (_ & Hs & _).
  pose proof (cut_lower_below (B / 2) 0 (flat (root index)) Hs) as Hlt.
  destruct (cut (B / 2) 0 (flat (root index))) as [[lo up] ret].
  exists lo, up, ret, (map PK lo), (map PK up). cbv zeta. split; [exact Hw|].
  rewrite Happ in Henc, Hsmall, Hu32.
  apply forallb_app_inv in Henc. destruct Henc as [Hlo Hup'].
  apply forallb_app_inv in Hsmall. destruct Hsmall as [Hslo Hsup].
  apply forallb_app_inv in Hu32. destruct Hu32 as [Hulo Huup].
  split; [now apply segmentBytes_segment|].
  split; [now apply segmentBytes_segment|].
  split; [now apply diskKeys_inU32|].
  split; [now apply diskKeys_inU32|].
  split.
  { intros a b Ha Hb. apply in_map_iff in Ha. destruct Ha as (x & <- & Hx).
    apply in_map_iff in Hb. destruct Hb as (y & <- & Hy). now apply Hlt. }
  rewrite <- map_app, <- Happ.
  split; [now apply ascending_NoDup|]. split.
  - intros k. rewrite (Get_spec index k Hinv). split.
    + intros Hk. apply in_map_iff in Hk. destruct Hk as (a & <- & Ha).
      exists (row a). apply in_split in Ha. destruct Ha as (l1 & l2 & E).
      rewrite E in Hs |- *. now rewrite (findPK_hit _ _ _ (PK a) Hs eq_refl).
    + intros [r Hr].
      destruct (findPK k (flat (root index))) as [a|] eqn:Hf; [|discriminate].
      unfold findPK in Hf. apply find_some in Hf. destruct Hf as [Ha Hk].
      apply Z.eqb_eq in Hk. subst k. now apply in_map.
  - intros it. symmetry. now apply stored_iff.
Qed.

Lemma flush_segments_disjoint_witness :
  let opens := fun _ : fileName => true in
  let its := [mkItem 3 [("a"%string, ABool true)]; mkItem 1 []; mkItem 4 [];
              mkItem 2 [("b"%string, ANumber "2.5")]] in
  let index := match upserts (New 32) its with Ok tr => tr | _ => New 32 end in
  exists lo up ret lowerKeys upperKeys,
    let d1 := renameFile (LowerName 1) (SegName 1 ret)
                (dirStore (LowerName 1) (segmentBytes lo) []) in
    writeMapToFileOn opens (mkState index 600 1 4 true []) 40
    = Ok (mkState (New 32) 0 0 0 false
            match up with
            | [] => d1
            | u :: _ => dirStore (SegName (PK u) 4) (segmentBytes up) d1
            end) /\
    segment lo = Some (segmentBytes lo) /\
    segment up = Some (segmentBytes up) /\
    diskKeys (segmentBytes lo) = Some lowerKeys /\
    diskKeys (segmentBytes up) = Some upperKeys /\
    (forall a b, In a lowerKeys -> In b upperKeys -> a < b) /\
    NoDup (lowerKeys ++ upperKeys) /\
    (forall k, In k (lowerKeys ++ upperKeys) <-> exists r, Get index k = Ok (Some r)) /\
    (forall it, In it (lo ++ up) <-> stored index it).
Proof.
  cbv zeta.
  apply (flush_segments_disjoint (fun _ => true)
           [mkItem 3 [("a"%string, ABool true)]; mkItem 1 []; mkItem 4 [];
            mkItem 2 [("b"%string, ANumber "2.5")]]);
    [reflexivity | intros first; reflexivity | vm_compute; reflexivity ..].
Defined.

(** C3 as the specification states it does not hold: the record holds the
    key as a [u32], so of the keys -1 and 1 the flush writes the key field
    4294967295 to the lower file and 1 to the upper file, and the lower
    file's key is above the upper file's. *)
Lemma flush_disk_keys_out_of_order :
  exists index lower upper,
    upserts (New 32) [mkItem 1 []; mkItem (-1) []] = Ok index /\
    writeMapToFileOn (fun _ => true) (mkState index 20 (-1) 1 true []) 2
    = Ok (mkState (New 32) 0 0 0 false
            [(SegName 1 1, upper); (SegName (-1) (-1), lower)]) /\
    diskKeys lower = Some [4294967295] /\
    diskKeys upper = Some [1] /\
    ~ (forall a b, In a [4294967295] -> In b [1] -> a < b).
Proof.
  eexists _, _, _. split; [vm_compute; reflexivity|].
  split; [vm_compute; reflexivity|].
  split; [vm_compute; reflexivity|]. split; [vm_compute; reflexivity|].
  intros H. specialize (H 4294967295 1 (or_introl eq_refl) (or_introl eq_refl)). lia.
Qed.

(** * The trackers and the batch *)

Lemma trackKey_state st v :
  tr (snd (trackKey st v)) = tr st /\
  currentMapSize (snd (trackKey st v)) = currentMapSize st.
Proof.
  unfold trackKey.
  destruct (if setMinMaxKey st then (minKey st, maxKey st) else _) as [mn mx].
  split; reflexivity.
Qed.

(** One line: the trackers and the counter. *)
Lemma ingestLine_batch wtd B st st' ln keys :
  keyed ln = true -> trackersReflect st keys ->
  ingestLine wtd B st ln = Ok (Completed st') ->
  let flush := wtd && (B <? wrapU64 (lineLen ln + currentMapSize st)) in
  trackersReflect st' ((if flush then [] else keys) ++ lineKey ln) /\
  currentMapSize st'
  = (if wtd then wrapU64 ((if flush then 0 else currentMapSize st) + lineLen ln)
     else if flush then 0 else currentMapSize st).
Proof.
  intros Hkeyed Hk Hrun. cbv zeta. unfold ingestLine in Hrun.
  set (flush := wtd && (B <? wrapU64 (lineLen ln + currentMapSize st))) in *.
  assert (Hst1 : forall st1,
    (if flush then writeMapToFile st B else Ok st) = Ok st1 ->
    currentMapSize st1 = (if flush then 0 else currentMapSize st) /\
    trackersReflect st1 (if flush then [] else keys)).
  { intros st1 H1. destruct flush.
    - apply writeMapToFile_resets in H1. tauto.
    - inversion H1; subst. split; [reflexivity|assumption]. }
  destruct (if flush then writeMapToFile st B else Ok st) as [st1| |];
    cbn [bind] in Hrun; try discriminate.
  destruct (Hst1 st1 eq_refl) as [Hsize Hk1]. clear Hst1.
  unfold keyed in Hkeyed. unfold lineKey.
  destruct (parsed ln) as [pairs|]; [|cbn [bind] in Hrun; discriminate].
  destruct pairs as [|[k0 v0] rest]; [discriminate|].
  cbn [readPairs] in Hrun.
  pose proof (trackKey_reflect st1 v0 _ Hk1) as Htk.
  destruct (trackKey_state st1 v0) as [_ Hcms].
  destruct (trackKey st1 v0) as [pk st2]. destruct Htk as [Hpk Hk2].
  cbn [snd] in Hcms.
  destruct (Upsert (tr st2) _) as [[[tr' old] rep]| |];
    cbn [bind] in Hrun; try discriminate.
  injection Hrun as <-. rewrite <- Hpk.
  cbn [currentMapSize]. rewrite Hcms, Hsize. split; [|now destruct wtd].
  unfold trackersReflect in *.
  destruct ((if flush then [] else keys) ++ [pk]); exact Hk2.
Qed.

(** One line: the keys the Index holds. *)
Lemma ingestLine_batch_index wtd B st st' ln keys :
  Inv (tr st) -> keyed ln = true ->
  (forall k, In k keys <-> exists r, Get (tr st) k = Ok (Some r)) ->
  ingestLine wtd B st ln = Ok (Completed st') ->
  let flush := wtd && (B <? wrapU64 (lineLen ln + currentMapSize st)) in
  Inv (tr st') /\
  forall k, In k ((if flush then [] else keys) ++ lineKey ln)
            <-> exists r, Get (tr st') k = Ok (Some r).
Proof.
  intros Hinv Hkeyed Hkeys Hrun. cbv zeta. unfold ingestLine in Hrun.
  set (flush := wtd && (B <? wrapU64 (lineLen ln + currentMapSize st))) in *.
  assert (Hst1 : forall st1,
    (if flush then writeMapToFile st B else Ok st) = Ok st1 ->
    Inv (tr st1) /\
    forall k, In k (if flush then [] else keys)
              <-> exists r, Get (tr st1) k = Ok (Some r)).
  { intros st1 H1. destruct flush.
    - apply writeMapToFile_resets in H1. destruct H1 as (-> & _).
      split; [apply New_Inv, is_int_32|].
      intros k. split; [intros []|]. intros [r Hr]. discriminate.
    - inversion H1; subst. now split. }
  destruct (if flush then writeMapToFile st B else Ok st) as [st1| |];
    cbn [bind] in Hrun; try discriminate.
  destruct (Hst1 st1 eq_refl) as [Hinv1 Hkeys1]. clear Hst1.
  unfold keyed in Hkeyed. unfold lineKey.
  destruct (parsed ln) as [pairs|]; [|cbn [bind] in Hrun; discriminate].
  destruct pairs as [|[k0 v0] rest]; [discriminate|].
  cbn [readPairs] in Hrun.
  assert (Hpk : fst (trackKey st1 v0) = match ToInt v0 with Some i => i | None => 0 end).
  { unfold trackKey.
    destruct (if setMinMaxKey st1 then (minKey st1, maxKey st1) else _) as [mn mx].
    reflexivity. }
  destruct (trackKey_state st1 v0) as [Htr _].
  destruct (trackKey st1 v0) as [pk st2]. cbn [fst snd] in Hpk, Htr.
  rewrite Htr in Hrun.
  set (tempMap := fold_left (fun m p => rowSet (fst p) (anyOf (snd p)) m) rest []) in *.
  destruct (Upsert (tr st1) (mkItem pk tempMap)) as [[[tr' old] rep]| |] eqn:Hup;
    cbn [bind] in Hrun; try discriminate.
  injection Hrun as <-. cbn [tr]. rewrite <- Hpk.
  destruct (Get_after_Upsert (tr st1) (mkItem pk tempMap) tr' old rep pk Hinv1 Hup)
    as [Hinv' _].
  split; [exact Hinv'|]. intros k.
  destruct (Get_after_Upsert (tr st1) (mkItem pk tempMap) tr' old rep k Hinv1 Hup)
    as [_ Hget].
  rewrite Hget. cbn [PK row]. rewrite in_app_iff, Hkeys1.
  destruct (Z.eqb_spec pk k) as [E|E].
  - split; [intros _; eexists; reflexivity|]. intros _. right. now left.
  - split; [intros [H|[H|[]]]; [assumption|contradiction]|]. intros H. now left.
Qed.

Lemma ingestLines_batch wtd B lines : forall st st' keys,
  forallb keyed lines = true -> trackersReflect st keys ->
  ingestLines wtd B st lines = Ok (Completed st') ->
  trackersReflect st' (batchKeys wtd B (currentMapSize st) keys lines).
Proof.
  induction lines as [|ln lines IH]; intros st st' keys Hkeyed Hk Hrun;
    cbn [ingestLines batchKeys forallb] in *.
  - injection Hrun as <-. exact Hk.
  - apply andb_true_iff in Hkeyed. destruct Hkeyed as [Hln Hrest].
    destruct (ingestLine wtd B st ln) as [[st1|st1]| |] eqn:Hone;
      cbn [bind] in Hrun; try discriminate.
    destruct (ingestLine_batch wtd B st st1 ln keys Hln Hk Hone) as [Hk1 Hsize].
    pose proof (IH st1 st' _ Hrest Hk1 Hrun) as H. rewrite Hsize in H.
    destruct wtd; exact H.
Qed.

Lemma ingestLines_batch_index wtd B lines : forall st st' keys,
  Inv (tr st) -> forallb keyed lines = true -> trackersReflect st keys ->
  (forall k, In k keys <-> exists r, Get (tr st) k = Ok (Some r)) ->
  ingestLines wtd B st lines = Ok (Completed st') ->
  forall k, In k (batchKeys wtd B (currentMapSize st) keys lines)
            <-> exists r, Get (tr st') k = Ok (Some r).
Proof.
  induction lines as [|ln lines IH]; intros st st' keys Hinv Hkeyed Hk Hkeys Hrun;
    cbn [ingestLines batchKeys forallb] in *.
  - injection Hrun as <-. exact Hkeys.
  - apply andb_true_iff in Hkeyed. destruct Hkeyed as [Hln Hrest].
    destruct (ingestLine wtd B st ln) as [[st1|st1]| |] eqn:Hone;
      cbn [bind] in Hrun; try discriminate.
    destruct (ingestLine_batch wtd B st st1 ln keys Hln Hk Hone) as [Hk1 Hsize].
    destruct (ingestLine_batch_index wtd B st st1 ln keys Hinv Hln Hkeys Hone)
      as [Hinv1 Hkeys1].
    pose proof (IH st1 st' _ Hinv1 Hrest Hk1 Hkeys1 Hrun) as H. rewrite Hsize in H.
    destruct wtd; exact H.
Qed.

(** C9, as the code has it. During a pass over lines none of which is the
    empty object, the min and max trackers and their flag reflect the
    records read since the last flush, whose keys are the keys the Index
    holds: every flush resets the trackers (flag down, both keys zero)
    together with the Index. *)
Theorem trackers_reflect_batch (wtd : bool) (B : Z) (lines : list Line) :
  forallb keyed lines = true ->
  forall (st st' : State) (keys : list Z),
    trackersReflect st keys ->
    ingestLines wtd B st lines = Ok (Completed st') ->
    trackersReflect st' (batchKeys wtd B (currentMapSize st) keys lines) /\
    (forall its,
       upserts (New 32) its = Ok (tr st) ->
       (forall k, In k keys <-> exists r, Get (tr st) k = Ok (Some r)) ->
       forall k, In k (batchKeys wtd B (currentMapSize st) keys lines)
                 <-> exists r, Get (tr st') k = Ok (Some r)) /\
    (forall s s', writeMapToFile s B = Ok s' ->
       trackersReflect s' [] /\ IsEmpty (tr s') = true).
Proof.
  intros Hkeyed st st' keys Hk Hrun.
  split; [exact (ingestLines_batch wtd B lines st st' keys Hkeyed Hk Hrun)|].
  split.
  - intros its Hup Hkeys.
    pose proof (built_unique 32 its (tr st) is_int_32 Hup) as Hinv.
    exact (ingestLines_batch_index wtd B lines st st' keys Hinv Hkeyed Hk Hkeys Hrun).
  - intros s s' Hw. destruct (writeMapToFile_resets s B s' Hw) as (Htr & _ & Hrefl).
    split; [exact Hrefl|]. now rewrite Htr.
Qed.

Lemma trackers_reflect_batch_witness :
  let ln (k : string) := mkLine 150 (Some [("id"%string, JNumber k)]) in
  let lines := [ln "5"; ln "1"; ln "9"]%string in
  let st' := match ingestLines true 400 initState lines with
             | Ok (Completed s) => s
             | _ => initState
             end in
  forallb keyed lines = true /\
  trackersReflect initState [] /\
  ingestLines true 400 initState lines = Ok (Completed st') /\
  trackersReflect st' (batchKeys true 400 (currentMapSize initState) [] lines) /\
  (forall k, In k (batchKeys true 400 (currentMapSize initState) [] lines)
             <-> exists r, Get (tr st') k = Ok (Some r)).
Proof.
  cbv zeta. split; [reflexivity|]. split; [repeat split|].
  split; [vm_compute; reflexivity|].
  destruct (trackers_reflect_batch true 400
              [mkLine 150 (Some [("id"%string, JNumber "5"%string)]);
               mkLine 150 (Some [("id"%string, JNumber "1"%string)]);
               mkLine 150 (Some [("id"%string, JNumber "9"%string)])]
              eq_refl initState
              match ingestLines true 400 initState
                      [mkLine 150 (Some [("id"%string, JNumber "5"%string)]);
                       mkLine 150 (Some [("id"%string, JNumber "1"%string)]);
                       mkLine 150 (Some [("id"%string, JNumber "9"%string)])] with
              | Ok (Completed s) => s
              | _ => initState
              end []) as (Hrefl & Hindex & _).
  - repeat split.
  - vm_compute; reflexivity.
  - split; [exact Hrefl|]. apply (Hindex []); [reflexivity|].
    intros k. split; [intros []|]. intros [r Hr]. discriminate.
Defined.

(** C9 as the specification states it does not hold: the keys 5, 1, 9
    in this order, a flush falling before the third line; at the end of
    the loop the trackers hold 9 and 9, not the minimum 1 and the maximum
    9 of the pass. *)
Lemma trackers_forget_flushed_records :
  let ln (k : string) := mkLine 150 (Some [("id"%string, JNumber k)]) in
  let lines := [ln "5"; ln "1"; ln "9"]%string in
  exists st,
    ingestLines true 400 initState lines = Ok (Completed st) /\
    passKeys lines = [5; 1; 9] /\
    minKey st = 9 /\ maxKey st = 9 /\
    ~ trackersReflect st (passKeys lines).
Proof.
  cbv zeta. eexists. split; [vm_compute; reflexivity|].
  split; [reflexivity|]. split; [reflexivity|]. split; [reflexivity|].
  intros (_ & Hmn & _). vm_compute in Hmn. discriminate.
Qed.

(** A line that is the empty object is buffered under the key 0 without
    moving the trackers: after the lines with the key 5 and the empty
    object, the Index holds the keys 0 and 5 and both trackers are 5. *)
Lemma empty_object_line_is_not_tracked :
  let lines := [mkLine 9 (Some [("id"%string, JNumber "5"%string)]); mkLine 2 (Some [])] in
  exists st,
    ingestLines false 400 initState lines = Ok (Completed st) /\
    Get (tr st) 0 = Ok (Some []) /\ Get (tr st) 5 = Ok (Some []) /\
    minKey st = 5 /\ maxKey st = 5 /\
    ~ trackersReflect st (batchKeys false 400 0 [] lines).
Proof.
  cbv zeta. eexists. split; [vm_compute; reflexivity|].
  split; [reflexivity|]. split; [reflexivity|].
  split; [reflexivity|]. split; [reflexivity|].
  intros (_ & Hmn & _). vm_compute in Hmn. discriminate.
Qed.
